(** * Goldfish simulator: zone state, turn engine and capability classifier

    A shallow embedding of [src/core/models.py], [src/core/engine.py] and
    [src/core/tags.py], and of the parsers of [src/core/scryfall.py].

    Modelling conventions.
    - Python [str] values are Rocq [string]s (text is taken to be ASCII).
    - Python [dict[str, int]] is a [gmap string Z]; [int] is [Z].
    - A [Card] is a mutable object.  The zones of a game hold references to
      card objects; the objects themselves live in a store ([objects]).  The
      value of [id(card)] is the reference.  [==] on cards is the field-wise
      equality of pydantic's [BaseModel], so [x in zone] and [zone.remove(x)]
      compare the stored values, not the references.
    - [random.shuffle] is an arbitrary permutation drawn from a generator
      state that is threaded through the engine.
    - An uncaught Python exception is the [Raised] outcome. *)

From Stdlib Require Import ZArith Lia Ascii String List.
From stdpp Require Import base option list gmap strings fin_maps sorting pretty.

Open Scope string_scope.
Open Scope list_scope.
Open Scope Z_scope.

(** ** Strings *)

Module Str.

(** [needle in hay] on Python strings. *)
Fixpoint contains (needle hay : string) : bool :=
  String.prefix needle hay ||
  match hay with
  | EmptyString => false
  | String _ hay' => contains needle hay'
  end.

Definition is_upper (c : ascii) : bool :=
  let n := nat_of_ascii c in (65 <=? n)%nat && (n <=? 90)%nat.

Definition is_lower (c : ascii) : bool :=
  let n := nat_of_ascii c in (97 <=? n)%nat && (n <=? 122)%nat.

Definition lower_char (c : ascii) : ascii :=
  if is_upper c then ascii_of_nat (nat_of_ascii c + 32) else c.

Definition upper_char (c : ascii) : ascii :=
  if is_lower c then ascii_of_nat (nat_of_ascii c - 32) else c.

Fixpoint map (f : ascii -> ascii) (s : string) : string :=
  match s with
  | EmptyString => EmptyString
  | String c s' => String (f c) (map f s')
  end.

(** [s.lower()] and [s.upper()]. *)
Definition lower : string -> string := map lower_char.
Definition upper : string -> string := map upper_char.

(** [s.capitalize()]: first character upper case, the rest lower case. *)
Definition capitalize (s : string) : string :=
  match s with
  | EmptyString => EmptyString
  | String c s' => String (upper_char c) (lower s')
  end.

(** [s.startswith(p)]. *)
Definition startswith (p s : string) : bool := String.prefix p s.

(** [s[:-1]]. *)
Fixpoint drop_last (s : string) : string :=
  match s with
  | EmptyString => EmptyString
  | String c EmptyString => EmptyString
  | String c s' => String c (drop_last s')
  end.

(** [s.split(sep)[-1]] for a one-character separator: the text after the
    last occurrence of [sep], or all of [s] when there is none. *)
Fixpoint after_last (sep : ascii) (s : string) : string :=
  match s with
  | EmptyString => EmptyString
  | String c s' =>
      if contains (String sep EmptyString) s' then after_last sep s'
      else if Ascii.eqb c sep then s'
      else s
  end.

End Str.

(** ** Cards ([models.py]) *)

Record Card := mkCard {
  name : string;
  mana_cost : gmap string Z;
  cmc : Z;
  type_line : string;
  oracle_text : string;
  tags : list string;
  scryfall_id : string;
  color_identity : list string;
}.

#[global] Instance Card_eq_dec : EqDecision Card.
Proof. solve_decision. Defined.

#[global] Instance Card_inhabited : Inhabited Card :=
  populate (mkCard "" ∅ 0 "" "" [] "" []).

Definition set_tags (c : Card) (t : list string) : Card :=
  mkCard (name c) (mana_cost c) (cmc c) (type_line c) (oracle_text c) t
         (scryfall_id c) (color_identity c).

(** [Card.is_land]. *)
Definition is_land (c : Card) : bool := Str.contains "Land" (type_line c).

(** [Card.is_permanent]. *)
Definition is_permanent (c : Card) : bool :=
  if Str.contains "Instant" (type_line c) || Str.contains "Sorcery" (type_line c)
  then false
  else true.

(** [tag in card.tags]. *)
Definition has_tag (t : string) (c : Card) : bool := bool_decide (t ∈ tags c).

(** ** Mana dictionaries *)

(** [sum(d.values())]. *)
Definition dict_sum (d : gmap string Z) : Z :=
  map_fold (λ _ v acc, v + acc) 0 d.

(** [d.get(k, 0)]. *)
Definition dict_get0 (d : gmap string Z) (k : string) : Z := default 0 (d !! k).

(** [for color, amount in cost.items(): pool[color] = pool.get(color, 0) - amount].
    The keys of a dict are distinct, so the outcome does not depend on the
    order in which the items are visited. *)
Definition pay (pool cost : gmap string Z) : gmap string Z :=
  map_fold (λ color amount p, <[color := dict_get0 p color - amount]> p) pool cost.

(** [for color, amount in mana.items(): pool[color] = pool.get(color, 0) + amount]. *)
Definition gain (pool mana : gmap string Z) : gmap string Z :=
  map_fold (λ color amount p, <[color := dict_get0 p color + amount]> p) pool mana.

(** ** Outcomes *)

Inductive result (A : Type) : Type :=
| Ok (a : A)
| Raised (exn : string).
Arguments Ok {A} a.
Arguments Raised {A} exn.

#[global] Instance result_ret : MRet result := λ A a, Ok a.
#[global] Instance result_bind : MBind result := λ A B k m,
  match m with
  | Ok a => k a
  | Raised e => Raised e
  end.

(** ** Zone state ([engine.py], class [GameState]) *)

Definition ref := nat.

Record GameState := mkState {
  objects : gmap ref Card;
  library : list ref;
  hand : list ref;
  battlefield : list ref;
  graveyard : list ref;
  mana_pool : gmap string Z;
  turn_counter : Z;
  land_played_this_turn : option ref;
  cards_played_this_turn : list ref;
  commander : option ref;
}.

(** [GameState()]: the constructor, over a given object store. *)
Definition init_state (objs : gmap ref Card) : GameState :=
  mkState objs [] [] [] [] ∅ 0 None [] None.

Definition deref (s : GameState) (r : ref) : Card := objects s !!! r.

(** [a == b] on two card objects. *)
Definition card_eqb (s : GameState) (a b : ref) : bool :=
  bool_decide (deref s a = deref s b).

(** [card in zone]. *)
Definition py_in (s : GameState) (card : ref) (zone : list ref) : bool :=
  existsb (card_eqb s card) zone.

(** [zone.remove(card)]: drops the first element equal to [card];
    [None] stands for the [ValueError] of a missing element. *)
Fixpoint py_remove (s : GameState) (card : ref) (zone : list ref) : option (list ref) :=
  match zone with
  | [] => None
  | x :: zone' =>
      if card_eqb s card x then Some zone'
      else cons x <$> py_remove s card zone'
  end.

Definition remove_or_raise (s : GameState) (card : ref) (zone : list ref) : result (list ref) :=
  match py_remove s card zone with
  | Some z => Ok z
  | None => Raised "ValueError: list.remove(x): x not in list"
  end.

Definition set_library (s : GameState) (l : list ref) : GameState :=
  mkState (objects s) l (hand s) (battlefield s) (graveyard s) (mana_pool s)
    (turn_counter s) (land_played_this_turn s) (cards_played_this_turn s) (commander s).
Definition set_hand (s : GameState) (l : list ref) : GameState :=
  mkState (objects s) (library s) l (battlefield s) (graveyard s) (mana_pool s)
    (turn_counter s) (land_played_this_turn s) (cards_played_this_turn s) (commander s).
Definition set_battlefield (s : GameState) (l : list ref) : GameState :=
  mkState (objects s) (library s) (hand s) l (graveyard s) (mana_pool s)
    (turn_counter s) (land_played_this_turn s) (cards_played_this_turn s) (commander s).
Definition set_graveyard (s : GameState) (l : list ref) : GameState :=
  mkState (objects s) (library s) (hand s) (battlefield s) l (mana_pool s)
    (turn_counter s) (land_played_this_turn s) (cards_played_this_turn s) (commander s).
Definition set_mana_pool (s : GameState) (p : gmap string Z) : GameState :=
  mkState (objects s) (library s) (hand s) (battlefield s) (graveyard s) p
    (turn_counter s) (land_played_this_turn s) (cards_played_this_turn s) (commander s).
Definition set_turn_counter (s : GameState) (n : Z) : GameState :=
  mkState (objects s) (library s) (hand s) (battlefield s) (graveyard s) (mana_pool s)
    n (land_played_this_turn s) (cards_played_this_turn s) (commander s).
Definition set_land_played (s : GameState) (o : option ref) : GameState :=
  mkState (objects s) (library s) (hand s) (battlefield s) (graveyard s) (mana_pool s)
    (turn_counter s) o (cards_played_this_turn s) (commander s).
Definition set_cards_played (s : GameState) (l : list ref) : GameState :=
  mkState (objects s) (library s) (hand s) (battlefield s) (graveyard s) (mana_pool s)
    (turn_counter s) (land_played_this_turn s) l (commander s).
Definition set_commander (s : GameState) (o : option ref) : GameState :=
  mkState (objects s) (library s) (hand s) (battlefield s) (graveyard s) (mana_pool s)
    (turn_counter s) (land_played_this_turn s) (cards_played_this_turn s) o.
Definition set_objects (s : GameState) (o : gmap ref Card) : GameState :=
  mkState o (library s) (hand s) (battlefield s) (graveyard s) (mana_pool s)
    (turn_counter s) (land_played_this_turn s) (cards_played_this_turn s) (commander s).

(** [GameState.draw_card]. *)
Definition draw_card (s : GameState) : option ref * GameState :=
  match library s with
  | [] => (None, s)
  | card :: rest => (Some card, set_hand (set_library s rest) (hand s ++ [card]))
  end.

(** [GameState.play_land]. *)
Definition play_land (s : GameState) (card : ref) : result (bool * GameState) :=
  if bool_decide (is_Some (land_played_this_turn s)) then Ok (false, s)
  else if negb (py_in s card (hand s)) then Ok (false, s)
  else if negb (is_land (deref s card)) then Ok (false, s)
  else
    hand' ← remove_or_raise s card (hand s);
    let s1 := set_hand s hand' in
    let s2 := set_battlefield s1 (battlefield s1 ++ [card]) in
    let s3 := set_land_played s2 (Some card) in
    let s4 := set_cards_played s3 (cards_played_this_turn s3 ++ [card]) in
    Ok (true, s4).

(** [GameState.get_total_mana]. *)
Definition get_total_mana (s : GameState) : Z := dict_sum (mana_pool s).

(** [GameState.can_afford]. *)
Definition can_afford (s : GameState) (cost : gmap string Z) : bool :=
  let total_cost := dict_sum cost in
  let total_available := dict_sum (mana_pool s) in
  (total_cost <=? total_available)%Z.

(** [GameState.cast_spell]. *)
Definition cast_spell (s : GameState) (card : ref) (cost : gmap string Z)
  : result (bool * GameState) :=
  if negb (py_in s card (hand s)) then Ok (false, s)
  else if negb (can_afford s cost) then Raised "ValueError: Cannot afford spell"
  else
    let s1 := set_mana_pool s (pay (mana_pool s) cost) in
    hand' ← remove_or_raise s1 card (hand s1);
    let s2 := set_hand s1 hand' in
    if is_permanent (deref s2 card) then
      let s3 := set_battlefield s2 (battlefield s2 ++ [card]) in
      Ok (true, set_cards_played s3 (cards_played_this_turn s3 ++ [card]))
    else
      Ok (true, set_graveyard s2 (graveyard s2 ++ [card])).

(** [GameState.add_mana]. *)
Definition add_mana (s : GameState) (mana : gmap string Z) : GameState :=
  set_mana_pool s (gain (mana_pool s) mana).

(** [GameState.clear_mana_pool]. *)
Definition clear_mana_pool (s : GameState) : GameState :=
  set_cards_played (set_mana_pool s ∅) [].

(** ** Regular expressions (the fragment of Python's [re] used by [tags.py])

    A backtracking matcher in continuation-passing style: alternatives are
    tried left to right, [*] is greedy, and the first way to complete the
    match wins, as in Python.  Capturing groups record the text they last
    matched. *)

Module Re.

Inductive regex : Type :=
| Eps
| Chr (c : ascii)
| Any                         (* [.]: any character but a newline *)
| Space                       (* [\s] *)
| Digit                       (* [\d] *)
| Seq (r1 r2 : regex)
| Alt (r1 r2 : regex)
| Star (r : regex)            (* greedy [r*] *)
| Group (i : nat) (r : regex).

(** [r+] and [r?]. *)
Definition Plus (r : regex) : regex := Seq r (Star r).
Definition Opt (r : regex) : regex := Alt r Eps.

(** A literal piece of pattern text. *)
Fixpoint Lit (s : string) : regex :=
  match s with
  | EmptyString => Eps
  | String c EmptyString => Chr c
  | String c s' => Seq (Chr c) (Lit s')
  end.

Definition is_newline (c : ascii) : bool := (nat_of_ascii c =? 10)%nat.

Definition is_space (c : ascii) : bool :=
  let n := nat_of_ascii c in
  ((9 <=? n)%nat && (n <=? 13)%nat) || ((28 <=? n)%nat && (n <=? 32)%nat).

Definition is_digit (c : ascii) : bool :=
  let n := nat_of_ascii c in (48 <=? n)%nat && (n <=? 57)%nat.

(** Comparison of a pattern character with a text character; [ic] is the
    [re.IGNORECASE] flag. *)
Definition chr_eqb (ic : bool) (p x : ascii) : bool :=
  if ic then Ascii.eqb (Str.lower_char p) (Str.lower_char x) else Ascii.eqb p x.

Definition step1 (test : ascii -> bool) (s : string)
    (k : string -> option (gmap nat string)) : option (gmap nat string) :=
  match s with
  | String x s' => if test x then k s' else None
  | EmptyString => None
  end.

(** The text consumed between [s] and its suffix [s']. *)
Definition consumed (s s' : string) : string :=
  String.substring 0 (String.length s - String.length s') s.

Fixpoint run (ic : bool) (r : regex) (s : string) (caps : gmap nat string)
    (k : string -> gmap nat string -> option (gmap nat string)) {struct r}
  : option (gmap nat string) :=
  match r with
  | Eps => k s caps
  | Chr p => step1 (chr_eqb ic p) s (λ s', k s' caps)
  | Any => step1 (λ x, negb (is_newline x)) s (λ s', k s' caps)
  | Space => step1 is_space s (λ s', k s' caps)
  | Digit => step1 is_digit s (λ s', k s' caps)
  | Seq r1 r2 => run ic r1 s caps (λ s' caps', run ic r2 s' caps' k)
  | Alt r1 r2 =>
      match run ic r1 s caps k with
      | Some c => Some c
      | None => run ic r2 s caps k
      end
  | Star r1 =>
      (fix star (fuel : nat) (s : string) (caps : gmap nat string) {struct fuel} :=
         match fuel with
         | O => k s caps
         | S fuel' =>
             match run ic r1 s caps
                     (λ s' caps',
                        if (String.length s' <? String.length s)%nat
                        then star fuel' s' caps' else None) with
             | Some c => Some c
             | None => k s caps
             end
         end) (String.length s) s caps
  | Group i r1 =>
      run ic r1 s caps (λ s' caps', k s' (<[i := consumed s s']> caps'))
  end.

(** [re.search(r, s)]: the leftmost position at which [r] matches. *)
Fixpoint search (ic : bool) (r : regex) (s : string) : option (gmap nat string) :=
  match run ic r s ∅ (λ _ caps, Some caps) with
  | Some c => Some c
  | None =>
      match s with
      | EmptyString => None
      | String _ s' => search ic r s'
      end
  end.

(** The truth value of [re.search(r, s)]. *)
Definition found (ic : bool) (r : regex) (s : string) : bool :=
  bool_decide (is_Some (search ic r s)).

(** [match.group(i)]. *)
Definition group (m : gmap nat string) (i : nat) : string := default "" (m !! i).

(** An alternation of literals, [(a|b|c)]. *)
Fixpoint OneOf (l : list string) : regex :=
  match l with
  | [] => Eps
  | [s] => Lit s
  | s :: l' => Alt (Lit s) (OneOf l')
  end.

End Re.

(** ** Capability classifier ([tags.py]) *)

Module Tags.
Import Re.

(** [class CardTag(str, Enum)]: every member is its own string value. *)
Definition LAND := "LAND".
Definition ARTIFACT := "ARTIFACT".
Definition CREATURE := "CREATURE".
Definition ENCHANTMENT := "ENCHANTMENT".
Definition INSTANT := "INSTANT".
Definition SORCERY := "SORCERY".
Definition PLANESWALKER := "PLANESWALKER".
Definition RAMP := "RAMP".
Definition DRAW := "DRAW".
Definition REMOVAL := "REMOVAL".
Definition COUNTERSPELL := "COUNTERSPELL".
Definition BOARD_WIPE := "BOARD_WIPE".
Definition TUTOR := "TUTOR".
Definition TAPPED_ENTRY := "TAPPED_ENTRY".
Definition MANA_ROCK := "MANA_ROCK".

Definition CardTag : list string :=
  [LAND; ARTIFACT; CREATURE; ENCHANTMENT; INSTANT; SORCERY; PLANESWALKER;
   RAMP; DRAW; REMOVAL; COUNTERSPELL; BOARD_WIPE; TUTOR; TAPPED_ENTRY; MANA_ROCK].

Definition rock := [RAMP; ARTIFACT; MANA_ROCK].
Definition tapped_rock := [RAMP; ARTIFACT; MANA_ROCK; TAPPED_ENTRY].

Definition STATIC_CARD_TAGS : gmap string (list string) :=
  list_to_map
    [ ("Sol Ring", rock); ("Arcane Signet", rock); ("Mana Crypt", rock);
      ("Mana Vault", rock); ("Chrome Mox", rock); ("Mox Diamond", rock);
      ("Fellwar Stone", rock); ("Thought Vessel", rock); ("Mind Stone", rock);
      ("Talisman of Dominance", rock); ("Talisman of Progress", rock);
      ("Talisman of Creativity", rock); ("Talisman of Conviction", rock);
      ("Talisman of Hierarchy", rock);
      ("Coldsteel Heart", tapped_rock); ("Fire Diamond", tapped_rock);
      ("Marble Diamond", tapped_rock); ("Sky Diamond", tapped_rock);
      ("Moss Diamond", tapped_rock); ("Charcoal Diamond", tapped_rock);
      ("Star Compass", tapped_rock);
      ("Prismatic Lens", rock); ("Thran Dynamo", rock); ("Hedron Archive", rock);
      ("Gilded Lotus", rock);
      ("Command Tower", [LAND; RAMP]); ("Arcane Lighthouse", [LAND]);
      ("Reliquary Tower", [LAND]); ("Urborg, Tomb of Yawgmoth", [LAND; RAMP]);
      ("Cabal Coffers", [LAND; RAMP]);
      ("Rampant Growth", [RAMP; SORCERY]); ("Cultivate", [RAMP; SORCERY]);
      ("Kodama's Reach", [RAMP; SORCERY]); ("Farseek", [RAMP; SORCERY]);
      ("Nature's Lore", [RAMP; SORCERY]); ("Three Visits", [RAMP; SORCERY]);
      ("Skyshroud Claim", [RAMP; SORCERY]);
      ("Llanowar Elves", [RAMP; CREATURE]); ("Arbor Elf", [RAMP; CREATURE]);
      ("Birds of Paradise", [RAMP; CREATURE]); ("Fyndhorn Elves", [RAMP; CREATURE]);
      ("Sakura-Tribe Elder", [RAMP; CREATURE]);
      ("Rhystic Study", [DRAW; ENCHANTMENT]); ("Mystic Remora", [DRAW; ENCHANTMENT]);
      ("Phyrexian Arena", [DRAW; ENCHANTMENT]); ("Sylvan Library", [DRAW; ENCHANTMENT]);
      ("Swords to Plowshares", [REMOVAL; INSTANT]); ("Path to Exile", [REMOVAL; INSTANT]);
      ("Assassin's Trophy", [REMOVAL; INSTANT]); ("Beast Within", [REMOVAL; INSTANT]);
      ("Chaos Warp", [REMOVAL; INSTANT]); ("Generous Gift", [REMOVAL; INSTANT]);
      ("Wrath of God", [BOARD_WIPE; SORCERY]); ("Damnation", [BOARD_WIPE; SORCERY]);
      ("Cyclonic Rift", [BOARD_WIPE; INSTANT]); ("Blasphemous Act", [BOARD_WIPE; SORCERY]);
      ("Counterspell", [COUNTERSPELL; INSTANT]); ("Swan Song", [COUNTERSPELL; INSTANT]);
      ("Mana Drain", [COUNTERSPELL; INSTANT]); ("Force of Will", [COUNTERSPELL; INSTANT]);
      ("Pact of Negation", [COUNTERSPELL; INSTANT]);
      ("Demonic Tutor", [TUTOR; SORCERY]); ("Vampiric Tutor", [TUTOR; INSTANT]);
      ("Worldly Tutor", [TUTOR; INSTANT]); ("Mystical Tutor", [TUTOR; INSTANT]);
      ("Enlightened Tutor", [TUTOR; INSTANT]) ].

(** Concatenation of pattern pieces. *)
Fixpoint Cat (l : list regex) : regex :=
  match l with
  | [] => Eps
  | [r] => r
  | r :: l' => Seq r (Cat l')
  end.

(** [add\s+.*(\{.*\})|add\s+(one|two|three|any)\s+mana] *)
Definition re_mana : regex :=
  Alt (Cat [Lit "add"; Plus Space; Star Any;
            Group 1 (Cat [Chr "{"; Star Any; Chr "}"])])
      (Cat [Lit "add"; Plus Space; Group 2 (OneOf ["one"; "two"; "three"; "any"]);
            Plus Space; Lit "mana"]).

(** [draw (a card|cards|\d+ cards?|two cards?|three cards?|four cards?)] *)
Definition re_draw : regex :=
  Cat [Lit "draw ";
       Group 1 (Alt (Lit "a card")
               (Alt (Lit "cards")
               (Alt (Cat [Plus Digit; Lit " card"; Opt (Chr "s")])
               (Alt (Cat [Lit "two card"; Opt (Chr "s")])
               (Alt (Cat [Lit "three card"; Opt (Chr "s")])
                    (Cat [Lit "four card"; Opt (Chr "s")]))))))].

(** [destroy all (creatures|permanents)] *)
Definition re_wipe : regex :=
  Cat [Lit "destroy all "; Group 1 (OneOf ["creatures"; "permanents"])].

(** [search your library for a card] *)
Definition re_tutor : regex := Lit "search your library for a card".

(** [(this\s+(land|artifact)\s+)?(enters?|enter)\s+(the\s+battlefield\s+)?tapped] *)
Definition re_tapped : regex :=
  Cat [Opt (Group 1 (Cat [Lit "this"; Plus Space;
                          Group 2 (OneOf ["land"; "artifact"]); Plus Space]));
       Group 3 (Alt (Cat [Lit "enter"; Opt (Chr "s")]) (Lit "enter"));
       Plus Space;
       Opt (Group 4 (Cat [Lit "the"; Plus Space; Lit "battlefield"; Plus Space]));
       Lit "tapped"].

(** [unless you control (two or more|2 or more) basic lands] *)
Definition re_two_basics : regex :=
  Cat [Lit "unless you control "; Group 1 (OneOf ["two or more"; "2 or more"]);
       Lit " basic lands"].

(** [unless you control (a|an) (plains|island|swamp|mountain|forest)] *)
Definition re_check : regex :=
  Cat [Lit "unless you control "; Group 1 (OneOf ["a"; "an"]); Chr " ";
       Group 2 (OneOf ["plains"; "island"; "swamp"; "mountain"; "forest"])].

(** [(unless you (pay|reveal)|as .*(this\s+)?(land\s+)?enters.* you may (pay|reveal))] *)
Definition re_pay : regex :=
  Group 1
    (Alt (Cat [Lit "unless you "; Group 2 (OneOf ["pay"; "reveal"])])
         (Cat [Lit "as "; Star Any;
               Opt (Group 3 (Cat [Lit "this"; Plus Space]));
               Opt (Group 4 (Cat [Lit "land"; Plus Space]));
               Lit "enters"; Star Any; Lit " you may ";
               Group 5 (OneOf ["pay"; "reveal"])])).

(** [unless you control (two|2) or fewer other lands] *)
Definition re_fastland : regex :=
  Cat [Lit "unless you control "; Group 1 (OneOf ["two"; "2"]);
       Lit " or fewer other lands"].

Definition basic_plurals : list string :=
  ["mountains"; "islands"; "plains"; "swamps"; "forests"].

(** [unless you control (three|3) or more other .*(mountains|islands|plains|swamps|forests)] *)
Definition re_count : regex :=
  Cat [Lit "unless you control "; Group 1 (OneOf ["three"; "3"]);
       Lit " or more other "; Star Any; Group 2 (OneOf basic_plurals)].

(** [unless an opponent (has|controls) more lands] *)
Definition re_opponent : regex :=
  Cat [Lit "unless an opponent "; Group 1 (OneOf ["has"; "controls"]);
       Lit " more lands"].

(** [enters.*tapped.*if you control (three|3) or more] *)
Definition re_three_lands : regex :=
  Cat [Lit "enters"; Star Any; Lit "tapped"; Star Any; Lit "if you control ";
       Group 1 (OneOf ["three"; "3"]); Lit " or more"].

(** [if cond: tags.add(t)] *)
Definition add_if (cond : bool) (t : string) (tags : gset string) : gset string :=
  if cond then tags ∪ {[t]} else tags.

(** [f"COND_COUNT_3_{land_type[:-1]}"] with [land_type = match.group(2).upper()]. *)
Definition cond_count_tag (m : gmap nat string) : string :=
  let land_type := Str.upper (group m 2) in
  ("COND_COUNT_3_" ++ Str.drop_last land_type)%string.

(** Step 1: the static table. *)
Definition static_tags (card_name : string) (tags : gset string) : gset string :=
  match STATIC_CARD_TAGS !! card_name with
  | Some l => tags ∪ list_to_set l
  | None => tags
  end.

(** Steps 2 and 3: tags read off the type line. *)
Definition type_tags (type_line : string) (tags : gset string) : gset string :=
  let tags := add_if (Str.contains "Land" type_line) LAND tags in
  let tags := add_if (Str.contains "Artifact" type_line) ARTIFACT tags in
  let tags := add_if (Str.contains "Creature" type_line) CREATURE tags in
  let tags := add_if (Str.contains "Enchantment" type_line) ENCHANTMENT tags in
  let tags := add_if (Str.contains "Instant" type_line) INSTANT tags in
  let tags := add_if (Str.contains "Sorcery" type_line) SORCERY tags in
  add_if (Str.contains "Planeswalker" type_line) PLANESWALKER tags.

(** Step 4: rules over the oracle text. *)
Definition text_tags (oracle_text : string) (tags : gset string) : gset string :=
  let oracle_lower := Str.lower oracle_text in
  let tags :=
    add_if (Str.contains "search your library for a" oracle_lower
            && Str.contains "land" oracle_lower) RAMP tags in
  let tags :=
    if found false re_mana oracle_lower
    then (tags ∪ {[MANA_ROCK]}) ∪ {[RAMP]} else tags in
  let tags := add_if (found false re_draw oracle_lower) DRAW tags in
  let tags :=
    add_if (existsb (λ word, Str.contains word oracle_lower)
                    ["destroy"; "exile"; "sacrifice"]
            && existsb (λ target, Str.contains target oracle_lower)
                       ["creature"; "permanent"; "target"]) REMOVAL tags in
  let tags := add_if (found false re_wipe oracle_lower) BOARD_WIPE tags in
  let tags := add_if (Str.contains "counter target spell" oracle_lower) COUNTERSPELL tags in
  let tags := add_if (found true re_tutor oracle_text) TUTOR tags in
  add_if (found true re_tapped oracle_text) TAPPED_ENTRY tags.

(** The [if]/[elif] chain over the exception phrasings of a land that
    carries [TAPPED_ENTRY]. *)
Definition land_exceptions (oracle_lower : string) (tags : gset string) : gset string :=
  if found false re_two_basics oracle_lower then tags ∖ {[TAPPED_ENTRY]}
  else if found false re_check oracle_lower then tags ∖ {[TAPPED_ENTRY]}
  else if found false re_pay oracle_lower then tags ∖ {[TAPPED_ENTRY]}
  else if found false re_fastland oracle_lower then tags ∪ {["COND_FASTLAND"]}
  else match search false re_count oracle_lower with
       | Some m => tags ∪ {[cond_count_tag m]}
       | None =>
           if found false re_opponent oracle_lower then tags
           else if found false re_three_lands oracle_lower then tags ∖ {[TAPPED_ENTRY]}
           else tags
       end.

(** Land-specific conditional logic. *)
Definition land_tags (type_line oracle_text : string) (tags : gset string) : gset string :=
  if Str.contains "Land" type_line then
    if bool_decide (TAPPED_ENTRY ∈ tags)
    then land_exceptions (Str.lower oracle_text) tags
    else tags
  else tags.

(** The tag set built by [assign_tags]. *)
Definition tag_set (card_name type_line oracle_text : string) : gset string :=
  land_tags type_line oracle_text
    (text_tags oracle_text (type_tags type_line (static_tags card_name ∅))).

(** [assign_tags].  The result is [list(tags)] of a Python set, whose order
    is unspecified; the engine only tests membership. *)
Definition assign_tags (card_name type_line oracle_text : string) : list string :=
  elements (tag_set card_name type_line oracle_text).

End Tags.

(** ** Turn engine ([engine.py], class [GameEngine])

    The event log ([_log_event], [game_log]) is write-only and is left out.
    The Monte Carlo counters ([_mc_stats]) are write-only for the engine;
    they are kept beside it, in [Sim], after the engine. *)

(** [affordable.sort(key=lambda c: c.cmc, reverse=True)]: Python's sort is
    stable, and with [reverse=True] elements with equal keys keep their
    original order.  A stable sort has one possible outcome, which insertion
    from the right computes. *)
Fixpoint insert_desc {A} (key : A → Z) (x : A) (l : list A) : list A :=
  match l with
  | [] => [x]
  | y :: l' => if (key y <=? key x)%Z then x :: l else y :: insert_desc key x l'
  end.

Fixpoint sort_desc {A} (key : A → Z) (l : list A) : list A :=
  match l with
  | [] => []
  | x :: l' => insert_desc key x (sort_desc key l')
  end.

Definition COLORLESS_ONE : gmap string Z := {[ "colorless" := 1 ]}.

Definition basic_type_names : list string :=
  ["Mountain"; "Island"; "Plains"; "Swamp"; "Forest"].

Record Engine (Rng : Type) := mkEngine {
  state : GameState;
  rng : Rng;
}.
Arguments mkEngine {Rng} state rng.
Arguments state {Rng} e.
Arguments rng {Rng} e.

(** [GameEngine._check_enters_tapped]. *)
Definition _check_enters_tapped (s : GameState) (card : ref) : bool :=
  if negb (has_tag "TAPPED_ENTRY" (deref s card)) then false
  else if has_tag "COND_FASTLAND" (deref s card)
          && (Z.of_nat (length (filter (λ c, is_land (deref s c) && negb (card_eqb s c card))
                                       (battlefield s))) <=? 2)%Z
  then false
  else if existsb
            (λ tag,
               Str.startswith "COND_COUNT_3_" tag &&
               let land_type := Str.capitalize (Str.after_last "_" tag) in
               (3 <=? Z.of_nat (length (filter
                                  (λ c, is_land (deref s c) && negb (card_eqb s c card)
                                        && Str.contains land_type (type_line (deref s c)))
                                  (battlefield s))))%Z)
            (tags (deref s card))
  then false
  else true.

(** The eligibility test of the land sweep: the body of the first [for]
    loop of the main-phase [while], [true] when the land is appended to
    [untapped_lands]. *)
Definition land_untapped (s : GameState) (tapped_objects : gset ref) (land : ref) : bool :=
  if bool_decide (land ∈ tapped_objects) then false
  else if has_tag "FETCH_LAND" (deref s land) then false
  else if py_in s land (cards_played_this_turn s) && has_tag "TAPPED_ENTRY" (deref s land)
  then false
  else if match land_played_this_turn s with
          | Some played => card_eqb s land played && _check_enters_tapped s land
          | None => false
          end
  then false
  else true.

(** The land sweep: [untapped_lands] is computed first, then every entry
    adds one mana and is recorded as tapped. *)
Definition tap_lands (s : GameState) (tapped_objects : gset ref)
  : GameState * gset ref * bool :=
  let lands_on_battlefield := filter (λ c, is_land (deref s c)) (battlefield s) in
  let untapped_lands := filter (land_untapped s tapped_objects) lands_on_battlefield in
  foldl (λ '(s, tapped, _) land, (add_mana s COLORLESS_ONE, tapped ∪ {[land]}, true))
        (s, tapped_objects, false) untapped_lands.

(** One turn of the artifact [for] loop. *)
Definition tap_artifact (acc : GameState * gset ref * bool) (artifact : ref)
  : GameState * gset ref * bool :=
  let '(s, tapped, added) := acc in
  if bool_decide (artifact ∈ tapped) then acc
  else if py_in s artifact (cards_played_this_turn s)
          && (has_tag "TAPPED_ENTRY" (deref s artifact)
              || Str.contains "Creature" (type_line (deref s artifact)))
  then acc
  else (add_mana s COLORLESS_ONE, tapped ∪ {[artifact]}, true).

(** The artifact sweep. *)
Definition tap_artifacts (acc : GameState * gset ref * bool) : GameState * gset ref * bool :=
  let s := acc.1.1 in
  let mana_rocks :=
    filter (λ c, has_tag "MANA_ROCK" (deref s c) && has_tag "ARTIFACT" (deref s c))
           (battlefield s) in
  foldl tap_artifact acc mana_rocks.

(** The spell the cast step picks: [affordable[0]] after the sort, if any. *)
Definition choose_spell (s : GameState) : option ref :=
  let non_land_cards := filter (λ c, negb (is_land (deref s c))) (hand s) in
  let affordable := filter (λ c, can_afford s (mana_cost (deref s c))) non_land_cards in
  head (sort_desc (λ c, cmc (deref s c)) affordable).

(** The cast step; the flag is [spell_cast_this_loop]. *)
Definition cast_step (s : GameState) : result (GameState * bool) :=
  match choose_spell s with
  | Some spell =>
      '(ok, s') ← cast_spell s spell (mana_cost (deref s spell));
      Ok (s', ok)
  | None => Ok (s, false)
  end.

(** The availability test at the head of the fetcher loop: [true] when the
    loop body reaches "crack the fetch". *)
Definition fetcher_ready (s : GameState) (tapped_objects : gset ref) (fetcher : ref) : bool :=
  if Str.contains "{T}" (oracle_text (deref s fetcher)) then
    if bool_decide (fetcher ∈ tapped_objects) then false
    else if match land_played_this_turn s with
            | Some played => card_eqb s fetcher played
            | None => false
            end && has_tag "TAPPED_ENTRY" (deref s fetcher)
    then false
    else true
  else true.

(** The library search of a fetch. *)
Definition fetch_target (s : GameState) : option ref :=
  head (filter (λ card, is_land (deref s card)
                        && (Str.contains "Basic" (type_line (deref s card))
                            || existsb (λ x, Str.contains x (type_line (deref s card)))
                                       basic_type_names))
               (library s)).

(** [if "TAPPED_ENTRY" not in target_land.tags: target_land.tags.append("TAPPED_ENTRY")]:
    an update of the card object itself. *)
Definition force_tapped_entry (s : GameState) (target : ref) : GameState :=
  if has_tag "TAPPED_ENTRY" (deref s target) then s
  else set_objects s (<[target := set_tags (deref s target)
                                   (tags (deref s target) ++ ["TAPPED_ENTRY"])]> (objects s)).

Section GameEngine.
Context {Rng : Type}.
(** [random.seed(None)] and [random.shuffle(x)]. *)
Variable random_seed : Rng → Rng.
Variable random_shuffle : Rng → list ref → list ref * Rng.

(** [GameEngine._resolve_fetch_lands]. *)
Definition _resolve_fetch_lands (e : Engine Rng) (tapped_objects : gset ref)
  : result (bool * Engine Rng) :=
  let s := state e in
  let fetchers := filter (λ c, has_tag "FETCH_LAND" (deref s c)) (battlefield s) in
  match head (filter (fetcher_ready s tapped_objects) fetchers) with
  | None => Ok (false, e)
  | Some fetcher =>
      battlefield' ← remove_or_raise s fetcher (battlefield s);
      let s1 := set_battlefield s battlefield' in
      let s2 := set_graveyard s1 (graveyard s1 ++ [fetcher]) in
      match fetch_target s2 with
      | Some target_land =>
          library' ← remove_or_raise s2 target_land (library s2);
          let s3 := set_library s2 library' in
          let s4 := set_battlefield s3 (battlefield s3 ++ [target_land]) in
          let s5 := set_cards_played s4 (cards_played_this_turn s4 ++ [target_land]) in
          let s6 := force_tapped_entry s5 target_land in
          let '(shuffled, g) := random_shuffle (rng e) (library s6) in
          Ok (true, mkEngine (set_library s6 shuffled) g)
      | None => Ok (true, mkEngine s2 (rng e))
      end
  end.

(** One pass of the [while True] loop of [_main_phase_heuristic].  The flag
    is [true] when the loop goes round again and [false] on [break]. *)
Definition loop_pass (e : Engine Rng) (tapped_objects : gset ref)
  : result (bool * Engine Rng * gset ref) :=
  let '(s1, tapped1, mana_added_this_loop) :=
    tap_artifacts (tap_lands (state e) tapped_objects) in
  '(s2, spell_cast_this_loop) ← cast_step s1;
  let e2 := mkEngine s2 (rng e) in
  if negb mana_added_this_loop && negb spell_cast_this_loop then
    '(fetched, e3) ← _resolve_fetch_lands e2 tapped1;
    Ok (fetched, e3, tapped1)
  else Ok (true, e2, tapped1).

(** The [while True] loop, run for at most [fuel] passes.  The answer is the
    number of passes made and the state at [break]; [None] means that the
    passes allowed were used up before the loop broke. *)
Fixpoint main_loop (fuel : nat) (e : Engine Rng) (tapped_objects : gset ref)
  : result (option (nat * Engine Rng * gset ref)) :=
  match fuel with
  | O => Ok None
  | S fuel' =>
      '(again, e', tapped') ← loop_pass e tapped_objects;
      if again : bool then
        r ← main_loop fuel' e' tapped';
        match r with
        | Some (n, e'', t'') => Ok (Some (S n, e'', t''))
        | None => Ok None
        end
      else Ok (Some (1%nat, e', tapped'))
  end.

(** Step 1 of [_main_phase_heuristic]: the land drop. *)
Definition land_drop (s : GameState) : result GameState :=
  let lands_in_hand := filter (λ card, is_land (deref s card)) (hand s) in
  match lands_in_hand, land_played_this_turn s with
  | land :: _, None =>
      '(_, s') ← play_land s land;
      Ok s'
  | _, _ => Ok s
  end.

(** A number of passes that always suffices for the loop to break. *)
Definition pass_budget (s : GameState) (tapped_objects : gset ref) : nat :=
  3 * length (hand s) + 2 * length (library s)
  + sum_list_with (λ r, if bool_decide (r ∈ tapped_objects) then 1%nat else 2%nat)
                  (battlefield s).

(** [GameEngine._main_phase_heuristic]: the land drop, then the loop.  The
    loop is given [S (pass_budget s ∅)] passes, which [main_loop_breaks]
    shows to be enough for it to break: the answer is never [None]. *)
Definition _main_phase_heuristic (e : Engine Rng) : result (option (Engine Rng)) :=
  s ← land_drop (state e);
  r ← main_loop (S (pass_budget s ∅)) (mkEngine s (rng e)) ∅;
  match r with
  | Some (_, e', _) => Ok (Some e')
  | None => Ok None
  end.

(** The automatic choice of a commander: the first legendary creature of
    the deck. *)
Definition find_commander (s : GameState) (deck : list ref) : option ref :=
  head (filter (λ card, Str.contains "Legendary" (type_line (deref s card))
                        && Str.contains "Creature" (type_line (deref s card))) deck).

(** The commander of the game: the one given, else the one found. *)
Definition choose_commander (s : GameState) (deck : list ref) (commander : option ref)
  : option ref :=
  match commander with
  | Some c => Some c
  | None => find_commander s deck
  end.

(** [library = [c for c in deck if c != commander]]; without a commander
    the whole deck. *)
Definition deck_library (s : GameState) (deck : list ref) (commander : option ref)
  : list ref :=
  match commander with
  | Some c => filter (λ x, negb (card_eqb s x c)) deck
  | None => deck
  end.

(** The opening hand: seven draws. *)
Fixpoint draw_opening (n : nat) (s : GameState) : GameState :=
  match n with
  | O => s
  | S n' => draw_opening n' (draw_card s).2
  end.

(** [GameEngine.start_game]. *)
Definition start_game (e : Engine Rng) (deck : list ref) (commander : option ref)
  : Engine Rng :=
  let s := state e in
  let commander := choose_commander s deck commander in
  let s := set_library (set_commander s commander) (deck_library s deck commander) in
  let g := random_seed (rng e) in
  let '(l1, g) := random_shuffle g (library s) in
  let '(l2, g) := random_shuffle g l1 in
  let s := set_library s l2 in
  let s := draw_opening 7 s in
  mkEngine (set_turn_counter s 1) g.

(** [GameEngine.step]. *)
Definition step (e : Engine Rng) : result (option (Engine Rng)) :=
  let s := (draw_card (state e)).2 in
  r ← _main_phase_heuristic (mkEngine s (rng e));
  match r with
  | None => Ok None
  | Some e' =>
      let s := clear_mana_pool (state e') in
      let s := set_land_played s None in
      Ok (Some (mkEngine (set_turn_counter s (turn_counter s + 1)) (rng e')))
  end.

(** [GameEngine.run_turns]. *)
Fixpoint run_turns (n : nat) (e : Engine Rng) : result (option (Engine Rng)) :=
  match n with
  | O => Ok (Some e)
  | S n' =>
      r ← step e;
      match r with
      | None => Ok None
      | Some e' => run_turns n' e'
      end
  end.

End GameEngine.

(** ** Counters and summary ([engine.py]) *)

(** [[c for c in self.state.battlefield if c.is_land]]. *)
Definition battlefield_lands (s : GameState) : list ref :=
  filter (λ c, is_land (deref s c)) (battlefield s).

(** [GameEngine._mc_stats]. *)
Record McStats := mkStats {
  mana_turn_4 : Z;
  lands_turn_4 : Z;
  hand_empty_turn : option Z;
  final_lands : Z;
  final_turn : Z;
}.

(** The counters of a new engine. *)
Definition new_stats : McStats := mkStats 0 0 None 0 0.

(** The end of [GameEngine.step]: the update of [_mc_stats], made after the
    turn counter has been incremented. *)
Definition update_stats (s : GameState) (st : McStats) : McStats :=
  let st :=
    if (turn_counter s =? 5)%Z then
      let lands := Z.of_nat (length (battlefield_lands s)) in
      let rocks :=
        Z.of_nat (length (filter (λ c, has_tag "MANA_ROCK" (deref s c)) (battlefield s))) in
      mkStats (lands + rocks) lands (hand_empty_turn st) (final_lands st) (final_turn st)
    else st in
  match hand s, hand_empty_turn st with
  | [], None =>
      mkStats (mana_turn_4 st) (lands_turn_4 st) (Some (turn_counter s - 1))
              (final_lands st) (final_turn st)
  | _, _ => st
  end.

(** [GameEngine.get_summary]. *)
Record Summary := mkSummary {
  turn : Z;
  hand_size : Z;
  battlefield_size : Z;
  library_size : Z;
  lands_on_battlefield : Z;
  mana_available : Z;
}.

Definition get_summary (s : GameState) : Summary :=
  mkSummary (turn_counter s) (Z.of_nat (length (hand s)))
            (Z.of_nat (length (battlefield s))) (Z.of_nat (length (library s)))
            (Z.of_nat (length (battlefield_lands s))) (get_total_mana s).

Section Simulation.
Context {Rng : Type}.
Variable random_shuffle : Rng → list ref → list ref * Rng.

(** An engine with its counters. *)
Record Sim := mkSim {
  engine : Engine Rng;
  _mc_stats : McStats;
}.

(** [GameEngine.step], with the update of the counters. *)
Definition step_mc (x : Sim) : result (option Sim) :=
  r ← step random_shuffle (engine x);
  match r with
  | None => Ok None
  | Some e' => Ok (Some (mkSim e' (update_stats (state e') (_mc_stats x))))
  end.

(** [GameEngine.run_turns], with the counters. *)
Fixpoint run_turns_mc (n : nat) (x : Sim) : result (option Sim) :=
  match n with
  | O => Ok (Some x)
  | S n' =>
      r ← step_mc x;
      match r with
      | None => Ok None
      | Some x' => run_turns_mc n' x'
      end
  end.

(** [GameEngine.run_simulation]; the counters of the answer are the
    dictionary returned. *)
Definition run_simulation (turns : nat) (x : Sim) : result (option Sim) :=
  r ← run_turns_mc turns x;
  match r with
  | None => Ok None
  | Some x' =>
      let s := state (engine x') in
      let st := _mc_stats x' in
      Ok (Some (mkSim (engine x')
                  (mkStats (mana_turn_4 st) (lands_turn_4 st) (hand_empty_turn st)
                           (Z.of_nat (length (battlefield_lands s)))
                           (turn_counter s - 1))))
  end.

End Simulation.
Arguments Sim Rng : clear implicits.
Arguments mkSim {Rng} engine _mc_stats.
Arguments engine {Rng} s.
Arguments _mc_stats {Rng} s.

(** ** Loops that may raise *)

(** [for x in l: acc = body(acc, x)], where the body may raise: the first
    exception ends the loop and is the outcome. *)
Fixpoint for_each {A B : Type} (body : A → B → result A) (acc : A) (l : list B)
  : result A :=
  match l with
  | [] => Ok acc
  | x :: l' => acc' ← body acc x; for_each body acc' l'
  end.

(** ** More of Python's [str]

    As everywhere in this file a text is a string of ASCII characters; on
    such texts [str.strip], [str.isdigit], [str.lower] and the classes [\s]
    and [\d] are the functions below.  The properties of the parsers carry
    this as a hypothesis ([ascii_text]). *)

Module PyStr.

(** [s.lstrip()], [s.rstrip()] and [s.strip()]: the characters removed are
    those of [str.isspace], the same as the class [\s]. *)
Fixpoint lstrip (s : string) : string :=
  match s with
  | String c s' => if Re.is_space c then lstrip s' else s
  | EmptyString => EmptyString
  end.

Fixpoint rstrip (s : string) : string :=
  match s with
  | EmptyString => EmptyString
  | String c s' =>
      match rstrip s' with
      | EmptyString => if Re.is_space c then EmptyString else String c EmptyString
      | r => String c r
      end
  end.

Definition strip (s : string) : string := rstrip (lstrip s).

(** [s.isdigit()]. *)
Definition isdigit (s : string) : bool :=
  negb (String.eqb s "") && forallb Re.is_digit (list_ascii_of_string s).

(** The value of a string of digits, after [acc]. *)
Fixpoint int_from (acc : Z) (s : string) : Z :=
  match s with
  | EmptyString => acc
  | String c s' => int_from (10 * acc + Z.of_nat (nat_of_ascii c - 48)) s'
  end.

(** [sys.int_info.default_max_str_digits]: the longest decimal string that
    CPython's [int] converts (leading zeros count). *)
Definition int_max_str_digits : nat := 4300.

(** [int(s)] for a non-empty string of digits: the value, or [ValueError]
    when the string is longer than the limit. *)
Definition int (s : string) : result Z :=
  if (int_max_str_digits <? String.length s)%nat then
    Raised ("ValueError: Exceeds the limit (4300 digits) for integer string conversion: value has "
            +:+ pretty (String.length s)
            +:+ " digits; use sys.set_int_max_str_digits() to increase the limit")
  else Ok (int_from 0 s).

(** [s.split(sep)[0]] for a one-character separator: the text before the
    first occurrence of [sep], or all of [s] when there is none. *)
Fixpoint before_first (sep : ascii) (s : string) : string :=
  match s with
  | EmptyString => EmptyString
  | String c s' => if Ascii.eqb c sep then EmptyString else String c (before_first sep s')
  end.

(** [s.replace(old, new)] for a non-empty [old]: the occurrences of [old]
    are replaced from left to right, without overlap. *)
Fixpoint replace_go (old new : string) (skip : nat) (s : string) : string :=
  match s with
  | EmptyString => EmptyString
  | String c s' =>
      match skip with
      | S k => replace_go old new k s'
      | O =>
          if String.prefix old s
          then new +:+ replace_go old new (String.length old - 1) s'
          else String c (replace_go old new 0 s')
      end
  end.

Definition replace (old new s : string) : string := replace_go old new 0 s.

End PyStr.

(** ** Regular expressions with character classes and anchors (the fragment
    of Python's [re] used by [scryfall.py])

    [Many f] is a greedy [[...]*] over the class [f]; [Bos] and [Eos] are [^]
    and [$] (without [re.MULTILINE]: [$] also matches before a newline that
    ends the text).  The matcher knows the whole subject text, so that [^]
    can tell the start. *)

Module Rx.

Inductive rx : Type :=
| Eps
| Cls (f : ascii → bool)
| Bos
| Eos
| Seq (r1 r2 : rx)
| Alt (r1 r2 : rx)
| Many (f : ascii → bool)
| Group (i : nat) (r : rx).

Definition Chr (c : ascii) : rx := Cls (Ascii.eqb c).
Definition NotChr (c : ascii) : rx := Cls (λ x, negb (Ascii.eqb x c)).
Definition not_chr (c : ascii) : ascii → bool := λ x, negb (Ascii.eqb x c).
Definition not_newline : ascii → bool := λ x, negb (Re.is_newline x).

(** [[f]+] and [r?]. *)
Definition Some1 (f : ascii → bool) : rx := Seq (Cls f) (Many f).
Definition Opt (r : rx) : rx := Alt r Eps.

Fixpoint Cat (l : list rx) : rx :=
  match l with
  | [] => Eps
  | [r] => r
  | r :: l' => Seq r (Cat l')
  end.

Definition at_end (s : string) : bool :=
  match s with
  | EmptyString => true
  | String c EmptyString => Re.is_newline c
  | _ => false
  end.

Section run.
Context {A : Type}.
Variable whole : string.

Fixpoint run (r : rx) (s : string) (caps : gmap nat string)
    (k : string → gmap nat string → option A) {struct r} : option A :=
  match r with
  | Eps => k s caps
  | Cls f =>
      match s with
      | String x s' => if f x then k s' caps else None
      | EmptyString => None
      end
  | Bos => if (String.length s =? String.length whole)%nat then k s caps else None
  | Eos => if at_end s then k s caps else None
  | Seq r1 r2 => run r1 s caps (λ s' caps', run r2 s' caps' k)
  | Alt r1 r2 =>
      match run r1 s caps k with
      | Some a => Some a
      | None => run r2 s caps k
      end
  | Many f =>
      (fix many (s : string) : option A :=
         match s with
         | String x s' =>
             if f x then
               match many s' with
               | Some a => Some a
               | None => k s caps
               end
             else k s caps
         | EmptyString => k s caps
         end) s
  | Group i r1 =>
      run r1 s caps (λ s' caps', k s' (<[i := Re.consumed s s']> caps'))
  end.

End run.

(** [re.match(r, s)]: the rest of the text and the groups. *)
Definition match_ (r : rx) (s : string) : option (string * gmap nat string) :=
  run s r s ∅ (λ rest caps, Some (rest, caps)).

(** [re.sub(r, "", s)]: the matches are deleted from left to right; an
    empty match deletes nothing. *)
Fixpoint sub_go (fuel : nat) (r : rx) (whole s : string) : string :=
  match fuel with
  | O => s
  | S fuel' =>
      let copy :=
        match s with
        | EmptyString => EmptyString
        | String c s' => String c (sub_go fuel' r whole s')
        end in
      match run whole r s ∅ (λ rest _, Some rest) with
      | Some rest =>
          if (String.length rest <? String.length s)%nat
          then sub_go fuel' r whole rest
          else copy
      | None => copy
      end
  end.

Definition sub (r : rx) (s : string) : string := sub_go (S (String.length s)) r s s.

(** [re.findall(r, s)] for a pattern with one group: the texts of group 1
    of the successive matches. *)
Fixpoint findall_go (fuel : nat) (r : rx) (whole s : string) : list string :=
  match fuel with
  | O => []
  | S fuel' =>
      let next :=
        match s with
        | EmptyString => []
        | String _ s' => findall_go fuel' r whole s'
        end in
      match run whole r s ∅ (λ rest caps, Some (rest, caps)) with
      | Some (rest, caps) =>
          Re.group caps 1
          :: (if (String.length rest <? String.length s)%nat
              then findall_go fuel' r whole rest
              else next)
      | None => next
      end
  end.

Definition findall (r : rx) (s : string) : list string :=
  findall_go (S (String.length s)) r s s.

End Rx.

(** ** The card loader ([scryfall.py]) *)

Import Rx.

(** [\{([^}]+)\}] *)
Definition re_mana_symbol : rx :=
  Cat [Chr "{"; Group 1 (Some1 (not_chr "}")); Chr "}"].

(** The body of the loop of [parse_mana_cost]. *)
Definition add_symbol (mana_dict : gmap string Z) (symbol : string)
  : result (gmap string Z) :=
  if PyStr.isdigit symbol then
    colorless ← PyStr.int symbol;
    Ok (<["colorless" := dict_get0 mana_dict "colorless" + colorless]> mana_dict)
  else if Str.contains "/" symbol then
    let color := PyStr.before_first "/" symbol in
    Ok (<[color := dict_get0 mana_dict color + 1]> mana_dict)
  else if Str.contains "/P" symbol then
    let color := PyStr.before_first "/" symbol in
    Ok (<[color := dict_get0 mana_dict color + 1]> mana_dict)
  else if bool_decide (symbol ∈ ["X"; "Y"; "Z"]) then
    Ok (<["X" := dict_get0 mana_dict "X" + 1]> mana_dict)
  else
    Ok (<[symbol := dict_get0 mana_dict symbol + 1]> mana_dict).

(** [parse_mana_cost]. *)
Definition parse_mana_cost (mana_cost_str : string) : result (gmap string Z) :=
  if String.eqb mana_cost_str "" then Ok ∅
  else
    let symbols := findall re_mana_symbol mana_cost_str in
    for_each add_symbol ∅ symbols.

(** [^\d+x?\s+] *)
Definition re_quantity_prefix : rx :=
  Cat [Bos; Some1 Re.is_digit; Opt (Chr "x"); Some1 Re.is_space].

(** [\s*\([^)]+\)\s*$] *)
Definition re_set_code : rx :=
  Cat [Many Re.is_space; Chr "("; Some1 (not_chr ")"); Chr ")"; Many Re.is_space; Eos].

(** [parse_card_name]. *)
Definition parse_card_name (line : string) : option string :=
  let line := PyStr.strip line in
  if String.eqb line "" then None
  else
    let line := sub re_quantity_prefix line in
    let line := sub re_set_code line in
    if String.eqb (PyStr.strip line) "" then None else Some (PyStr.strip line).

(** [^(\d+)x?\s+(.+)$] *)
Definition re_entry : rx :=
  Cat [Bos; Group 1 (Some1 Re.is_digit); Opt (Chr "x"); Some1 Re.is_space;
       Group 2 (Some1 not_newline); Eos].

(** The body of the loop of [parse_decklist]. *)
Definition parse_line (acc : list (string * Z) * option string) (line : string)
  : result (list (string * Z) * option string) :=
  let '(cards, commander) := acc in
  let line := PyStr.strip line in
  if Str.startswith "# Commander:" line then
    Ok (cards, Some (PyStr.strip (PyStr.replace "# Commander:" "" line)))
  else if String.eqb line "" || Str.startswith "#" line then Ok acc
  else
    '(quantity, card_name) ←
      match match_ re_entry line with
      | Some (_, m) =>
          quantity ← PyStr.int (Re.group m 1);
          Ok (quantity, Re.group m 2)
      | None => Ok (1, line)
      end;
    let card_name := PyStr.strip (sub re_set_code card_name) in
    if String.eqb card_name "" then Ok acc
    else Ok (cards ++ [(card_name, quantity)], commander).

(** [parse_decklist]. *)
Definition parse_decklist (lines : list string)
  : result (list (string * Z) * option string) :=
  for_each parse_line ([], None) lines.

(** ** Decks ([models.py]) *)

Module Deck.

Record Deck := mkDeck {
  commander : Card;
  cards : list Card;
}.

(** [Deck.validate_deck_size], the validator of the field [cards]. *)
Definition validate_deck_size (v : list Card) : result (list Card) :=
  if negb (length v =? 99)%nat then
    Raised ("ValueError: Deck must have exactly 99 cards, got " +:+ pretty (length v))
  else Ok v.

(** [Deck.all_cards]. *)
Definition all_cards (d : Deck) : list Card := commander d :: cards d.

(** [Deck.land_count]. *)
Definition land_count (d : Deck) : Z :=
  foldl (λ acc card, if is_land card then acc + 1 else acc) 0 (all_cards d).

(** [Deck.get_tag_distribution]. *)
Definition get_tag_distribution (d : Deck) : gmap string Z :=
  foldl (λ tag_counts card,
           foldl (λ tag_counts tag, <[tag := dict_get0 tag_counts tag + 1]> tag_counts)
                 tag_counts (tags card))
        ∅ (all_cards d).

End Deck.

(** * Vocabulary of the properties *)

(** ** Zones *)

(** What [zone.remove(card)] does when it succeeds: it splits the zone at
    the first element equal to [card]. *)
Definition removes_first (s : GameState) (card : ref) (zone zone' : list ref) : Prop :=
  ∃ l1 x l2,
    zone = l1 ++ x :: l2 ∧ zone' = l1 ++ l2 ∧
    deref s x = deref s card ∧ Forall (λ y, deref s y ≠ deref s card) l1.

(** Cards are compared up to their tag list, the one field of a card object
    that the engine mutates (a fetched land is force-tagged TAPPED_ENTRY). *)
Definition card_key (c : Card) : Card := set_tags c [].

(** The cards a zone refers to. *)
Definition cards_in (s : GameState) (zone : list ref) : list Card :=
  map (λ r, card_key (deref s r)) zone.

(** The cards of the four zones, with multiplicity. *)
Definition zone_cards (s : GameState) : list Card :=
  cards_in s (library s) ++ cards_in s (hand s)
  ++ cards_in s (battlefield s) ++ cards_in s (graveyard s).

(** The card objects of the four zones, in zone order. *)
Definition zone_refs (s : GameState) : list ref :=
  library s ++ hand s ++ battlefield s ++ graveyard s.

(** No card object of the four zones carries the FETCH_LAND tag; this is so
    in every game on a deck tagged by the classifier. *)
Definition no_fetch_tags (s : GameState) : Prop :=
  Forall (λ r, has_tag "FETCH_LAND" (deref s r) = false) (zone_refs s).

(** The combined size of the four zones. *)
Definition zone_size (s : GameState) : nat :=
  (length (library s) + length (hand s) + length (battlefield s) + length (graveyard s))%nat.

(** ** Casting *)

(** Where a cast card goes: [true] for the graveyard. *)
Definition instant_or_sorcery (c : Card) : bool :=
  Str.contains "Instant" (type_line c) || Str.contains "Sorcery" (type_line c).

(** The state after a successful [cast_spell]. *)
Definition after_cast (s : GameState) (card : ref) (cost : gmap string Z)
    (hand' : list ref) : GameState :=
  if instant_or_sorcery (deref s card) then
    mkState (objects s) (library s) hand' (battlefield s) (graveyard s ++ [card])
            (pay (mana_pool s) cost) (turn_counter s) (land_played_this_turn s)
            (cards_played_this_turn s) (commander s)
  else
    mkState (objects s) (library s) hand' (battlefield s ++ [card]) (graveyard s)
            (pay (mana_pool s) cost) (turn_counter s) (land_played_this_turn s)
            (cards_played_this_turn s ++ [card]) (commander s).

(** A hand card the cast step may pick: not a land, and affordable with the
    current pool. *)
Definition castable (s : GameState) (c : ref) : bool :=
  negb (is_land (deref s c)) && can_afford s (mana_cost (deref s c)).

(** [x] is the first element of [l] among those with the largest key. *)
Definition first_max {A : Type} (key : A → Z) (l : list A) (x : A) : Prop :=
  ∃ l1 l2, l = l1 ++ x :: l2
           ∧ Forall (λ y, key y < key x) l1 ∧ Forall (λ y, key y ≤ key x) l2.

(** ** Sequences of zone-state operations *)

(** The operations of [GameState] that the engine uses. *)
Inductive op : Type :=
| DrawCard
| PlayLand (card : ref)
| CastSpell (card : ref) (cost : gmap string Z)
| AddMana (mana : gmap string Z)
| ClearManaPool.

Definition run_op (o : op) (s : GameState) : result GameState :=
  match o with
  | DrawCard => Ok (draw_card s).2
  | PlayLand card => '(_, s') ← play_land s card; Ok s'
  | CastSpell card cost => '(_, s') ← cast_spell s card cost; Ok s'
  | AddMana mana => Ok (add_mana s mana)
  | ClearManaPool => Ok (clear_mana_pool s)
  end.

(** The states reached after each operation of a sequence; an exception
    ends the sequence. *)
Fixpoint run_ops (ops : list op) (s : GameState) : list GameState :=
  match ops with
  | [] => []
  | o :: ops' =>
      match run_op o s with
      | Ok s' => s' :: run_ops ops' s'
      | Raised _ => []
      end
  end.

(** The amounts an operation adds to the pool are counts. *)
Definition adds_counts (o : op) : Prop :=
  match o with
  | AddMana mana => map_Forall (λ _ v, 0 ≤ v) mana
  | _ => True
  end.

(** ** Tags *)

(** The tags the classifier can produce. *)
Definition known (x : string) : Prop :=
  x ∈ Tags.CardTag ∨ x = "COND_FASTLAND" ∨ Str.startswith "COND_COUNT_3_" x = true.

Definition all_known (tags : gset string) : Prop := ∀ x, x ∈ tags → known x.

(** The tags of the count rule, one for each basic land type. *)
Definition count_tags : list string :=
  ["COND_COUNT_3_MOUNTAIN"; "COND_COUNT_3_ISLAND"; "COND_COUNT_3_PLAIN";
   "COND_COUNT_3_SWAMP"; "COND_COUNT_3_FOREST"].

(** The tags gathered before the land-specific pass. *)
Definition before_land_pass (n t o : string) : gset string :=
  Tags.text_tags o (Tags.type_tags t (Tags.static_tags n ∅)).

(** ** The main-phase loop *)

(** What a sweep may do to the state [s], the tapped set [t] and the flag
    [b]: only the pool changes, the tapped set grows, a raised flag comes
    with a battlefield object that was not tapped before, and an unraised
    flag means that nothing happened. *)
Record sweep (s : GameState) (t : gset ref) (b : bool)
    (s' : GameState) (t' : gset ref) (b' : bool) : Prop := mkSweep {
  sweep_state : s' = set_mana_pool s (mana_pool s');
  sweep_mono : t ⊆ t';
  sweep_raised : b' = true → b = true ∨ ∃ r, r ∈ battlefield s ∧ (r ∉ t) ∧ r ∈ t';
  sweep_quiet : b' = false → b = false ∧ s' = s ∧ t' = t;
}.

(** The measure of the loop: a hand card counts 3 (it can be cast, then
    tapped, then sacrificed), a library card and an untapped battlefield
    object 2, a tapped battlefield object 1. *)
Definition rank (t : gset ref) (r : ref) : nat :=
  if bool_decide (r ∈ t) then 1%nat else 2%nat.

Definition bf_rank (t : gset ref) (l : list ref) : nat := sum_list_with (rank t) l.

(** What a pass that goes round again has achieved. *)
Definition tapped_a_source (s : GameState) (t t' : gset ref) : Prop :=
  ∃ r, r ∈ battlefield s ∧ (r ∉ t) ∧ r ∈ t'.

Definition cast_a_card (s s' : GameState) : Prop :=
  ∃ l1 spell l2, hand s = l1 ++ spell :: l2 ∧ hand s' = l1 ++ l2.

Definition consumed_a_fetcher (s s' : GameState) : Prop :=
  ∃ fetcher,
    fetcher ∈ battlefield s ∧ has_tag "FETCH_LAND" (deref s fetcher) = true
    ∧ graveyard s' = graveyard s ++ [fetcher].

(** ** Fetch resolution *)

(** The fetcher that a call of [_resolve_fetch_lands] cracks, if any. *)
Definition ready_fetcher (s : GameState) (tapped_objects : gset ref) : option ref :=
  head (filter (fetcher_ready s tapped_objects)
               (filter (λ c, has_tag "FETCH_LAND" (deref s c)) (battlefield s))).

(** The state after the sacrifice of [fetcher]. *)
Definition after_sacrifice (s : GameState) (fetcher : ref) (battlefield' : list ref)
  : GameState :=
  set_graveyard (set_battlefield s battlefield') (graveyard s ++ [fetcher]).

(** The state after the fetched land has been put onto the battlefield,
    before the library is shuffled. *)
Definition after_fetch (s : GameState) (fetcher : ref) (battlefield' : list ref)
    (target : ref) (library' : list ref) : GameState :=
  let s2 := after_sacrifice s fetcher battlefield' in
  let s3 := set_library s2 library' in
  let s4 := set_battlefield s3 (battlefield s3 ++ [target]) in
  let s5 := set_cards_played s4 (cards_played_this_turn s4 ++ [target]) in
  force_tapped_entry s5 target.

(** ** Turns and sweeps *)

(** What the main phase leaves alone: the turn counter, the land of the
    turn and the commander; the entered-this-turn list only grows. *)
Definition same_turn (s s' : GameState) : Prop :=
  turn_counter s' = turn_counter s
  ∧ land_played_this_turn s' = land_played_this_turn s
  ∧ commander s' = commander s
  ∧ ∃ l, cards_played_this_turn s' = cards_played_this_turn s ++ l.




(** The state of a sweep relative to its start: the pool total has grown by
    the number of objects newly recorded as tapped, and only the
    colourless entry of the pool has changed. *)
Definition one_each (s : GameState) (t : gset ref) (s' : GameState) (t' : gset ref) : Prop :=
  s' = set_mana_pool s (mana_pool s')
  ∧ t ⊆ t'
  ∧ get_total_mana s' - get_total_mana s = Z.of_nat (size t') - Z.of_nat (size t)
  ∧ (∀ color, color ≠ "colorless" → mana_pool s' !! color = mana_pool s !! color)
  ∧ (∀ r, r ∈ t' → r ∈ t ∨ r ∈ battlefield s).

(** What holds of the counters of a game that began at turn [1] with new
    counters, when the turn counter reads [tc]. *)
Definition counters_ok (s : GameState) (st : McStats) : Prop :=
  1 ≤ turn_counter s
  ∧ 0 ≤ lands_turn_4 st ≤ mana_turn_4 st
  ∧ (turn_counter s < 5 → mana_turn_4 st = 0 ∧ lands_turn_4 st = 0)
  ∧ (∀ t, hand_empty_turn st = Some t → 1 ≤ t < turn_counter s)
  ∧ (hand_empty_turn st = None → 1 < turn_counter s → hand s ≠ []).

(** ** Type words and conditional tags *)

(** The type words that [assign_tags] looks for in the type line, each with
    its tag. *)
Definition type_words : list (string * string) :=
  [("Land", Tags.LAND); ("Artifact", Tags.ARTIFACT); ("Creature", Tags.CREATURE);
   ("Enchantment", Tags.ENCHANTMENT); ("Instant", Tags.INSTANT);
   ("Sorcery", Tags.SORCERY); ("Planeswalker", Tags.PLANESWALKER)].

(** The tags that the static table lists for a card name. *)
Definition static_entry (card_name : string) : list string :=
  default [] (Tags.STATIC_CARD_TAGS !! card_name).

(** A tag of the exception pass for lands. *)
Definition conditional (x : string) : Prop :=
  x = "COND_FASTLAND" ∨ Str.startswith "COND_COUNT_3_" x = true.

(** Two continuations that succeed on the same texts, up to letter case. *)
Definition same_case (k k' : string → gmap nat string → option (gmap nat string)) : Prop :=
  ∀ u c c', is_Some (k u c) ↔ is_Some (k' (Str.lower u) c').

(** ** Texts, costs and decklist lines *)

(** The longest prefix of [s] in the class [f], and what follows it. *)
Fixpoint take_while (f : ascii → bool) (s : string) : string :=
  match s with
  | String c s' => if f c then String c (take_while f s') else EmptyString
  | EmptyString => EmptyString
  end.

Fixpoint drop_while (f : ascii → bool) (s : string) : string :=
  match s with
  | String c s' => if f c then drop_while f s' else s
  | EmptyString => EmptyString
  end.

(** Every character of [s] is in the class [f]. *)
Fixpoint all_chars (f : ascii → bool) (s : string) : bool :=
  match s with
  | String c s' => f c && all_chars f s'
  | EmptyString => true
  end.

Definition first_char (s : string) : option ascii :=
  match s with
  | String c _ => Some c
  | EmptyString => None
  end.

Fixpoint last_char (s : string) : option ascii :=
  match s with
  | EmptyString => None
  | String c EmptyString => Some c
  | String _ s' => last_char s'
  end.

(** [s] neither starts nor ends with a whitespace character. *)
Definition trimmed (s : string) : bool :=
  match first_char s, last_char s with
  | Some a, Some b => negb (Re.is_space a) && negb (Re.is_space b)
  | _, _ => true
  end.

(** A text of ASCII characters, the texts on which the string functions of
    this file are Python's. *)
Definition ascii_char (c : ascii) : bool := (nat_of_ascii c <? 128)%nat.

Definition ascii_text (s : string) : bool := all_chars ascii_char s.

(** The value of a mana symbol in the total of a parsed cost. *)
Definition symbol_weight (symbol : string) : Z :=
  if PyStr.isdigit symbol then PyStr.int_from 0 symbol else 1.

(** A symbol of digits that is too long for [int]. *)
Definition long_number (symbol : string) : bool :=
  PyStr.isdigit symbol && (PyStr.int_max_str_digits <? String.length symbol)%nat.

(** The total of the symbols of a cost. *)
Definition sum_weights (symbols : list string) : Z :=
  foldr (λ x acc, symbol_weight x + acc) 0 symbols.

(** A cost string written from a list of symbols. *)
Fixpoint write_cost (symbols : list string) : string :=
  match symbols with
  | [] => EmptyString
  | x :: l => "{" +:+ x +:+ "}" +:+ write_cost l
  end.

(** The text of a line after a quantity [\d+x?\s+], if the line starts
    with one. *)
Definition skip_x (s : string) : string :=
  match s with
  | String c s' => if Ascii.eqb "x" c then s' else s
  | EmptyString => EmptyString
  end.

Definition quantity_rest (s : string) : option string :=
  if String.eqb (take_while Re.is_digit s) "" then None
  else
    let r := skip_x (drop_while Re.is_digit s) in
    if String.eqb (take_while Re.is_space r) "" then None
    else Some (drop_while Re.is_space r).

(** The quantity that [parse_decklist] reads off a line. *)
Definition quantity_of (line : string) : result Z :=
  match quantity_rest line with
  | Some _ => PyStr.int (take_while Re.is_digit line)
  | None => Ok 1
  end.

(** A line that starts with more digits than [int] converts. *)
Definition long_quantity (line : string) : bool :=
  (PyStr.int_max_str_digits <? String.length (take_while Re.is_digit (PyStr.strip line)))%nat.

(** [s] is a set code in parentheses, with optional whitespace around it:
    a match of [\s*\([^)]+\)\s*$] at the start of [s]. *)
Definition set_code_at (s : string) : bool :=
  match drop_while Re.is_space s with
  | String c v =>
      Ascii.eqb "(" c
      && negb (String.eqb (take_while (not_chr ")") v) "")
      && match drop_while (not_chr ")") v with
         | String c' w => Ascii.eqb ")" c' && all_chars Re.is_space w
         | EmptyString => false
         end
  | EmptyString => false
  end.

(** [s] up to the first position at which a set code ends the text. *)
Fixpoint cut_set_code (s : string) : string :=
  if set_code_at s then EmptyString
  else match s with
       | String c s' => String c (cut_set_code s')
       | EmptyString => EmptyString
       end.

(** The parts of a written decklist line: a quantity [digits], an optional
    [x], whitespace, a card name and a set code in parentheses. *)
Definition digits (d : string) : bool :=
  negb (String.eqb d "") && all_chars Re.is_digit d.

Definition blanks (w : string) : bool :=
  negb (String.eqb w "") && all_chars Re.is_space w.

Definition plain_name (name : string) : bool :=
  negb (String.eqb name "") && trimmed name && all_chars (not_chr "(") name.

Definition code_text (code : string) : bool :=
  negb (String.eqb code "") && all_chars (not_chr ")") code.

Definition write_quantity (d : string) (x : bool) (w : string) : string :=
  d +:+ (if x then "x" else "") +:+ w.

Definition write_set_code (w code : string) : string :=
  w +:+ "(" +:+ code +:+ ")".

(** A clean name: an ASCII text that is neither empty nor padded with
    whitespace.  An entry of a parsed decklist is clean when its name is and
    its quantity is not negative. *)
Definition clean_name (name : string) : Prop :=
  name ≠ "" ∧ ascii_text name = true ∧ trimmed name = true.

Definition clean_entry (e : string * Z) : Prop := clean_name e.1 ∧ 0 ≤ e.2.

(** The group numbers of a pattern. *)
Fixpoint groups (r : rx) : list nat :=
  match r with
  | Seq r1 r2 | Alt r1 r2 => groups r1 ++ groups r2
  | Group i r1 => i :: groups r1
  | _ => []
  end.

(** [v] is a piece of [s]: a run of consecutive characters of it. *)
Definition piece (v s : string) : Prop := ∃ a b, s = a +:+ v +:+ b.

(** [s'] is an end of [s]. *)
Definition end_of (s' s : string) : Prop := ∃ a, s = a +:+ s'.

(** A continuation that cannot start with a character of the class. *)
Definition rejects {A : Type} (f : ascii → bool)
    (k : string → gmap nat string → option A) : Prop :=
  ∀ c u caps, f c = true → k (String c u) caps = None.

(** All values are counts, and every colour has been counted at least once. *)
Definition counts (d : gmap string Z) : Prop :=
  map_Forall (λ k v, 0 ≤ v ∧ (k ≠ "colorless" → 1 ≤ v)) d.

(** ** Decks *)

(** The number of times [tag] is listed on the cards of [l]. *)
Definition tag_occurrences (tag : string) (l : list Card) : nat :=
  foldr (λ card n, (count_occ string_dec (tags card) tag + n)%nat) 0%nat l.

(** The cards of [l] that carry [tag]. *)
Definition cards_with_tag (tag : string) (l : list Card) : list Card :=
  filter (λ card, has_tag tag card = true) l.

(** One step of the count of [get_tag_distribution]. *)
Definition bump (tag_counts : gmap string Z) (tag : string) : gmap string Z :=
  <[tag := dict_get0 tag_counts tag + 1]> tag_counts.

(** Every count of a dictionary is at least one. *)
Definition positive (m : gmap string Z) : Prop := map_Forall (λ _ v, 1 ≤ v) m.

(** * Example cards and states *)

Definition newline : string := String (ascii_of_nat 10) EmptyString.

Definition seachrome_coast_text : string :=
  "This land enters tapped unless you control two or fewer other lands."
  +:+ newline +:+ "{T}: Add {W} or {U}.".

(** A text with the fastland phrasing and, further on, the pay wording. *)
Definition fastland_with_payment : string :=
  "This land enters tapped unless you control two or fewer other lands unless you pay 2 life.".

Definition evolving_wilds_text : string :=
  "{T}, Sacrifice this land: Search your library for a basic land card, put it onto the battlefield tapped, then shuffle.".

Definition evolving_wilds : Card :=
  mkCard "Evolving Wilds" ∅ 0 "Land" evolving_wilds_text
         (Tags.assign_tags "Evolving Wilds" "Land" evolving_wilds_text) "wilds" [].

Definition forest : Card :=
  mkCard "Forest" ∅ 0 "Basic Land - Forest" "({T}: Add {G}.)"
         (Tags.assign_tags "Forest" "Basic Land - Forest" "({T}: Add {G}.)") "forest" [].

Definition island : Card :=
  mkCard "Island" ∅ 0 "Basic Land - Island" "({T}: Add {U}.)"
         (Tags.assign_tags "Island" "Basic Land - Island" "({T}: Add {U}.)") "island" [].

Definition mana_crypt_text : string :=
  "At the beginning of your upkeep, flip a coin. If you lose the flip, Mana Crypt deals 3 damage to you."
  +:+ newline +:+ "{T}: Add {C}{C}.".

Definition mana_crypt : Card :=
  mkCard "Mana Crypt" {[ "colorless" := 0 ]} 0 "Artifact" mana_crypt_text
         (Tags.assign_tags "Mana Crypt" "Artifact" mana_crypt_text) "crypt" [].

Definition sol_ring : Card :=
  mkCard "Sol Ring" {[ "colorless" := 1 ]} 1 "Artifact" "{T}: Add {C}{C}."
         (Tags.assign_tags "Sol Ring" "Artifact" "{T}: Add {C}{C}.") "ring" [].

Definition grizzly_bears : Card :=
  mkCard "Grizzly Bears" {[ "colorless" := 1; "G" := 1 ]} 2 "Creature - Bear" ""
         (Tags.assign_tags "Grizzly Bears" "Creature - Bear" "") "bears" [].

(** An adventure card: its type line names a permanent type and Instant. *)
Definition bonecrusher_giant : Card :=
  mkCard "Bonecrusher Giant // Stomp" {[ "colorless" := 2; "R" := 1 ]} 3
         "Creature - Giant // Instant - Adventure" "" ["CREATURE"; "INSTANT"] "giant" [].

(** A fetch-land as the engine expects it: tagged FETCH_LAND by hand. *)
Definition tagged_wilds : Card :=
  mkCard "Evolving Wilds" ∅ 0 "Land" evolving_wilds_text ["LAND"; "RAMP"; "FETCH_LAND"]
         "wilds" [].

Definition bears_cost : gmap string Z := {[ "colorless" := 1; "G" := 1 ]}.

(** A generator for examples: [shuffle] reverses the list and counts its calls. *)
Definition reversing_shuffle (g : nat) (l : list ref) : list ref * nat := (reverse l, S g).

Definition wilds_on_battlefield : Engine nat :=
  mkEngine (mkState {[ 0%nat := evolving_wilds; 1%nat := forest ]}
                    [1%nat] [] [0%nat] [] ∅ 1 None [] None) 0%nat.

(** Main phase of a turn with Mana Crypt as the only card in hand and an
    empty battlefield. *)
Definition crypt_in_hand : Engine nat :=
  mkEngine (mkState {[ 0%nat := mana_crypt ]} [] [0%nat] [] [] ∅ 1 None [] None) 0%nat.

Definition small_deck_objects : gmap ref Card :=
  {[ 0%nat := forest; 1%nat := forest; 2%nat := mana_crypt; 3%nat := grizzly_bears;
     4%nat := forest; 5%nat := evolving_wilds; 6%nat := grizzly_bears;
     7%nat := forest; 8%nat := grizzly_bears ]}.

Definition small_deck : list ref := seq 0 9.

(** Battlefield: the Wilds; library: two Grizzly Bears over a Mana Crypt, no
    land. *)
Definition wilds_without_basics : Engine nat :=
  mkEngine (mkState {[ 0%nat := tagged_wilds; 1%nat := grizzly_bears;
                       2%nat := mana_crypt; 3%nat := grizzly_bears ]}
                    [1%nat; 2%nat; 3%nat] [] [0%nat] [] ∅ 1 None [] None) 0%nat.

(** Battlefield: the Wilds; library: Bears, Forest, Island. *)
Definition wilds_with_basics : Engine nat :=
  mkEngine (mkState {[ 0%nat := tagged_wilds; 1%nat := grizzly_bears;
                       2%nat := forest; 3%nat := island ]}
                    [1%nat; 2%nat; 3%nat] [] [0%nat] [] ∅ 1 None [] None) 0%nat.

(** Grizzly Bears in hand, three colourless mana in the pool. *)
Definition bears_in_hand : GameState :=
  mkState {[ 0%nat := grizzly_bears ]} [] [0%nat] [] [] {[ "colorless" := 3 ]} 1 None [] None.

(** Grizzly Bears in the library, an empty hand and an empty pool. *)
Definition empty_handed : GameState :=
  mkState {[ 0%nat := grizzly_bears ]} [0%nat] [] [] [] ∅ 1 None [] None.









(** A land without tags, as [Card] builds it when no tags are given. *)
Definition untagged_land : Card := mkCard "Wastes" ∅ 0 "Basic Land" "" [] "wastes" [].

(** An artifact tagged LAND by hand. *)
Definition tagged_relic : Card := mkCard "Relic" ∅ 0 "Artifact" "" ["LAND"] "relic" [].

Definition untagged_land_in_hand : GameState :=
  mkState {[ 0%nat := untagged_land ]} [] [0%nat] [] [] ∅ 1 None [] None.

Definition tagged_relic_in_hand : GameState :=
  mkState {[ 0%nat := tagged_relic ]} [] [0%nat] [] [] ∅ 1 None [] None.

(** Two equal Forests: object [0] in hand, object [1] in the library. *)
Definition forest_and_copy : GameState :=
  mkState {[ 0%nat := forest; 1%nat := forest ]} [1%nat] [0%nat] [] [] ∅ 1 None [] None.

Definition seachrome_coast : Card :=
  mkCard "Seachrome Coast" ∅ 0 "Land" seachrome_coast_text
         (Tags.assign_tags "Seachrome Coast" "Land" seachrome_coast_text) "coast" [].




(** Seachrome Coast, just played onto a battlefield with two Forests and an
    Island. *)
Definition coast_played : GameState :=
  mkState {[ 0%nat := seachrome_coast; 1%nat := forest; 2%nat := forest; 3%nat := island ]}
          [] [] [1%nat; 2%nat; 3%nat; 0%nat] [] ∅ 4 (Some 0%nat) [0%nat] None.


(** The game of [small_deck], dealt. *)
Definition small_game : Engine nat :=
  start_game (λ g, g) reversing_shuffle
             (mkEngine (init_state small_deck_objects) 0%nat) small_deck None.

(** * Properties *)

(** ** Mana dictionaries *)

Section dict_facts.
Implicit Types (m pool cost : gmap string Z) (k : string) (v : Z).

Lemma dict_sum_empty : dict_sum ∅ = 0.
Proof. apply map_fold_empty. Qed.

Lemma dict_sum_insert_fresh m k v :
  m !! k = None → dict_sum (<[k:=v]> m) = v + dict_sum m.
Proof.
  intros Hk. unfold dict_sum.
  rewrite map_fold_insert_L; [done | intros; lia | done].
Qed.

Lemma dict_sum_insert m k v :
  dict_sum (<[k:=v]> m) = v + dict_sum m - dict_get0 m k.
Proof.
  unfold dict_get0. destruct (m !! k) as [x|] eqn:Hk; simpl.
  - rewrite <- (insert_delete_id m k x Hk) at 2.
    rewrite <- (insert_delete_eq m k v).
    rewrite !dict_sum_insert_fresh by apply lookup_delete_eq. lia.
  - rewrite dict_sum_insert_fresh by done. lia.
Qed.

Lemma dict_sum_nonneg m : map_Forall (λ _ v, 0 ≤ v) m → 0 ≤ dict_sum m.
Proof.
  induction m as [|k v m Hk IH] using map_ind; intros Hall.
  - by rewrite dict_sum_empty.
  - rewrite dict_sum_insert_fresh by done.
    apply map_Forall_insert in Hall as [Hv Hm]; [|done].
    specialize (IH Hm). lia.
Qed.

Lemma pay_sum pool cost : dict_sum (pay pool cost) = dict_sum pool - dict_sum cost.
Proof.
  unfold pay.
  apply (map_fold_weak_ind (λ r c, dict_sum r = dict_sum pool - dict_sum c)).
  - rewrite dict_sum_empty. lia.
  - intros k v c r Hk IH.
    rewrite dict_sum_insert, dict_sum_insert_fresh by done. lia.
Qed.

Lemma gain_sum pool cost : dict_sum (gain pool cost) = dict_sum pool + dict_sum cost.
Proof.
  unfold gain.
  apply (map_fold_weak_ind (λ r c, dict_sum r = dict_sum pool + dict_sum c)).
  - rewrite dict_sum_empty. lia.
  - intros k v c r Hk IH.
    rewrite dict_sum_insert, dict_sum_insert_fresh by done. lia.
Qed.

End dict_facts.

(** ** Membership and removal in a zone *)

Section zone_facts.
Implicit Types (s : GameState) (card x : ref) (zone : list ref).

Lemma card_eqb_true s a b : card_eqb s a b = true ↔ deref s a = deref s b.
Proof. unfold card_eqb. apply bool_decide_eq_true. Qed.

Lemma card_eqb_refl s a : card_eqb s a a = true.
Proof. by apply card_eqb_true. Qed.

Lemma py_in_true s card zone :
  py_in s card zone = true ↔ ∃ x, x ∈ zone ∧ deref s x = deref s card.
Proof.
  unfold py_in. rewrite existsb_exists. split.
  - intros (x & Hin & Heq). exists x. split; [by apply list_elem_of_In|].
    symmetry. by apply card_eqb_true.
  - intros (x & Hin & Heq). exists x. split; [by apply list_elem_of_In|].
    apply card_eqb_true. done.
Qed.

Lemma py_in_elem s card zone : card ∈ zone → py_in s card zone = true.
Proof. intros. apply py_in_true. eauto. Qed.

Lemma py_remove_Some s card zone zone' :
  py_remove s card zone = Some zone' → removes_first s card zone zone'.
Proof.
  revert zone'. induction zone as [|x zone IH]; intros zone' H; simpl in H; [done|].
  destruct (card_eqb s card x) eqn:E.
  - injection H as <-. exists [], x, zone. repeat split; auto.
    symmetry. by apply card_eqb_true.
  - destruct (py_remove s card zone) as [z|]; simpl in H; [|done].
    injection H as <-.
    destruct (IH z eq_refl) as (l1 & y & l2 & -> & -> & Hy & Hl1).
    exists (x :: l1), y, l2. repeat split; auto.
    constructor; [|done]. intros Heq.
    assert (card_eqb s card x = true) by (by apply card_eqb_true). congruence.
Qed.

Lemma py_remove_in s card zone :
  py_in s card zone = true → is_Some (py_remove s card zone).
Proof.
  induction zone as [|x zone IH]; simpl; [done|].
  destruct (card_eqb s card x); [eauto|]. simpl. intros H.
  destruct (IH H) as [z ->]. simpl. eauto.
Qed.

Lemma py_remove_None s card zone :
  py_in s card zone = false → py_remove s card zone = None.
Proof.
  induction zone as [|x zone IH]; simpl; [done|].
  destruct (card_eqb s card x); [done|]. simpl. intros H. by rewrite IH.
Qed.

(** Membership and removal look at the object store only. *)
Lemma card_eqb_ext s1 s2 a b :
  objects s1 = objects s2 → card_eqb s1 a b = card_eqb s2 a b.
Proof. unfold card_eqb, deref. by intros ->. Qed.

Lemma py_in_ext s1 s2 card zone :
  objects s1 = objects s2 → py_in s1 card zone = py_in s2 card zone.
Proof.
  intros H. unfold py_in. induction zone as [|x zone IH]; simpl; [done|].
  by rewrite IH, (card_eqb_ext s1 s2).
Qed.

Lemma py_remove_ext s1 s2 card zone :
  objects s1 = objects s2 → py_remove s1 card zone = py_remove s2 card zone.
Proof.
  intros H. induction zone as [|x zone IH]; simpl; [done|].
  by rewrite IH, (card_eqb_ext s1 s2).
Qed.

Lemma removes_first_length s card zone zone' :
  removes_first s card zone zone' → length zone = S (length zone').
Proof.
  intros (l1 & x & l2 & -> & -> & _). rewrite !length_app. simpl. lia.
Qed.

Lemma removes_first_perm s card zone zone' :
  removes_first s card zone zone' → ∃ x, deref s x = deref s card ∧ zone ≡ₚ x :: zone'.
Proof.
  intros (l1 & x & l2 & -> & -> & Hx & _). exists x. split; [done|].
  by rewrite Permutation_middle.
Qed.

End zone_facts.

(** ** [draw_card] *)

(** C10.  [draw_card] on an empty library changes nothing and returns [None];
    otherwise it returns the head of the library, which leaves the library
    (the rest keeping its order) and becomes the last card of the hand, every
    other part of the state staying as it was. *)
Theorem draw_card_spec (s : GameState) :
  (library s = [] ∧ draw_card s = (None, s))
  ∨ (∃ card rest,
       library s = card :: rest ∧
       draw_card s =
         (Some card,
          mkState (objects s) rest (hand s ++ [card]) (battlefield s) (graveyard s)
                  (mana_pool s) (turn_counter s) (land_played_this_turn s)
                  (cards_played_this_turn s) (commander s))).
Proof.
  unfold draw_card. destruct (library s) as [|card rest] eqn:E.
  - by left.
  - right. exists card, rest. split; [done|]. reflexivity.
Qed.

(** ** [play_land] *)

(** The two outcomes of [play_land]. *)
Lemma play_land_cases (s : GameState) (card : ref) :
  (land_played_this_turn s = None ∧ py_in s card (hand s) = true
   ∧ is_land (deref s card) = true
   ∧ ∃ hand',
       removes_first s card (hand s) hand' ∧
       play_land s card
       = Ok (true,
             mkState (objects s) (library s) hand' (battlefield s ++ [card])
                     (graveyard s) (mana_pool s) (turn_counter s) (Some card)
                     (cards_played_this_turn s ++ [card]) (commander s)))
  ∨ (¬ (land_played_this_turn s = None ∧ py_in s card (hand s) = true
        ∧ is_land (deref s card) = true)
     ∧ play_land s card = Ok (false, s)).
Proof.
  unfold play_land.
  destruct (land_played_this_turn s) as [p|] eqn:Hp; simpl.
  { right. split; [intros (? & _); done | done]. }
  destruct (py_in s card (hand s)) eqn:Hin; simpl.
  2: { right. split; [intros (_ & ? & _); done | done]. }
  destruct (is_land (deref s card)) eqn:Hl; simpl.
  2: { right. split; [intros (_ & _ & ?); done | done]. }
  left. repeat (split; [done|]).
  unfold remove_or_raise.
  destruct (py_remove_in _ _ _ Hin) as [hand' Hrm]. rewrite Hrm. simpl.
  exists hand'. split; [by apply py_remove_Some | done].
Qed.

(** Once a land is recorded for the turn, [play_land] fails for every card. *)
Lemma play_land_after_land (s : GameState) (card : ref) :
  is_Some (land_played_this_turn s) → play_land s card = Ok (false, s).
Proof. intros H. unfold play_land. by rewrite bool_decide_eq_true_2. Qed.

(** C5, as amended.  [play_land] returns [True] exactly when no land has been
    played this turn, a card equal to the given one is in hand ([in] compares
    cards field by field) and the type line of the card contains Land
    ([Card.is_land]; the LAND tag is not read).  It then takes the first hand
    card equal to it out of the hand, puts the given card last on the
    battlefield, records it as the land of the turn and as entered this turn,
    and every later [play_land] of the turn fails.  In every other case it
    returns [False] and the state is unchanged. *)
Theorem play_land_spec (s : GameState) (card : ref) :
  (land_played_this_turn s = None ∧ py_in s card (hand s) = true
   ∧ is_land (deref s card) = true
   ∧ ∃ hand',
       removes_first s card (hand s) hand' ∧
       let s' := mkState (objects s) (library s) hand' (battlefield s ++ [card])
                         (graveyard s) (mana_pool s) (turn_counter s) (Some card)
                         (cards_played_this_turn s ++ [card]) (commander s) in
       play_land s card = Ok (true, s') ∧
       ∀ card', play_land s' card' = Ok (false, s'))
  ∨ (¬ (land_played_this_turn s = None ∧ py_in s card (hand s) = true
        ∧ is_land (deref s card) = true)
     ∧ play_land s card = Ok (false, s)).
Proof.
  destruct (play_land_cases s card) as [(Hp & Hin & Hl & hand' & Hrm & Hplay)|Hfail].
  - left. do 3 (split; [done|]). exists hand'. split; [done|]. split; [done|].
    intros card'. apply play_land_after_land. simpl. eauto.
  - by right.
Qed.

(** A land without the LAND tag is played; an artifact tagged LAND is
    refused; and for a card that is not in hand but equals one that is,
    [play_land] succeeds: the card in hand leaves the zones and the card
    given is on the battlefield while it is still in the library. *)
Lemma play_land_reads_the_type_line :
  (has_tag "LAND" (deref untagged_land_in_hand 0%nat) = false
   ∧ ∃ s', play_land untagged_land_in_hand 0%nat = Ok (true, s')
           ∧ hand s' = [] ∧ battlefield s' = [0%nat])
  ∧ (land_played_this_turn tagged_relic_in_hand = None
     ∧ 0%nat ∈ hand tagged_relic_in_hand
     ∧ has_tag "LAND" (deref tagged_relic_in_hand 0%nat) = true
     ∧ play_land tagged_relic_in_hand 0%nat = Ok (false, tagged_relic_in_hand))
  ∧ (¬ (1%nat ∈ hand forest_and_copy)
     ∧ ∃ s', play_land forest_and_copy 1%nat = Ok (true, s')
             ∧ library s' = [1%nat] ∧ hand s' = [] ∧ battlefield s' = [1%nat]
             ∧ ¬ (0%nat ∈ zone_refs s')).
Proof.
  split; [|split].
  - split; [vm_compute; reflexivity|]. eexists. vm_compute. repeat split.
  - split; [reflexivity|]. split; [apply (bool_decide_unpack _); vm_compute; exact I|].
    split; vm_compute; reflexivity.
  - split; [apply (bool_decide_unpack _); vm_compute; exact I|].
    eexists. split; [vm_compute; reflexivity|]. simpl. repeat split.
    apply (bool_decide_unpack _). vm_compute. exact I.
Qed.

(** ** [cast_spell] *)

Lemma can_afford_true s cost :
  can_afford s cost = true ↔ dict_sum cost ≤ dict_sum (mana_pool s).
Proof. unfold can_afford. apply Z.leb_le. Qed.

Lemma can_afford_false s cost :
  can_afford s cost = false ↔ dict_sum (mana_pool s) < dict_sum cost.
Proof. unfold can_afford. rewrite Z.leb_gt. done. Qed.

Lemma is_permanent_alt c : is_permanent c = negb (instant_or_sorcery c).
Proof. unfold is_permanent, instant_or_sorcery. by destruct (_ || _). Qed.

(** The three outcomes of [cast_spell]. *)
Lemma cast_spell_cases (s : GameState) (card : ref) (cost : gmap string Z) :
  (py_in s card (hand s) = false ∧ cast_spell s card cost = Ok (false, s))
  ∨ (py_in s card (hand s) = true ∧ can_afford s cost = false
     ∧ ∃ exn, cast_spell s card cost = Raised exn)
  ∨ (py_in s card (hand s) = true ∧ can_afford s cost = true
     ∧ ∃ hand',
         removes_first s card (hand s) hand' ∧
         cast_spell s card cost = Ok (true, after_cast s card cost hand')).
Proof.
  unfold cast_spell.
  destruct (py_in s card (hand s)) eqn:Hin; simpl; [|by left].
  right. destruct (can_afford s cost) eqn:Haff; simpl.
  - right. do 2 (split; [done|]).
    unfold remove_or_raise. simpl.
    destruct (py_remove_in _ _ _ Hin) as [hand' Hrm].
    rewrite (py_remove_ext _ s) by done.
    rewrite Hrm. simpl. exists hand'. split; [by apply py_remove_Some|].
    change (deref (set_hand (set_mana_pool s (pay (mana_pool s) cost)) hand') card)
      with (deref s card).
    rewrite is_permanent_alt. unfold after_cast.
    by destruct (instant_or_sorcery (deref s card)).
  - left. do 2 (split; [done|]). eauto.
Qed.

Lemma after_cast_total s card cost hand' :
  get_total_mana (after_cast s card cost hand') = get_total_mana s - dict_sum cost.
Proof.
  unfold after_cast, get_total_mana.
  destruct (instant_or_sorcery (deref s card)); simpl; apply pay_sum.
Qed.

(** C3, as amended.  [cast_spell] has three outcomes.  A card that is not in
    hand gives [False] and an unchanged state, whatever the cost.  A card in
    hand whose cost total exceeds the pool total raises.  A card in hand
    whose cost total is at most the pool total gives [True]: the cost is
    deducted colour by colour (the pool total drops by the cost total), the
    first hand card equal to it leaves the hand, and the card goes last to
    the graveyard when its type line contains Instant or Sorcery, and last to
    the battlefield (and the entered-this-turn list) otherwise. *)
Theorem cast_spell_spec (s : GameState) (card : ref) (cost : gmap string Z) :
  (py_in s card (hand s) = false ∧ cast_spell s card cost = Ok (false, s))
  ∨ (py_in s card (hand s) = true ∧ dict_sum (mana_pool s) < dict_sum cost
     ∧ ∃ exn, cast_spell s card cost = Raised exn)
  ∨ (py_in s card (hand s) = true ∧ dict_sum cost ≤ dict_sum (mana_pool s)
     ∧ ∃ hand',
         removes_first s card (hand s) hand' ∧
         cast_spell s card cost = Ok (true, after_cast s card cost hand') ∧
         mana_pool (after_cast s card cost hand') = pay (mana_pool s) cost ∧
         get_total_mana (after_cast s card cost hand')
           = get_total_mana s - dict_sum cost).
Proof.
  destruct (cast_spell_cases s card cost)
    as [Hout|[(Hin & Haff & Hraise)|(Hin & Haff & hand' & Hrm & Hcast)]].
  - by left.
  - right. left. apply can_afford_false in Haff. done.
  - right. right. apply can_afford_true in Haff. do 2 (split; [done|]).
    exists hand'. do 2 (split; [done|]). split; [|apply after_cast_total].
    unfold after_cast. by destruct (instant_or_sorcery (deref s card)).
Qed.

(** ** The mana pool under sequences of operations *)

Lemma run_op_total o s s' :
  adds_counts o → 0 ≤ get_total_mana s → run_op o s = Ok s' → 0 ≤ get_total_mana s'.
Proof.
  intros Hc Hs Hrun. destruct o as [|card|card cost|mana|]; simpl in Hrun.
  - injection Hrun as <-. unfold draw_card. by destruct (library s).
  - destruct (play_land_cases s card) as [(_ & _ & _ & h & _ & Hp)|[_ Hp]];
      rewrite Hp in Hrun; injection Hrun as <-; done.
  - destruct (cast_spell_cases s card cost)
      as [[_ Hp]|[(_ & _ & e & Hp)|(_ & Hle & h & _ & Hp)]];
      rewrite Hp in Hrun; simpl in Hrun; [| done |].
    + by injection Hrun as <-.
    + injection Hrun as <-. rewrite after_cast_total.
      apply can_afford_true in Hle. unfold get_total_mana. lia.
  - injection Hrun as <-. unfold add_mana, get_total_mana. simpl.
    rewrite gain_sum. apply dict_sum_nonneg in Hc. unfold get_total_mana in Hs. lia.
  - injection Hrun as <-. unfold get_total_mana. simpl. by rewrite dict_sum_empty.
Qed.

Lemma run_ops_total ops s :
  Forall adds_counts ops → 0 ≤ get_total_mana s →
  Forall (λ s', 0 ≤ get_total_mana s') (run_ops ops s).
Proof.
  intros Hall. revert s. induction Hall as [|o ops Ho _ IH]; intros s Hs; simpl.
  - constructor.
  - destruct (run_op o s) as [s'|] eqn:E; [|constructor].
    pose proof (run_op_total _ _ _ Ho Hs E). constructor; auto.
Qed.

(** C1, as amended.  Start from a pool without negative entries and run any
    sequence of [draw_card], [play_land], [cast_spell], [add_mana] and
    [clear_mana_pool] in which every [add_mana] adds non-negative amounts.
    After each operation the total of the pool, [sum(mana_pool.values())],
    is non-negative.  (Single entries are not: [cast_spell] checks totals and
    subtracts colour by colour.) *)
Theorem mana_total_never_negative (ops : list op) (s : GameState) :
  map_Forall (λ _ v, 0 ≤ v) (mana_pool s) →
  Forall adds_counts ops →
  Forall (λ s', 0 ≤ get_total_mana s') (run_ops ops s).
Proof.
  intros Hpool Hops. apply run_ops_total; [done|].
  by apply dict_sum_nonneg.
Qed.

(** ** The classifier *)

Module TagFacts.
Import Re Tags.

Lemma all_known_add tags t : known t → all_known tags → all_known (tags ∪ {[t]}).
Proof. intros Ht Hall x [?| ->%elem_of_singleton]%elem_of_union; auto. Qed.

Lemma all_known_add_if b tags t : known t → all_known tags → all_known (add_if b t tags).
Proof. intros. destruct b; simpl; [by apply all_known_add | done]. Qed.

Lemma all_known_remove tags X : all_known tags → all_known (tags ∖ X).
Proof. intros Hall x [? _]%elem_of_difference. auto. Qed.

Lemma known_CardTag t : t ∈ CardTag → known t.
Proof. by left. Qed.

Lemma static_table_known :
  map_Forall (λ _ l, Forall (λ x, x ∈ CardTag) l) STATIC_CARD_TAGS.
Proof.
  apply (bool_decide_unpack (map_Forall (λ _ l, Forall (λ x, x ∈ CardTag) l)
                                        STATIC_CARD_TAGS)).
  vm_compute. exact I.
Qed.

Lemma all_known_static n tags : all_known tags → all_known (static_tags n tags).
Proof.
  intros Hall. unfold static_tags.
  destruct (STATIC_CARD_TAGS !! n) as [l|] eqn:E; [|done].
  intros x [?| Hx%elem_of_list_to_set]%elem_of_union; [auto|].
  left. pose proof (static_table_known n l E) as Hl.
  rewrite Forall_forall in Hl. auto.
Qed.

Ltac tag_in :=
  apply known_CardTag;
  match goal with
  | |- ?t ∈ ?l => apply (bool_decide_unpack (t ∈ l)); vm_compute; exact I
  end.

Lemma all_known_type t tags : all_known tags → all_known (type_tags t tags).
Proof.
  intros Hall. unfold type_tags.
  repeat (apply all_known_add_if; [tag_in|]). done.
Qed.

Lemma all_known_text o tags : all_known tags → all_known (text_tags o tags).
Proof.
  intros Hall. unfold text_tags.
  repeat (apply all_known_add_if; [tag_in|]).
  destruct (found false re_mana _).
  - repeat (apply all_known_add; [tag_in|]).
    apply all_known_add_if; [tag_in | done].
  - apply all_known_add_if; [tag_in | done].
Qed.

Lemma known_cond_count m : known (cond_count_tag m).
Proof.
  right. right. unfold cond_count_tag, Str.startswith.
  by destruct (Str.drop_last _).
Qed.

Lemma all_known_exceptions o tags : all_known tags → all_known (land_exceptions o tags).
Proof.
  intros Hall. unfold land_exceptions.
  repeat (case_match; try by apply all_known_remove); try done.
  - apply all_known_add; [|done]. right. by left.
  - apply all_known_add; [apply known_cond_count | done].
Qed.

Lemma all_known_land t o tags : all_known tags → all_known (land_tags t o tags).
Proof.
  intros Hall. unfold land_tags. repeat case_match; try done.
  by apply all_known_exceptions.
Qed.

Lemma tag_set_known n t o : all_known (tag_set n t o).
Proof.
  unfold tag_set.
  apply all_known_land, all_known_text, all_known_type, all_known_static.
  intros x Hx. by apply not_elem_of_empty in Hx.
Qed.

Lemma fetch_land_unknown : ¬ known "FETCH_LAND".
Proof.
  intros [H|[H|H]]; [|done..].
  revert H. apply (bool_decide_eq_false ("FETCH_LAND" ∈ CardTag)).
  vm_compute. reflexivity.
Qed.

Lemma assign_tags_never_fetch n t o : "FETCH_LAND" ∉ assign_tags n t o.
Proof.
  unfold assign_tags. rewrite elem_of_elements.
  intros H. apply fetch_land_unknown. by apply (tag_set_known n t o).
Qed.

End TagFacts.

(** ** What a successful match captured *)

Module ReFacts.
Import Re.

Section run.
Variable ic : bool.
Implicit Types (r : regex) (s : string) (caps : gmap nat string).

Lemma step1_result test s (k : string → option (gmap nat string)) c' :
  step1 test s k = Some c' → ∃ x s', s = String x s' ∧ test x = true ∧ k s' = Some c'.
Proof.
  destruct s as [|x s']; simpl; [done|].
  destruct (test x) eqn:E; [|done]. eauto.
Qed.

(** Every answer of the matcher is an answer of its continuation. *)
Lemma run_result r : ∀ s caps k c',
  run ic r s caps k = Some c' → ∃ s' caps', k s' caps' = Some c'.
Proof.
  induction r as [|p| | | |r1 IH1 r2 IH2|r1 IH1 r2 IH2|r1 IH1|i r1 IH1];
    intros s caps k c' H; simpl in H.
  - eauto.
  - apply step1_result in H as (? & ? & _ & _ & ?). eauto.
  - apply step1_result in H as (? & ? & _ & _ & ?). eauto.
  - apply step1_result in H as (? & ? & _ & _ & ?). eauto.
  - apply step1_result in H as (? & ? & _ & _ & ?). eauto.
  - apply IH1 in H as (s1 & c1 & H). by apply IH2 in H.
  - destruct (run ic r1 s caps k) eqn:E.
    + injection H as ->. by apply IH1 in E.
    + by apply IH2 in H.
  - revert H. generalize (String.length s) at 1. intros fuel.
    revert s caps. induction fuel as [|fuel IHf]; intros s caps H.
    + eauto.
    + match type of H with
      | match ?x with _ => _ end = _ => destruct x eqn:E
      end.
      * injection H as ->. apply IH1 in E as (s1 & c1 & E).
        destruct (_ <? _)%nat; [|done]. by apply IHf in E.
      * eauto.
  - apply IH1 in H as (s1 & c1 & H). eauto.
Qed.
End run.

Lemma run_Seq_result ic r1 r2 s caps k c' :
  run ic (Seq r1 r2) s caps k = Some c' →
  ∃ s1 caps1, run ic r2 s1 caps1 k = Some c'.
Proof. intros H. simpl in H. by apply run_result in H. Qed.

Lemma run_Lit w : ∀ s caps k c',
  run false (Lit w) s caps k = Some c' →
  ∃ s', s = (w +:+ s')%string ∧ k s' caps = Some c'.
Proof.
  induction w as [|a w IH]; intros s caps k c' H.
  - simpl in H. exists s. done.
  - assert (run false (Seq (Chr a) (Lit w)) s caps k = Some c') as H'.
    { destruct w; [|exact H]. simpl in *.
      destruct s as [|x s']; simpl in *; [done|]. by destruct (chr_eqb false a x). }
    clear H. simpl in H'.
    apply step1_result in H' as (x & s1 & -> & Hx & H').
    apply IH in H' as (s' & -> & Hk).
    unfold chr_eqb in Hx. apply Ascii.eqb_eq in Hx as ->.
    exists s'. done.
Qed.

Lemma run_OneOf l : ∀ s caps k c',
  l ≠ [] →
  run false (OneOf l) s caps k = Some c' →
  ∃ w s', w ∈ l ∧ s = (w +:+ s')%string ∧ k s' caps = Some c'.
Proof.
  induction l as [|w l IH]; intros s caps k c' Hne H; [done|].
  destruct l as [|w' l].
  - simpl in H. apply run_Lit in H as (s' & -> & Hk).
    exists w, s'. split; [apply list_elem_of_here | done].
  - change (OneOf (w :: w' :: l)) with (Alt (Lit w) (OneOf (w' :: l))) in H.
    simpl in H. destruct (run false (Lit w) s caps k) eqn:E.
    + injection H as ->. apply run_Lit in E as (s' & -> & Hk).
      exists w, s'. split; [apply list_elem_of_here | done].
    + apply IH in H as (w0 & s' & Hin & -> & Hk); [|done].
      exists w0, s'. split; [by apply list_elem_of_further | done].
Qed.

Lemma length_append (w s : string) :
  String.length (w +:+ s) = (String.length w + String.length s)%nat.
Proof. induction w; simpl; auto. Qed.

Lemma substring_append (w s : string) :
  String.substring 0 (String.length w) (w +:+ s) = w.
Proof.
  induction w as [|a w IH]; simpl.
  - by destruct s.
  - by rewrite IH.
Qed.

Lemma consumed_append (w s : string) : consumed (w +:+ s) s = w.
Proof.
  unfold consumed. rewrite length_append.
  replace (String.length w + String.length s - String.length s)%nat
    with (String.length w) by lia.
  apply substring_append.
Qed.

(** A successful search is a successful match at some position. *)
Lemma search_inv ic r s m :
  search ic r s = Some m → ∃ s', run ic r s' ∅ (λ _ caps, Some caps) = Some m.
Proof.
  induction s as [|a s IH]; intros H.
  - exists EmptyString. cbn [search] in H.
    destruct (run ic r "" ∅ _) eqn:E; [congruence | done].
  - cbn [search] in H.
    destruct (run ic r (String a s) ∅ _) eqn:E; [|by apply IH].
    exists (String a s). congruence.
Qed.

(** A match of the count pattern captures a basic land type in group 2. *)
Lemma re_count_group s m :
  search false Tags.re_count s = Some m → group m 2 ∈ Tags.basic_plurals.
Proof.
  intros (s0 & E)%search_inv.
  unfold Tags.re_count, Tags.Cat in E.
  apply run_Seq_result in E as (s1 & c1 & E).
  apply run_Seq_result in E as (s2 & c2 & E).
  apply run_Seq_result in E as (s3 & c3 & E).
  apply run_Seq_result in E as (s4 & c4 & E).
  change (run false (OneOf Tags.basic_plurals) s4 c4
            (λ s' caps', Some (<[2%nat := consumed s4 s']> caps')) = Some m) in E.
  apply run_OneOf in E as (w & s5 & Hw & -> & E); [|done].
  injection E as <-.
  unfold group. rewrite lookup_insert_eq. simpl.
  by rewrite consumed_append.
Qed.

Lemma cond_count_tag_values s m :
  search false Tags.re_count s = Some m → Tags.cond_count_tag m ∈ count_tags.
Proof.
  intros H%re_count_group. unfold Tags.cond_count_tag.
  unfold Tags.basic_plurals in H.
  repeat (apply elem_of_cons in H as [-> | H];
          [apply (bool_decide_unpack (_ ∈ count_tags)); vm_compute; exact I|]).
  by apply elem_of_nil in H.
Qed.

End ReFacts.

(** ** The exception pass for lands *)

Module LandRules.
Import Re Tags ReFacts.

Lemma elem_of_add_if b t tags x :
  x ∈ add_if b t tags ↔ x ∈ tags ∨ (b = true ∧ x = t).
Proof. destruct b; simpl; set_solver. Qed.

Lemma tapped_entry_earned n t o :
  found true re_tapped o = true → TAPPED_ENTRY ∈ before_land_pass n t o.
Proof.
  intros H. unfold before_land_pass, text_tags.
  apply elem_of_add_if. right. done.
Qed.

Lemma assign_tags_land n t o x :
  Str.contains "Land" t = true →
  found true re_tapped o = true →
  x ∈ assign_tags n t o ↔ x ∈ land_exceptions (Str.lower o) (before_land_pass n t o).
Proof.
  intros Hl Ht. unfold assign_tags, tag_set, land_tags.
  rewrite elem_of_elements, Hl.
  fold (before_land_pass n t o).
  by rewrite bool_decide_eq_true_2 by by apply tapped_entry_earned.
Qed.

Lemma count_tag_not_tapped m : cond_count_tag m ≠ TAPPED_ENTRY.
Proof. unfold cond_count_tag. by destruct (Str.drop_last _). Qed.

End LandRules.

(** ** The LAND tag and the type line

    The engine tells lands by [Card.is_land], a test on the type line; the
    classifier marks the same cards with the LAND tag. *)

Module LandTag.
Import Re Tags LandRules.

Lemma land_exceptions_elem lo tags x :
  x ∈ land_exceptions lo tags →
  x ∈ tags ∨ x = "COND_FASTLAND" ∨ ∃ m, x = cond_count_tag m.
Proof.
  unfold land_exceptions. repeat case_match; set_solver.
Qed.

Lemma land_exceptions_keeps lo tags x :
  x ≠ TAPPED_ENTRY → x ∈ tags → x ∈ land_exceptions lo tags.
Proof.
  intros Hne Hin. unfold land_exceptions. repeat case_match; set_solver.
Qed.

Lemma text_tags_land o tags : LAND ∈ text_tags o tags ↔ LAND ∈ tags.
Proof.
  unfold text_tags. rewrite !elem_of_add_if.
  destruct (found false re_mana _); rewrite ?elem_of_union, ?elem_of_singleton,
    ?elem_of_add_if; unfold LAND, TAPPED_ENTRY, TUTOR, COUNTERSPELL, BOARD_WIPE,
    REMOVAL, DRAW, RAMP, MANA_ROCK; naive_solver.
Qed.

Lemma type_tags_land t tags :
  LAND ∈ type_tags t tags ↔ LAND ∈ tags ∨ Str.contains "Land" t = true.
Proof.
  unfold type_tags. rewrite !elem_of_add_if.
  unfold LAND, ARTIFACT, CREATURE, ENCHANTMENT, INSTANT, SORCERY, PLANESWALKER.
  naive_solver.
Qed.

(** A card whose type line contains Land is tagged LAND; a card outside the
    static table is tagged LAND only if its type line contains Land. *)
Lemma land_tag_iff_type_line n t o :
  STATIC_CARD_TAGS !! n = None →
  LAND ∈ assign_tags n t o ↔ Str.contains "Land" t = true.
Proof.
  intros Hn. unfold assign_tags, tag_set. rewrite elem_of_elements.
  assert (LAND ∈ text_tags o (type_tags t (static_tags n ∅))
          ↔ Str.contains "Land" t = true) as Hpre.
  { rewrite text_tags_land, type_tags_land. unfold static_tags. rewrite Hn.
    set_solver. }
  unfold land_tags. repeat case_match; try done.
  rewrite <- Hpre. split.
  - intros [?|[?|[m Hm]]]%land_exceptions_elem; [done | done |].
    unfold cond_count_tag in Hm. by destruct (Str.drop_last _).
  - by apply land_exceptions_keeps.
Qed.

Lemma land_type_line_tagged n t o :
  Str.contains "Land" t = true → LAND ∈ assign_tags n t o.
Proof.
  intros Ht. unfold assign_tags, tag_set. rewrite elem_of_elements.
  assert (LAND ∈ text_tags o (type_tags t (static_tags n ∅))) as Hpre.
  { rewrite text_tags_land, type_tags_land. by right. }
  unfold land_tags. repeat case_match; try done.
  by apply land_exceptions_keeps.
Qed.

End LandTag.

(** C8, as amended.  Take a card whose type line contains Land and whose
    oracle text matches the enters-tapped pattern.  The exception pass is a
    first-match-wins chain: (1) text matching "unless you control two or more
    basic lands" removes TAPPED_ENTRY; and when neither that phrasing nor the
    two other removing phrasings ahead of the fastland rule ("unless you
    control a <basic type>", and the pay/reveal wording) match, then (2) text
    matching "unless you control two or fewer other lands" keeps TAPPED_ENTRY
    and adds COND_FASTLAND; (3) failing that, text matching "unless you
    control three or more other ... <basic type>s" keeps TAPPED_ENTRY and
    adds COND_COUNT_3_<TYPE> for the captured type; and (4) TAPPED_ENTRY stays
    whenever the closing "if you control three or more" rule does not match
    either, in particular for any phrasing that no rule recognises. *)
Theorem land_exception_rules (n t o : string) :
  Str.contains "Land" t = true →
  Re.found true Tags.re_tapped o = true →
  let lo := Str.lower o in
  let result := Tags.assign_tags n t o in
  (Re.found false Tags.re_two_basics lo = true → Tags.TAPPED_ENTRY ∉ result)
  ∧ (Re.found false Tags.re_two_basics lo = false →
     Re.found false Tags.re_check lo = false →
     Re.found false Tags.re_pay lo = false →
       (Re.found false Tags.re_fastland lo = true →
          Tags.TAPPED_ENTRY ∈ result ∧ "COND_FASTLAND" ∈ result)
     ∧ (Re.found false Tags.re_fastland lo = false →
        ∀ m, Re.search false Tags.re_count lo = Some m →
          Tags.TAPPED_ENTRY ∈ result ∧ Tags.cond_count_tag m ∈ result
          ∧ Tags.cond_count_tag m ∈ count_tags)
     ∧ (Re.found false Tags.re_three_lands lo = false → Tags.TAPPED_ENTRY ∈ result)).
Proof.
  intros Hl Ht lo result.
  pose proof (LandRules.tapped_entry_earned n t o Ht) as Hpre.
  assert (∀ x, x ∈ result ↔
               x ∈ Tags.land_exceptions lo (before_land_pass n t o)) as Hres
    by (intros x; by apply LandRules.assign_tags_land).
  split; [|intros H1 H2 H3; split; [|split]].
  - intros H1. rewrite Hres. unfold Tags.land_exceptions. rewrite H1. set_solver.
  - intros H4.
    split; rewrite Hres; unfold Tags.land_exceptions; rewrite H1, H2, H3, H4;
      set_solver.
  - intros H4 m H5. split; [|split].
    + rewrite Hres. unfold Tags.land_exceptions. rewrite H1, H2, H3, H4, H5. set_solver.
    + rewrite Hres. unfold Tags.land_exceptions. rewrite H1, H2, H3, H4, H5. set_solver.
    + by eapply ReFacts.cond_count_tag_values.
  - intros H7. rewrite Hres. unfold Tags.land_exceptions. rewrite H1, H2, H3, H7.
    pose proof LandRules.count_tag_not_tapped.
    repeat case_match; set_solver.
Qed.

Lemma land_exception_rules_witness :
  Tags.TAPPED_ENTRY ∈ Tags.assign_tags "Seachrome Coast" "Land" seachrome_coast_text
  ∧ "COND_FASTLAND" ∈ Tags.assign_tags "Seachrome Coast" "Land" seachrome_coast_text.
Proof.
  refine (proj1 (proj2 (land_exception_rules "Seachrome Coast" "Land"
                          seachrome_coast_text _ _) _ _ _) _);
    vm_compute; reflexivity.
Defined.

(** In [fastland_with_payment] the pay wording makes rule (3) of the chain
    fire before the fastland rule: the land loses TAPPED_ENTRY and gets no
    COND_FASTLAND. *)
Lemma fastland_phrase_not_always_kept :
  Str.contains "Land" "Land" = true
  ∧ Re.found true Tags.re_tapped fastland_with_payment = true
  ∧ Re.found false Tags.re_fastland (Str.lower fastland_with_payment) = true
  ∧ Tags.assign_tags "Hypothetical Coast" "Land" fastland_with_payment = ["LAND"]
  ∧ ¬ (Tags.TAPPED_ENTRY ∈ Tags.assign_tags "Hypothetical Coast" "Land" fastland_with_payment
       ∧ "COND_FASTLAND" ∈ Tags.assign_tags "Hypothetical Coast" "Land" fastland_with_payment).
Proof.
  assert (Tags.assign_tags "Hypothetical Coast" "Land" fastland_with_payment = ["LAND"]) as E
    by (vm_compute; reflexivity).
  repeat split; try (vm_compute; reflexivity).
  rewrite E. intros [H _]. apply list_elem_of_singleton in H. discriminate H.
Qed.

(** Cards of the classifier's own test suite and of the land survey; the
    order of the tags is not specified. *)
Example dwarven_mine_tags :
  Tags.assign_tags "Dwarven Mine" "Land - Mountain"
    ("({T}: Add {R}.)" +:+ newline +:+
     "Dwarven Mine enters tapped unless you control three or more other Mountains.")
  ≡ₚ ["COND_COUNT_3_MOUNTAIN"; "MANA_ROCK"; "RAMP"; "LAND"; "TAPPED_ENTRY"].
Proof. vm_compute. solve_Permutation. Qed.

Example temple_garden_tags :
  Tags.assign_tags "Temple Garden" "Land - Forest Plains"
    ("({T}: Add {G} or {W}.)" +:+ newline +:+
     "As this land enters, you may pay 2 life. If you don't, it enters tapped.")
  ≡ₚ ["MANA_ROCK"; "RAMP"; "LAND"].
Proof. vm_compute. solve_Permutation. Qed.

Example guildgate_tags :
  Tags.assign_tags "Azorius Guildgate" "Land - Gate"
    ("This land enters tapped." +:+ newline +:+ "{T}: Add {W} or {U}.")
  ≡ₚ ["MANA_ROCK"; "RAMP"; "LAND"; "TAPPED_ENTRY"].
Proof. vm_compute. solve_Permutation. Qed.

Example murder_tags :
  Tags.assign_tags "Murder" "Instant" "Destroy target creature." ≡ₚ ["INSTANT"; "REMOVAL"].
Proof. vm_compute. solve_Permutation. Qed.

(** ** Filters over zones *)

Lemma filter_none {A} (P : A → bool) (l : list A) :
  Forall (λ x, P x = false) l → filter (λ x, P x) l = [].
Proof.
  induction 1 as [|x l Hx _ IH]; [done|].
  rewrite filter_cons. destruct (decide (P x)) as [H|_]; [|done].
  rewrite Hx in H. done.
Qed.

Lemma elem_of_filter_bool {A} (P : A → bool) (l : list A) (x : A) :
  x ∈ filter (λ x, P x) l ↔ P x = true ∧ x ∈ l.
Proof. rewrite list_elem_of_filter, Is_true_true. done. Qed.

Lemma head_elem_of {A} (l : list A) (x : A) : head l = Some x → x ∈ l.
Proof. destruct l; simpl; [done|]. intros [= ->]. apply list_elem_of_here. Qed.

(** ** Fetch resolution on classified cards *)

(** C4.  No input makes [assign_tags] return the tag FETCH_LAND; hence, on a
    battlefield whose cards all carry tags computed by [assign_tags],
    [_resolve_fetch_lands] finds no fetcher, returns [False] and changes
    nothing. *)
Theorem classifier_never_tags_fetch_land :
  (∀ n t o : string, "FETCH_LAND" ∉ Tags.assign_tags n t o)
  ∧ (∀ (Rng : Type) (random_shuffle : Rng → list ref → list ref * Rng)
       (e : Engine Rng) (tapped_objects : gset ref),
       Forall (λ r, ∃ n t o, tags (deref (state e) r) = Tags.assign_tags n t o)
              (battlefield (state e)) →
       _resolve_fetch_lands random_shuffle e tapped_objects = Ok (false, e)).
Proof.
  split; [apply TagFacts.assign_tags_never_fetch|].
  intros Rng random_shuffle e tapped_objects Hall.
  unfold _resolve_fetch_lands.
  rewrite (filter_none (λ c, has_tag "FETCH_LAND" (deref (state e) c))); [done|].
  eapply Forall_impl; [exact Hall|].
  intros r (n & t & o & Htags). unfold has_tag. rewrite Htags.
  apply bool_decide_eq_false. apply TagFacts.assign_tags_never_fetch.
Qed.

Lemma classifier_never_tags_fetch_land_witness :
  _resolve_fetch_lands reversing_shuffle wilds_on_battlefield ∅
  = Ok (false, wilds_on_battlefield).
Proof.
  apply (proj2 classifier_never_tags_fetch_land).
  repeat constructor. exists "Evolving Wilds", "Land", evolving_wilds_text.
  vm_compute. reflexivity.
Defined.

(** ** The sort of the cast step *)

Section sort_desc.
Context {A : Type} (key : A → Z).

Lemma insert_desc_perm x l : insert_desc key x l ≡ₚ x :: l.
Proof.
  induction l as [|y l IH]; simpl; [done|].
  destruct (key y <=? key x); [done|].
  rewrite IH. apply Permutation_swap.
Qed.

Lemma sort_desc_perm l : sort_desc key l ≡ₚ l.
Proof.
  induction l as [|x l IH]; simpl; [done|].
  by rewrite insert_desc_perm, IH.
Qed.

Lemma head_insert_desc x l :
  head (insert_desc key x l) =
    match head l with
    | Some y => if key y <=? key x then Some x else Some y
    | None => Some x
    end.
Proof. destruct l as [|y l]; simpl; [done|]. by destruct (key y <=? key x). Qed.

Lemma head_sort_desc l x : head (sort_desc key l) = Some x → first_max key l x.
Proof.
  revert x. induction l as [|a l IH]; intros x H; simpl in H; [done|].
  rewrite head_insert_desc in H.
  destruct (head (sort_desc key l)) as [y|] eqn:Ey.
  - destruct (IH y eq_refl) as (l1 & l2 & -> & H1 & H2).
    destruct (key y <=? key a) eqn:E; injection H as <-.
    + apply Z.leb_le in E. exists [], (l1 ++ y :: l2). repeat split; [constructor|].
      apply Forall_app. split.
      * eapply Forall_impl; [exact H1|]. simpl. lia.
      * constructor; [done|]. eapply Forall_impl; [exact H2|]. simpl. lia.
    + apply Z.leb_gt in E. exists (a :: l1), l2. repeat split; [|done].
      by constructor.
  - injection H as <-.
    assert (l = []) as ->.
    { apply Permutation_nil. rewrite <- (sort_desc_perm l).
      by destruct (sort_desc key l). }
    exists [], []. repeat split; constructor.
Qed.

Lemma head_sort_desc_None l : head (sort_desc key l) = None → l = [].
Proof.
  intros H. apply Permutation_nil. rewrite <- (sort_desc_perm l).
  by destruct (sort_desc key l).
Qed.

End sort_desc.

Lemma filter_split {A} (P : A → bool) (l m1 m2 : list A) (x : A) :
  filter (λ y, P y) l = m1 ++ x :: m2 →
  ∃ l1 l2, l = l1 ++ x :: l2 ∧ filter (λ y, P y) l1 = m1 ∧ filter (λ y, P y) l2 = m2.
Proof.
  revert m1. induction l as [|a l IH]; intros m1 H.
  - by destruct m1.
  - rewrite filter_cons in H. destruct (decide (P a)) as [Ha|Ha].
    + destruct m1 as [|b m1]; simpl in H; injection H as -> H.
      * exists [], l. by rewrite filter_nil.
      * destruct (IH _ H) as (l1 & l2 & -> & <- & <-).
        exists (b :: l1), l2. rewrite filter_cons. by destruct (decide (P b)).
    + destruct (IH _ H) as (l1 & l2 & -> & <- & <-).
      exists (a :: l1), l2. rewrite filter_cons. by destruct (decide (P a)).
Qed.

Lemma filter_filter_bool {A} (P Q : A → bool) (l : list A) :
  filter (λ y, Q y) (filter (λ y, P y) l) = filter (λ y, P y && Q y) l.
Proof.
  induction l as [|a l IH]; [done|].
  rewrite !filter_cons.
  destruct (P a) eqn:EP, (Q a) eqn:EQ; simpl;
    rewrite ?filter_cons, ?EQ; simpl; by rewrite IH.
Qed.

(** ** The cast step *)

Lemma choose_spell_alt s :
  choose_spell s = head (sort_desc (λ c, cmc (deref s c)) (filter (λ c, castable s c) (hand s))).
Proof. unfold choose_spell, castable. by rewrite filter_filter_bool. Qed.

Lemma py_remove_first s card l1 l2 :
  Forall (λ y, deref s y ≠ deref s card) l1 →
  py_remove s card (l1 ++ card :: l2) = Some (l1 ++ l2).
Proof.
  induction 1 as [|y l1 Hy _ IH]; simpl.
  - by rewrite card_eqb_refl.
  - rewrite IH. destruct (card_eqb s card y) eqn:E; [|done].
    apply card_eqb_true in E. congruence.
Qed.

(** The card the cast step picks, and where it sits in the hand. *)
Lemma choose_spell_Some s spell :
  choose_spell s = Some spell →
  ∃ l1 l2,
    hand s = l1 ++ spell :: l2 ∧ castable s spell = true
    ∧ Forall (λ c, castable s c = true → cmc (deref s c) < cmc (deref s spell)) l1
    ∧ Forall (λ c, castable s c = true → cmc (deref s c) ≤ cmc (deref s spell)) l2.
Proof.
  rewrite choose_spell_alt. intros E.
  apply head_sort_desc in E as (m1 & m2 & Hf & Hm1 & Hm2).
  pose proof Hf as Hsplit.
  apply filter_split in Hsplit as (l1 & l2 & Hhand & Hl1 & Hl2).
  exists l1, l2. split; [done|]. split; [|split].
  - assert (spell ∈ filter (λ c, castable s c) (hand s)) as Hin
      by (rewrite Hf; set_solver).
    by apply elem_of_filter_bool in Hin as [? _].
  - apply Forall_forall. intros c Hin Hcc.
    rewrite Forall_forall in Hm1. apply Hm1. rewrite <- Hl1.
    by apply elem_of_filter_bool.
  - apply Forall_forall. intros c Hin Hcc.
    rewrite Forall_forall in Hm2. apply Hm2. rewrite <- Hl2.
    by apply elem_of_filter_bool.
Qed.

Lemma choose_spell_None s :
  choose_spell s = None → Forall (λ c, castable s c = false) (hand s).
Proof.
  rewrite choose_spell_alt. intros E%head_sort_desc_None.
  apply Forall_forall. intros c Hin.
  destruct (castable s c) eqn:Hc; [|done].
  assert (c ∈ filter (λ c, castable s c) (hand s)) as Hin'
    by by apply elem_of_filter_bool.
  rewrite E in Hin'. by apply elem_of_nil in Hin'.
Qed.

(** No card ahead of the chosen one is equal to it, so [hand.remove(spell)]
    removes the chosen occurrence. *)
Lemma chosen_spell_removed s spell l1 l2 :
  hand s = l1 ++ spell :: l2 → castable s spell = true →
  Forall (λ c, castable s c = true → cmc (deref s c) < cmc (deref s spell)) l1 →
  py_remove s spell (hand s) = Some (l1 ++ l2).
Proof.
  intros Hhand Hc HF1. rewrite Hhand. apply py_remove_first.
  eapply Forall_impl; [exact HF1|]. intros y Hy Heq.
  assert (castable s y = true) as Hcy by (unfold castable in *; by rewrite Heq).
  specialize (Hy Hcy). rewrite Heq in Hy. lia.
Qed.

(** The cast of the chosen card succeeds. *)
Lemma cast_chosen_spell s spell l1 l2 :
  hand s = l1 ++ spell :: l2 → castable s spell = true →
  py_remove s spell (hand s) = Some (l1 ++ l2) →
  cast_spell s spell (mana_cost (deref s spell))
  = Ok (true, after_cast s spell (mana_cost (deref s spell)) (l1 ++ l2)).
Proof.
  intros Hhand Hc Hrm.
  unfold castable in Hc. apply andb_true_iff in Hc as [_ Haff].
  unfold cast_spell.
  rewrite (py_in_elem s spell (hand s)) by (rewrite Hhand; set_solver).
  rewrite Haff. simpl. unfold remove_or_raise.
  rewrite (py_remove_ext _ s) by done. simpl. rewrite Hrm. simpl.
  rewrite is_permanent_alt. unfold after_cast.
  change (deref (set_hand (set_mana_pool s _) _) spell) with (deref s spell).
  by destruct (instant_or_sorcery (deref s spell)).
Qed.

(** The two outcomes of the cast step. *)
Lemma cast_step_cases s :
  (choose_spell s = None ∧ cast_step s = Ok (s, false))
  ∨ (∃ spell l1 l2,
       choose_spell s = Some spell ∧ hand s = l1 ++ spell :: l2
       ∧ removes_first s spell (hand s) (l1 ++ l2)
       ∧ cast_step s
         = Ok (after_cast s spell (mana_cost (deref s spell)) (l1 ++ l2), true)).
Proof.
  unfold cast_step. destruct (choose_spell s) as [spell|] eqn:E; [right | by left].
  destruct (choose_spell_Some s spell E) as (l1 & l2 & Hhand & Hc & HF1 & _).
  pose proof (chosen_spell_removed s spell l1 l2 Hhand Hc HF1) as Hrm.
  exists spell, l1, l2. do 2 (split; [done|]). split; [by apply py_remove_Some|].
  by rewrite (cast_chosen_spell s spell l1 l2).
Qed.

(** C9.  The cast step of a pass looks at the hand cards that are not lands
    and that the current pool can afford.  When there is none, nothing is
    cast and the state is unchanged.  Otherwise the card cast sits at a
    position of the hand such that every candidate before it has a strictly
    smaller mana value and every candidate after it has at most its mana
    value: the highest mana value wins and ties go to the earliest card in
    hand.  That very occurrence leaves the hand, and the cast succeeds. *)
Theorem cast_step_picks_first_highest (s : GameState) :
  match choose_spell s with
  | None =>
      Forall (λ c, castable s c = false) (hand s) ∧ cast_step s = Ok (s, false)
  | Some spell =>
      ∃ l1 l2,
        hand s = l1 ++ spell :: l2 ∧ castable s spell = true
        ∧ Forall (λ c, castable s c = true → cmc (deref s c) < cmc (deref s spell)) l1
        ∧ Forall (λ c, castable s c = true → cmc (deref s c) ≤ cmc (deref s spell)) l2
        ∧ cast_step s =
            Ok (after_cast s spell (mana_cost (deref s spell)) (l1 ++ l2), true)
  end.
Proof.
  destruct (choose_spell s) as [spell|] eqn:E.
  - destruct (choose_spell_Some s spell E) as (l1 & l2 & Hhand & Hc & HF1 & HF2).
    exists l1, l2. do 4 (split; [done|]).
    unfold cast_step. rewrite E.
    rewrite (cast_chosen_spell s spell l1 l2); [done..|].
    by apply chosen_spell_removed.
  - split; [by apply choose_spell_None|].
    unfold cast_step. by rewrite E.
Qed.

(** ** The mana sweep *)

Lemma set_mana_pool_id s : set_mana_pool s (mana_pool s) = s.
Proof. by destruct s. Qed.

Lemma sweep_refl s t b : sweep s t b s t b.
Proof. split; auto. by rewrite set_mana_pool_id. Qed.

Lemma sweep_trans s t b s1 t1 b1 s2 t2 b2 :
  sweep s t b s1 t1 b1 → sweep s1 t1 b1 s2 t2 b2 → sweep s t b s2 t2 b2.
Proof.
  intros [Hs1 Hm1 Hr1 Hq1] [Hs2 Hm2 Hr2 Hq2]. split.
  - rewrite Hs2, Hs1. reflexivity.
  - set_solver.
  - intros Hb. destruct (Hr2 Hb) as [Hb1|(r & Hin & Hnt & Ht)].
    + destruct (Hr1 Hb1) as [?|(r & Hin & Hnt & Ht)]; [by left|].
      right. exists r. set_solver.
    + right. exists r. rewrite Hs1 in Hin. simpl in Hin. set_solver.
  - intros Hb. destruct (Hq2 Hb) as (-> & -> & ->). by apply Hq1.
Qed.

Lemma sweep_tap s t b r :
  r ∈ battlefield s → r ∉ t → sweep s t b (add_mana s COLORLESS_ONE) (t ∪ {[r]}) true.
Proof.
  intros Hin Hnt. split; [done | set_solver | | done].
  intros _. right. exists r. set_solver.
Qed.

Lemma tap_artifact_sweep s t b r :
  r ∈ battlefield s →
  ∃ s' t' b', tap_artifact (s, t, b) r = (s', t', b') ∧ sweep s t b s' t' b'.
Proof.
  intros Hin. unfold tap_artifact.
  destruct (bool_decide (r ∈ t)) eqn:Ht.
  { eexists _, _, _. split; [done | apply sweep_refl]. }
  apply bool_decide_eq_false in Ht.
  destruct (_ && _).
  { eexists _, _, _. split; [done | apply sweep_refl]. }
  eexists _, _, _. split; [done | by apply sweep_tap].
Qed.

Lemma foldl_tap_artifact_sweep l : ∀ s t b,
  Forall (λ r, r ∈ battlefield s) l →
  ∃ s' t' b', foldl tap_artifact (s, t, b) l = (s', t', b') ∧ sweep s t b s' t' b'.
Proof.
  induction l as [|r l IH]; intros s t b Hall; cbn [foldl].
  - eexists _, _, _. split; [done | apply sweep_refl].
  - apply Forall_cons in Hall as [Hr Hl].
    destruct (tap_artifact_sweep s t b r Hr) as (s1 & t1 & b1 & -> & Hsw1).
    destruct (IH s1 t1 b1) as (s2 & t2 & b2 & -> & Hsw2).
    { rewrite (sweep_state _ _ _ _ _ _ Hsw1). done. }
    eexists _, _, _. split; [done|]. by eapply sweep_trans.
Qed.

Lemma tap_artifacts_sweep s t b :
  ∃ s' t' b', tap_artifacts (s, t, b) = (s', t', b') ∧ sweep s t b s' t' b'.
Proof.
  unfold tap_artifacts. simpl. apply foldl_tap_artifact_sweep.
  apply Forall_forall. intros r Hr. by apply list_elem_of_filter in Hr as [_ ?].
Qed.

Lemma foldl_tap_lands (l : list ref) : ∀ (s : GameState) (t : gset ref) (b : bool),
  ∃ pool',
    foldl (λ '(s, tapped, _) (land : ref),
             (add_mana s COLORLESS_ONE, tapped ∪ {[land]}, true))
          (s, t, b) l
    = (set_mana_pool s pool', t ∪ list_to_set l, match l with [] => b | _ => true end)
    ∧ (l = [] → pool' = mana_pool s).
Proof.
  induction l as [|r l IH]; intros s t b; simpl.
  - exists (mana_pool s). rewrite set_mana_pool_id.
    replace (t ∪ ∅) with t by set_solver. done.
  - destruct (IH (add_mana s COLORLESS_ONE) (t ∪ {[r]}) true) as (pool' & -> & _).
    exists pool'. split; [|done].
    replace (t ∪ {[r]} ∪ list_to_set l) with (t ∪ ({[r]} ∪ list_to_set l)) by set_solver.
    f_equal. by destruct l.
Qed.

Lemma tap_lands_sweep s t :
  ∃ s' t' b', tap_lands s t = (s', t', b') ∧ sweep s t false s' t' b'.
Proof.
  unfold tap_lands.
  set (U := filter _ (filter _ (battlefield s))).
  destruct (foldl_tap_lands U s t false) as (pool' & -> & Hnil).
  eexists _, _, _. split; [done|]. split.
  - done.
  - set_solver.
  - intros Hb. right. destruct U as [|r U'] eqn:EU; [done|].
    assert (r ∈ U) as Hr by (rewrite EU; set_solver).
    unfold U in Hr. apply list_elem_of_filter in Hr as [Hel Hr].
    apply list_elem_of_filter in Hr as [_ Hr].
    exists r. split; [done|]. split; [|set_solver].
    unfold land_untapped in Hel.
    destruct (bool_decide (r ∈ t)) eqn:E; [done|].
    by apply bool_decide_eq_false in E.
  - intros Hb. destruct U; [|done]. rewrite (Hnil eq_refl), set_mana_pool_id.
    repeat split. set_solver.
Qed.

Lemma mana_sweep s t :
  ∃ s' t' b', tap_artifacts (tap_lands s t) = (s', t', b') ∧ sweep s t false s' t' b'.
Proof.
  destruct (tap_lands_sweep s t) as (s1 & t1 & b1 & -> & H1).
  destruct (tap_artifacts_sweep s1 t1 b1) as (s2 & t2 & b2 & -> & H2).
  eexists _, _, _. split; [done|]. by eapply sweep_trans.
Qed.

(** ** The cards of a game

    Cards are compared up to their tag list, the one field of a card object
    that the engine mutates (a fetched land is force-tagged TAPPED_ENTRY). *)

Lemma zone_cards_length s : length (zone_cards s) = zone_size s.
Proof. unfold zone_cards, zone_size, cards_in. rewrite !length_app, !length_map. lia. Qed.

Lemma cards_in_app s z1 z2 : cards_in s (z1 ++ z2) = cards_in s z1 ++ cards_in s z2.
Proof. apply map_app. Qed.

Lemma cards_in_keys s s' z :
  (∀ r, card_key (deref s' r) = card_key (deref s r)) → cards_in s' z = cards_in s z.
Proof. intros H. unfold cards_in. apply map_ext. auto. Qed.

Lemma cards_in_objects s s' z : objects s' = objects s → cards_in s' z = cards_in s z.
Proof. intros H. apply cards_in_keys. intros r. unfold deref. by rewrite H. Qed.

Lemma cards_in_perm s z z' : z ≡ₚ z' → cards_in s z ≡ₚ cards_in s z'.
Proof. intros H. unfold cards_in. by apply Permutation_map. Qed.

Lemma cards_in_removes_first s card z z' :
  removes_first s card z z' → cards_in s z ≡ₚ card_key (deref s card) :: cards_in s z'.
Proof.
  intros (l1 & x & l2 & -> & -> & Hx & _).
  rewrite !cards_in_app. simpl. rewrite Hx. by rewrite Permutation_middle.
Qed.

Lemma draw_card_cards s : zone_cards (draw_card s).2 ≡ₚ zone_cards s.
Proof.
  unfold draw_card. destruct (library s) as [|card rest] eqn:E; simpl; [done|].
  unfold zone_cards. simpl. rewrite E.
  rewrite ?(cards_in_objects s _) by done.
  rewrite cards_in_app. simpl. solve_Permutation.
Qed.

Lemma play_land_cards s card b s' :
  play_land s card = Ok (b, s') → zone_cards s' ≡ₚ zone_cards s.
Proof.
  intros H.
  destruct (play_land_cases s card) as [(_ & _ & _ & h & Hrm & Hp)|[_ Hp]];
    rewrite Hp in H; injection H as <- <-; [|done].
  unfold zone_cards. simpl.
  rewrite ?(cards_in_objects s _) by done.
  rewrite (cards_in_removes_first _ _ _ _ Hrm), cards_in_app. simpl.
  solve_Permutation.
Qed.

Lemma after_cast_cards s card cost hand' :
  removes_first s card (hand s) hand' →
  zone_cards (after_cast s card cost hand') ≡ₚ zone_cards s.
Proof.
  intros Hrm. unfold after_cast, zone_cards.
  destruct (instant_or_sorcery (deref s card)); simpl;
    rewrite ?(cards_in_objects s _) by done;
    rewrite (cards_in_removes_first _ _ _ _ Hrm), cards_in_app; simpl;
    solve_Permutation.
Qed.


Lemma force_tapped_entry_key s target r :
  card_key (deref (force_tapped_entry s target) r) = card_key (deref s r).
Proof.
  unfold force_tapped_entry. destruct (has_tag _ _); [done|].
  unfold deref. simpl. destruct (decide (r = target)) as [->|Hne].
  - by rewrite lookup_total_insert_eq.
  - by rewrite lookup_total_insert_ne.
Qed.

(** ** The measure of the main-phase loop

    A hand card counts 3 (it can be cast, then tapped, then sacrificed), a
    library card and an untapped battlefield object 2, a tapped battlefield
    object 1. *)

Lemma pass_budget_eq s t :
  pass_budget s t
  = (3 * length (hand s) + 2 * length (library s) + bf_rank t (battlefield s))%nat.
Proof. reflexivity. Qed.

Lemma rank_bounds t r : (1 ≤ rank t r ≤ 2)%nat.
Proof. unfold rank. destruct (bool_decide _); lia. Qed.

Lemma bf_rank_app t l1 l2 : bf_rank t (l1 ++ l2) = (bf_rank t l1 + bf_rank t l2)%nat.
Proof. apply sum_list_with_app. Qed.

Lemma bf_rank_le t l : (bf_rank t l ≤ 2 * length l)%nat.
Proof.
  induction l as [|r l IH]; simpl; [unfold bf_rank; simpl; lia|].
  change (bf_rank t (r :: l)) with (rank t r + bf_rank t l)%nat.
  pose proof (rank_bounds t r). lia.
Qed.

Lemma rank_mono t t' r : t ⊆ t' → (rank t' r ≤ rank t r)%nat.
Proof.
  intros Hsub. unfold rank.
  repeat case_bool_decide; try lia. set_solver.
Qed.

Lemma bf_rank_mono t t' l : t ⊆ t' → (bf_rank t' l ≤ bf_rank t l)%nat.
Proof.
  intros Hsub. induction l as [|r l IH]; [done|].
  change (rank t' r + bf_rank t' l ≤ rank t r + bf_rank t l)%nat.
  pose proof (rank_mono t t' r Hsub). lia.
Qed.

Lemma bf_rank_strict t t' l r :
  t ⊆ t' → r ∈ l → r ∉ t → r ∈ t' → (bf_rank t' l < bf_rank t l)%nat.
Proof.
  intros Hsub Hin Hnt Ht. apply list_elem_of_split in Hin as (l1 & l2 & ->).
  rewrite !bf_rank_app.
  change (bf_rank ?u (r :: l2)) with (rank u r + bf_rank u l2)%nat.
  pose proof (bf_rank_mono t t' l1 Hsub). pose proof (bf_rank_mono t t' l2 Hsub).
  assert (rank t' r = 1%nat) by (unfold rank; by rewrite bool_decide_eq_true_2).
  assert (rank t r = 2%nat) by (unfold rank; by rewrite bool_decide_eq_false_2).
  lia.
Qed.

Lemma bf_rank_removes_first s card t l l' :
  removes_first s card l l' → (bf_rank t l' < bf_rank t l)%nat.
Proof.
  intros (l1 & x & l2 & -> & -> & _). rewrite !bf_rank_app.
  change (bf_rank t (x :: l2)) with (rank t x + bf_rank t l2)%nat.
  pose proof (rank_bounds t x). lia.
Qed.

Lemma bf_rank_snoc t l r : (bf_rank t (l ++ [r]) ≤ bf_rank t l + 2)%nat.
Proof.
  rewrite bf_rank_app. change (bf_rank t [r]) with (rank t r + 0)%nat.
  pose proof (rank_bounds t r). lia.
Qed.

(** ** Fetch resolution *)

Lemma force_tapped_entry_zones s target :
  library (force_tapped_entry s target) = library s
  ∧ hand (force_tapped_entry s target) = hand s
  ∧ battlefield (force_tapped_entry s target) = battlefield s
  ∧ graveyard (force_tapped_entry s target) = graveyard s.
Proof. unfold force_tapped_entry. by destruct (has_tag _ _). Qed.

Section fetch_facts.
Context {Rng : Type}.
Variable random_shuffle : Rng → list ref → list ref * Rng.

(** The three outcomes of [_resolve_fetch_lands]. *)
Lemma resolve_fetch_cases (e : Engine Rng) (t : gset ref) :
  let s := state e in
  (ready_fetcher s t = None ∧ _resolve_fetch_lands random_shuffle e t = Ok (false, e))
  ∨ (∃ fetcher bf',
       ready_fetcher s t = Some fetcher
       ∧ fetcher ∈ battlefield s
       ∧ has_tag "FETCH_LAND" (deref s fetcher) = true
       ∧ removes_first s fetcher (battlefield s) bf'
       ∧ ((fetch_target s = None
           ∧ _resolve_fetch_lands random_shuffle e t
             = Ok (true, mkEngine (after_sacrifice s fetcher bf') (rng e)))
          ∨ (∃ target lib',
               fetch_target s = Some target
               ∧ removes_first s target (library s) lib'
               ∧ _resolve_fetch_lands random_shuffle e t
                 = Ok (true,
                       mkEngine
                         (set_library (after_fetch s fetcher bf' target lib')
                                      (random_shuffle (rng e) lib').1)
                         (random_shuffle (rng e) lib').2)))).
Proof.
  intros s. unfold _resolve_fetch_lands. fold s. fold (ready_fetcher s t).
  destruct (ready_fetcher s t) as [fetcher|] eqn:Hf; [right | by left].
  assert (fetcher ∈ battlefield s ∧ has_tag "FETCH_LAND" (deref s fetcher) = true)
    as [Hin Htag].
  { apply head_elem_of in Hf. apply list_elem_of_filter in Hf as [_ Hf].
    apply elem_of_filter_bool in Hf as [? ?]. done. }
  destruct (py_remove_in s fetcher (battlefield s) (py_in_elem _ _ _ Hin)) as [bf' Hrm].
  exists fetcher, bf'. do 3 (split; [done|]). split; [by apply py_remove_Some|].
  unfold remove_or_raise. rewrite Hrm. simpl.
  fold (after_sacrifice s fetcher bf').
  change (fetch_target (after_sacrifice s fetcher bf')) with (fetch_target s).
  destruct (fetch_target s) as [target|] eqn:Ht; [right | by left].
  assert (target ∈ library s) as Hlib.
  { apply head_elem_of in Ht. by apply list_elem_of_filter in Ht as [_ ?]. }
  destruct (py_remove_in s target (library s) (py_in_elem _ _ _ Hlib)) as [lib' Hrl].
  exists target, lib'. split; [done|]. split; [by apply py_remove_Some|].
  rewrite (py_remove_ext _ s) by done. simpl. rewrite Hrl. simpl.
  fold (after_fetch s fetcher bf' target lib').
  destruct (force_tapped_entry_zones
              (set_cards_played
                 (set_battlefield (set_library (after_sacrifice s fetcher bf') lib')
                                  (bf' ++ [target]))
                 (cards_played_this_turn s ++ [target])) target) as (Hl & _).
  fold (after_fetch s fetcher bf' target lib') in Hl. rewrite Hl. simpl.
  by destruct (random_shuffle (rng e) lib').
Qed.

End fetch_facts.

(** ** One pass of the main-phase loop *)

Lemma sweep_zones s t b s' t' b' :
  sweep s t b s' t' b' →
  objects s' = objects s ∧ library s' = library s ∧ hand s' = hand s
  ∧ battlefield s' = battlefield s ∧ graveyard s' = graveyard s.
Proof. intros [-> _ _ _]. done. Qed.

Lemma after_cast_zones s card cost hand' :
  objects (after_cast s card cost hand') = objects s
  ∧ library (after_cast s card cost hand') = library s
  ∧ hand (after_cast s card cost hand') = hand'
  ∧ ∀ t, (bf_rank t (battlefield (after_cast s card cost hand'))
          ≤ bf_rank t (battlefield s) + 2)%nat.
Proof.
  unfold after_cast. destruct (instant_or_sorcery _); simpl.
  - repeat split. intros t. lia.
  - repeat split. intros t. apply bf_rank_snoc.
Qed.

Lemma after_fetch_zones s fetcher bf' target lib' :
  library (after_fetch s fetcher bf' target lib') = lib'
  ∧ hand (after_fetch s fetcher bf' target lib') = hand s
  ∧ battlefield (after_fetch s fetcher bf' target lib') = bf' ++ [target]
  ∧ graveyard (after_fetch s fetcher bf' target lib') = graveyard s ++ [fetcher].
Proof.
  unfold after_fetch. cbv zeta.
  match goal with
  | |- context [force_tapped_entry ?x target] =>
      destruct (force_tapped_entry_zones x target) as (-> & -> & -> & ->)
  end.
  done.
Qed.

Lemma after_fetch_key s fetcher bf' target lib' r :
  card_key (deref (after_fetch s fetcher bf' target lib') r) = card_key (deref s r).
Proof. unfold after_fetch. by rewrite force_tapped_entry_key. Qed.

Section loop_facts.
Context {Rng : Type}.
Variable random_shuffle : Rng → list ref → list ref * Rng.
Hypothesis random_shuffle_perm : ∀ g l, (random_shuffle g l).1 ≡ₚ l.

Lemma resolve_fetch_effect (e : Engine Rng) (t : gset ref) :
  ∃ fetched e',
    _resolve_fetch_lands random_shuffle e t = Ok (fetched, e')
    ∧ zone_cards (state e') ≡ₚ zone_cards (state e)
    ∧ (fetched = false → e' = e)
    ∧ (fetched = true →
       (pass_budget (state e') t < pass_budget (state e) t)%nat
       ∧ consumed_a_fetcher (state e) (state e')).
Proof.
  destruct (resolve_fetch_cases random_shuffle e t)
    as [[_ ->]|(fetcher & bf' & _ & Hin & Htag & Hbf & [[_ ->]|(target & lib' & _ & Hlib & ->)])].
  - exists false, e. by repeat split.
  - eexists true, _. split; [done|]. simpl. split; [|split; [done|intros _; split]].
    + unfold zone_cards. simpl. rewrite ?(cards_in_objects (state e) _) by done.
      rewrite (cards_in_removes_first _ _ _ _ Hbf), cards_in_app. simpl.
      solve_Permutation.
    + rewrite !pass_budget_eq. simpl.
      pose proof (bf_rank_removes_first _ _ t _ _ Hbf). lia.
    + exists fetcher. done.
  - eexists true, _. split; [done|]. simpl.
    destruct (after_fetch_zones (state e) fetcher bf' target lib') as (Hl & Hh & Hb & Hg).
    pose proof (random_shuffle_perm (rng e) lib') as Hperm.
    split; [|split; [done|intros _; split]].
    + unfold zone_cards. simpl. rewrite Hh, Hb, Hg.
      rewrite !(cards_in_keys (state e) (set_library _ _))
        by (intros r; apply after_fetch_key).
      rewrite (cards_in_perm _ _ _ Hperm).
      rewrite (cards_in_removes_first _ _ _ _ Hbf).
      rewrite (cards_in_removes_first _ _ _ _ Hlib).
      rewrite !cards_in_app. simpl. solve_Permutation.
    + rewrite !pass_budget_eq. simpl. rewrite Hh, Hb.
      rewrite (Permutation_length Hperm).
      pose proof (removes_first_length _ _ _ _ Hlib).
      pose proof (bf_rank_removes_first _ _ t _ _ Hbf).
      pose proof (bf_rank_snoc t bf' target). lia.
    + exists fetcher. simpl. rewrite Hg. done.
Qed.

(** A pass never raises and keeps the cards of the game; a pass that goes
    round again has tapped a source that was untapped, cast a card from hand
    or consumed a fetch-land, and has lowered the measure. *)
Lemma loop_pass_effect (e : Engine Rng) (t : gset ref) :
  ∃ again e' t',
    loop_pass random_shuffle e t = Ok (again, e', t')
    ∧ zone_cards (state e') ≡ₚ zone_cards (state e)
    ∧ (again = true →
       (pass_budget (state e') t' < pass_budget (state e) t)%nat
       ∧ (tapped_a_source (state e) t t'
          ∨ cast_a_card (state e) (state e')
          ∨ consumed_a_fetcher (state e) (state e'))).
Proof.
  unfold loop_pass.
  destruct (mana_sweep (state e) t) as (s1 & t1 & b1 & -> & Hsw).
  destruct (sweep_zones _ _ _ _ _ _ Hsw) as (Ho & Hl & Hh & Hb & Hg).
  assert (zone_cards s1 ≡ₚ zone_cards (state e)) as Hcards.
  { unfold zone_cards. rewrite Hl, Hh, Hb, Hg.
    by rewrite !(cards_in_objects (state e) s1). }
  destruct (cast_step_cases s1) as [[_ ->]|(spell & l1 & l2 & _ & Hhand & Hrm & ->)].
  - simpl. rewrite andb_true_r.
    destruct b1; simpl.
    + eexists true, _, t1. split; [done|]. simpl. split; [done|]. intros _.
      destruct (sweep_raised _ _ _ _ _ _ Hsw eq_refl) as [?|(r & Hin & Hnt & Ht)]; [done|].
      split; [|left; by exists r].
      rewrite !pass_budget_eq, Hl, Hh, Hb.
      pose proof (bf_rank_strict t t1 _ r (sweep_mono _ _ _ _ _ _ Hsw) Hin Hnt Ht). lia.
    + destruct (sweep_quiet _ _ _ _ _ _ Hsw eq_refl) as (_ & -> & ->).
      replace (mkEngine (state e) (rng e)) with e by by destruct e.
      destruct (resolve_fetch_effect e t) as (fetched & e' & -> & Hc & _ & Hf).
      simpl. eexists fetched, e', t. split; [done|]. split; [done|].
      intros ->. destruct (Hf eq_refl). auto.
  - simpl.
    replace (negb b1 && false) with false by by destruct b1.
    eexists true, _, t1. split; [done|]. simpl.
    destruct (after_cast_zones s1 spell (mana_cost (deref s1 spell)) (l1 ++ l2))
      as (_ & Hl' & Hh' & Hbf').
    split; [by rewrite after_cast_cards|]. intros _. split.
    + rewrite !pass_budget_eq. rewrite Hl', Hh', Hl. specialize (Hbf' t1).
      rewrite Hb in Hbf'. rewrite <- Hh, Hhand.
      pose proof (bf_rank_mono t t1 (battlefield (state e)) (sweep_mono _ _ _ _ _ _ Hsw)).
      rewrite !length_app. simpl. lia.
    + right. left. exists l1, spell, l2. rewrite <- Hh. done.
Qed.

End loop_facts.

(** ** Termination of the main-phase loop *)

Section termination.
Context {Rng : Type}.
Variable random_seed : Rng → Rng.
Variable random_shuffle : Rng → list ref → list ref * Rng.
Hypothesis random_shuffle_perm : ∀ g l, (random_shuffle g l).1 ≡ₚ l.

Lemma main_loop_S fuel (e : Engine Rng) t :
  main_loop random_shuffle (S fuel) e t =
    '(again, e', tapped') ← loop_pass random_shuffle e t;
    if again : bool then
      r ← main_loop random_shuffle fuel e' tapped';
      match r with
      | Some (n, e'', t'') => Ok (Some (S n, e'', t''))
      | None => Ok None
      end
    else Ok (Some (1%nat, e', tapped')).
Proof. reflexivity. Qed.

(** More passes allowed do not change an answer. *)
Lemma main_loop_mono fuel : ∀ (e : Engine Rng) t r fuel',
  main_loop random_shuffle fuel e t = Ok (Some r) → (fuel ≤ fuel')%nat →
  main_loop random_shuffle fuel' e t = Ok (Some r).
Proof.
  induction fuel as [|fuel IH]; intros e t r fuel' H Hle; [done|].
  destruct fuel' as [|fuel']; [lia|].
  rewrite main_loop_S in *.
  destruct (loop_pass random_shuffle e t) as [[[again e1] t1]|]; simpl in *; [|done].
  destruct again; [|done].
  destruct (main_loop random_shuffle fuel e1 t1) as [[r1|]|] eqn:E; simpl in H; try done.
  rewrite (IH e1 t1 r1 fuel' E) by lia. done.
Qed.

(** With more passes allowed than the measure, the loop breaks. *)
Lemma main_loop_breaks fuel : ∀ (e : Engine Rng) t,
  (pass_budget (state e) t < fuel)%nat →
  ∃ n e' t',
    main_loop random_shuffle fuel e t = Ok (Some (n, e', t'))
    ∧ (n ≤ S (pass_budget (state e) t))%nat
    ∧ zone_cards (state e') ≡ₚ zone_cards (state e).
Proof.
  induction fuel as [|fuel IH]; intros e t Hlt; [lia|].
  rewrite main_loop_S.
  destruct (loop_pass_effect random_shuffle random_shuffle_perm e t)
    as (again & e1 & t1 & -> & Hc & Hp).
  simpl. destruct again.
  - destruct (Hp eq_refl) as [Hdec _].
    destruct (IH e1 t1) as (n & e' & t' & -> & Hn & Hc'); [lia|].
    simpl. exists (S n), e', t'. split; [done|]. split; [lia|]. by rewrite Hc'.
  - exists 1%nat, e1, t1. split; [done|]. split; [lia | done].
Qed.

Lemma pass_budget_le s t :
  (pass_budget s t
   ≤ 3 * length (hand s) + 2 * length (library s) + 2 * length (battlefield s))%nat.
Proof. rewrite pass_budget_eq. pose proof (bf_rank_le t (battlefield s)). lia. Qed.

Lemma land_drop_ok s : ∃ s', land_drop s = Ok s' ∧ zone_cards s' ≡ₚ zone_cards s.
Proof.
  unfold land_drop.
  destruct (filter _ (hand s)) as [|land ?]; [by exists s|].
  destruct (land_played_this_turn s); [by exists s|].
  destruct (play_land_cases s land) as [(_ & _ & _ & h & Hrm & Hp)|[_ Hp]];
    rewrite Hp; simpl; eexists; (split; [done|]); [|done].
  eapply play_land_cards. exact Hp.
Qed.

Lemma bind_Ok {A B} (a : A) (k : A → result B) : (Ok a ≫= k) = k a.
Proof. reflexivity. Qed.

Lemma main_phase_ok (e : Engine Rng) :
  ∃ e', _main_phase_heuristic random_shuffle e = Ok (Some e')
        ∧ zone_cards (state e') ≡ₚ zone_cards (state e).
Proof.
  unfold _main_phase_heuristic.
  destruct (land_drop_ok (state e)) as (s & -> & Hs). rewrite bind_Ok.
  destruct (main_loop_breaks (S (pass_budget s ∅)) (mkEngine s (rng e)) ∅)
    as (n & e' & t' & -> & _ & Hc); [simpl; lia|].
  rewrite bind_Ok. exists e'. split; [done|]. by rewrite Hc.
Qed.

Lemma step_ok (e : Engine Rng) :
  ∃ e', step random_shuffle e = Ok (Some e')
        ∧ zone_cards (state e') ≡ₚ zone_cards (state e).
Proof.
  unfold step. cbv zeta.
  destruct (main_phase_ok (mkEngine (draw_card (state e)).2 (rng e)))
    as (e1 & -> & Hc).
  rewrite bind_Ok. eexists. split; [done|]. cbn [state] in *.
  transitivity (zone_cards (state e1)); [|rewrite Hc; apply draw_card_cards].
  reflexivity.
Qed.

Lemma run_turns_ok n : ∀ e : Engine Rng,
  ∃ e', run_turns random_shuffle n e = Ok (Some e')
        ∧ zone_cards (state e') ≡ₚ zone_cards (state e).
Proof.
  induction n as [|n IH]; intros e; simpl.
  - by exists e.
  - destruct (step_ok e) as (e1 & -> & Hc1). simpl.
    destruct (IH e1) as (e2 & -> & Hc2). exists e2. split; [done|].
    by rewrite Hc2.
Qed.



End termination.

(** ** Card objects, for decks without fetch tags

    [list.remove] and [in] compare cards by value.  The engine nevertheless
    removes the very object it moves, as long as no card is tagged
    FETCH_LAND: the land drop and the cast step pick the first card of the
    hand with their property, and the fetch resolution finds no fetcher. *)

Lemma filter_head_split {A} (P : A → bool) (l m : list A) (x : A) :
  filter (λ y, P y) l = x :: m →
  ∃ l1 l2, l = l1 ++ x :: l2 ∧ P x = true ∧ Forall (λ y, P y = false) l1.
Proof.
  induction l as [|a l IH]; intros H; [done|].
  rewrite filter_cons in H. destruct (decide (P a)) as [Ha|Ha].
  - injection H as -> _. exists [], l. repeat split; [|constructor].
    by apply Is_true_true.
  - destruct (IH H) as (l1 & l2 & -> & Hx & Hl1).
    exists (a :: l1), l2. repeat split; [done|]. constructor; [|done].
    by destruct (P a).
Qed.

Lemma no_fetch_tags_perm s s' :
  objects s' = objects s → zone_refs s' ≡ₚ zone_refs s →
  no_fetch_tags s → no_fetch_tags s'.
Proof.
  unfold no_fetch_tags, deref. intros -> ->. done.
Qed.

Lemma draw_card_refs s :
  objects (draw_card s).2 = objects s ∧ zone_refs (draw_card s).2 ≡ₚ zone_refs s.
Proof.
  unfold draw_card. destruct (library s) as [|c rest] eqn:E; simpl; [done|].
  split; [done|]. unfold zone_refs. simpl. rewrite E. solve_Permutation.
Qed.

Lemma land_drop_refs s :
  ∃ s', land_drop s = Ok s' ∧ objects s' = objects s ∧ zone_refs s' ≡ₚ zone_refs s.
Proof.
  unfold land_drop.
  destruct (filter _ (hand s)) as [|land m] eqn:E; [by exists s|].
  destruct (land_played_this_turn s) eqn:Hp; [by exists s|].
  apply (filter_head_split (λ c, is_land (deref s c))) in E
    as (l1 & l2 & Hhand & Hland & Hl1).
  assert (py_remove s land (hand s) = Some (l1 ++ l2)) as Hrm.
  { rewrite Hhand. apply py_remove_first.
    eapply Forall_impl; [exact Hl1|]. intros y Hy Heq. simpl in Hy. congruence. }
  unfold play_land. rewrite Hp. simpl.
  rewrite (py_in_elem s land (hand s)) by (rewrite Hhand; set_solver).
  rewrite Hland. simpl. unfold remove_or_raise. rewrite Hrm. simpl.
  eexists. split; [done|]. split; [done|].
  unfold zone_refs. simpl. rewrite Hhand. solve_Permutation.
Qed.

Section object_facts.
Context {Rng : Type}.
Variable random_seed : Rng → Rng.
Variable random_shuffle : Rng → list ref → list ref * Rng.
Hypothesis random_shuffle_perm : ∀ g l, (random_shuffle g l).1 ≡ₚ l.

Lemma resolve_no_fetch (e : Engine Rng) t :
  no_fetch_tags (state e) → _resolve_fetch_lands random_shuffle e t = Ok (false, e).
Proof.
  intros Hno. unfold _resolve_fetch_lands.
  rewrite (filter_none (λ c, has_tag "FETCH_LAND" (deref (state e) c))); [done|].
  unfold no_fetch_tags, zone_refs in Hno. rewrite !Forall_app in Hno. tauto.
Qed.

Lemma loop_pass_refs (e e' : Engine Rng) t t' again :
  no_fetch_tags (state e) →
  loop_pass random_shuffle e t = Ok (again, e', t') →
  objects (state e') = objects (state e) ∧ zone_refs (state e') ≡ₚ zone_refs (state e).
Proof.
  intros Hno. unfold loop_pass.
  destruct (mana_sweep (state e) t) as (s1 & t1 & b1 & -> & Hsw).
  destruct (sweep_zones _ _ _ _ _ _ Hsw) as (Ho & Hl & Hh & Hb & Hg).
  destruct (cast_step_cases s1) as [[_ ->]|(spell & l1 & l2 & _ & Hhand & _ & ->)]; simpl.
  - rewrite andb_true_r. destruct b1; simpl.
    + intros [= <- <- <-]. simpl. unfold zone_refs. by rewrite Ho, Hl, Hh, Hb, Hg.
    + destruct (sweep_quiet _ _ _ _ _ _ Hsw eq_refl) as (_ & -> & ->).
      replace (mkEngine (state e) (rng e)) with e by by destruct e.
      rewrite (resolve_no_fetch e t Hno). simpl. by intros [= <- <- <-].
  - replace (negb b1 && false) with false by by destruct b1.
    intros [= <- <- <-]. simpl.
    unfold after_cast, zone_refs.
    destruct (instant_or_sorcery _); simpl; rewrite Ho, Hl, Hb, Hg, <- Hh, Hhand;
      (split; [done | solve_Permutation]).
Qed.

Lemma main_loop_refs fuel : ∀ (e e' : Engine Rng) t t' n,
  no_fetch_tags (state e) →
  main_loop random_shuffle fuel e t = Ok (Some (n, e', t')) →
  objects (state e') = objects (state e) ∧ zone_refs (state e') ≡ₚ zone_refs (state e).
Proof.
  induction fuel as [|fuel IH]; intros e e' t t' n Hno H; [done|].
  rewrite main_loop_S in H.
  destruct (loop_pass random_shuffle e t) as [[[again e1] t1]|] eqn:Hpass; [|done].
  destruct (loop_pass_refs e e1 t t1 again Hno Hpass) as [Ho1 Hr1].
  rewrite bind_Ok in H. destruct again.
  - destruct (main_loop random_shuffle fuel e1 t1) as [[[[n2 e2] t2]|]|] eqn:Hrest;
      simpl in H; try done.
    injection H as <- <- <-.
    destruct (IH e1 e2 t1 t2 n2) as [Ho2 Hr2]; [|done|].
    { by apply (no_fetch_tags_perm (state e)). }
    split; [congruence | by rewrite Hr2].
  - by injection H as <- <- <-.
Qed.

Lemma step_refs (e e' : Engine Rng) :
  no_fetch_tags (state e) →
  step random_shuffle e = Ok (Some e') →
  objects (state e') = objects (state e) ∧ zone_refs (state e') ≡ₚ zone_refs (state e).
Proof.
  intros Hno. unfold step, _main_phase_heuristic. cbv zeta. cbn [state rng].
  destruct (draw_card_refs (state e)) as [Hod Hrd].
  destruct (land_drop_refs (draw_card (state e)).2) as (s1 & -> & Ho1 & Hr1).
  rewrite bind_Ok.
  destruct (main_loop random_shuffle (S (pass_budget s1 ∅)) (mkEngine s1 (rng e)) ∅)
    as [[[[n2 e2] t2]|]|] eqn:Hloop; rewrite ?bind_Ok; try done.
  assert (no_fetch_tags (state (mkEngine s1 (rng e)))) as Hno1.
  { apply (no_fetch_tags_perm (state e)); simpl;
      [congruence | by rewrite Hr1, Hrd | done]. }
  destruct (main_loop_refs _ _ _ _ _ _ Hno1 Hloop) as [Ho2 Hr2].
  simpl in Ho2, Hr2. intros [= <-]. simpl. split; [congruence|].
  change (zone_refs (set_turn_counter _ _)) with (zone_refs (state e2)).
  by rewrite Hr2, Hr1, Hrd.
Qed.


Lemma draw_opening_refs n : ∀ s,
  objects (draw_opening n s) = objects s ∧ zone_refs (draw_opening n s) ≡ₚ zone_refs s.
Proof.
  induction n as [|n IH]; intros s; simpl; [done|].
  destruct (IH (draw_card s).2) as [Ho Hr]. rewrite Ho, Hr.
  apply draw_card_refs.
Qed.

Lemma start_game_refs objs (g : Rng) deck commander :
  let s0 := init_state objs in
  let e1 := start_game random_seed random_shuffle (mkEngine s0 g) deck commander in
  objects (state e1) = objs
  ∧ zone_refs (state e1) ≡ₚ deck_library s0 deck (choose_commander s0 deck commander).
Proof.
  intros s0. unfold start_game. cbv zeta. cbn [state rng].
  set (lib := deck_library s0 deck (choose_commander s0 deck commander)).
  change (library (set_library (set_commander s0 (choose_commander s0 deck commander)) lib))
    with lib.
  pose proof (random_shuffle_perm (random_seed g) lib) as H1.
  destruct (random_shuffle (random_seed g) lib) as [l1 g1]. cbn [fst] in H1.
  pose proof (random_shuffle_perm g1 l1) as H2.
  destruct (random_shuffle g1 l1) as [l2 g2]. cbn [fst state] in *.
  match goal with
  | |- objects (set_turn_counter ?s _) = _ ∧ _ =>
      change (objects s = objs ∧ zone_refs s ≡ₚ lib)
  end.
  match goal with
  | |- objects (draw_opening 7 ?s) = _ ∧ _ =>
      destruct (draw_opening_refs 7 s) as [-> ->]
  end.
  split; [done|]. unfold zone_refs. simpl. rewrite !app_nil_r. by rewrite H2, H1.
Qed.

End object_facts.

(** ** The example shuffle *)

Lemma reversing_shuffle_perm (g : nat) (l : list ref) : (reversing_shuffle g l).1 ≡ₚ l.
Proof. apply reverse_Permutation. Qed.

(** ** Termination and the number of passes *)

(** C7, as amended.  From every state and tapped set the main-phase loop
    breaks: there is one answer, reached after [n] passes, for every number
    of allowed passes above the measure.  The number of passes is at most
    1 + 3 * hand size + 2 * library size + 2 * battlefield size.  Every pass
    that does not break has tapped a battlefield object that was untapped,
    cast a card from hand, or sacrificed a fetch-land. *)
Theorem main_loop_terminates {Rng : Type}
    (random_shuffle : Rng → list ref → list ref * Rng)
    (e : Engine Rng) (t : gset ref) :
  (∀ g l, (random_shuffle g l).1 ≡ₚ l) →
  (∃ n e' t',
     (∀ fuel, (pass_budget (state e) t < fuel)%nat →
              main_loop random_shuffle fuel e t = Ok (Some (n, e', t')))
     ∧ (n ≤ 1 + 3 * length (hand (state e)) + 2 * length (library (state e))
            + 2 * length (battlefield (state e)))%nat)
  ∧ (∀ again e' t',
       loop_pass random_shuffle e t = Ok (again, e', t') → again = true →
       tapped_a_source (state e) t t'
       ∨ cast_a_card (state e) (state e')
       ∨ consumed_a_fetcher (state e) (state e')).
Proof.
  intros Hperm. split.
  - destruct (main_loop_breaks random_shuffle Hperm (S (pass_budget (state e) t)) e t)
      as (n & e' & t' & Hrun & Hn & _); [lia|].
    exists n, e', t'. split.
    + intros fuel Hfuel. eapply main_loop_mono; [exact Hrun | lia].
    + pose proof (pass_budget_le (state e) t). lia.
  - intros again e' t' Hpass ->.
    destruct (loop_pass_effect random_shuffle Hperm e t)
      as (again & e1 & t1 & Hpass' & _ & Hp).
    rewrite Hpass in Hpass'. injection Hpass' as <- <- <-.
    by destruct (Hp eq_refl).
Qed.

Lemma main_loop_terminates_witness :
  (∃ n e' t',
     (∀ fuel, (pass_budget (state crypt_in_hand) ∅ < fuel)%nat →
              main_loop reversing_shuffle fuel crypt_in_hand ∅ = Ok (Some (n, e', t')))
     ∧ (n ≤ 1 + 3 * length (hand (state crypt_in_hand))
            + 2 * length (library (state crypt_in_hand))
            + 2 * length (battlefield (state crypt_in_hand)))%nat)
  ∧ (∀ again e' t',
       loop_pass reversing_shuffle crypt_in_hand ∅ = Ok (again, e', t') → again = true →
       tapped_a_source (state crypt_in_hand) ∅ t'
       ∨ cast_a_card (state crypt_in_hand) (state e')
       ∨ consumed_a_fetcher (state crypt_in_hand) (state e')).
Proof.
  apply (main_loop_terminates reversing_shuffle crypt_in_hand ∅).
  intros g l. apply reversing_shuffle_perm.
Defined.

(** With Mana Crypt in hand and nothing else, the loop makes three passes
    (cast the Crypt; tap it; find nothing to do), while battlefield size +
    hand size + fetch-lands on the battlefield is 1. *)
Lemma mana_crypt_takes_three_passes :
  let s := state crypt_in_hand in
  (∃ e' t',
     main_loop reversing_shuffle (S (pass_budget s ∅)) crypt_in_hand ∅
     = Ok (Some (3%nat, e', t')))
  ∧ (length (battlefield s) + length (hand s)
     + length (filter (λ c, has_tag "FETCH_LAND" (deref s c)) (battlefield s)) = 1)%nat
  ∧ ¬ (3 - 1 ≤ length (battlefield s) + length (hand s)
               + length (filter (λ c, has_tag "FETCH_LAND" (deref s c)) (battlefield s)))%nat.
Proof.
  split; [|split].
  - eexists _, _. vm_compute. reflexivity.
  - vm_compute. reflexivity.
  - vm_compute. lia.
Qed.

(** ** The zones partition the deck *)




(** A three-turn game with the small deck, played out. *)
Example small_game_zones :
  ∃ e',
    run_turns reversing_shuffle 3
      (start_game (λ g, g) reversing_shuffle
                  (mkEngine (init_state small_deck_objects) 0%nat) small_deck None)
    = Ok (Some e')
    ∧ library (state e') = [] ∧ hand (state e') = [5%nat; 7%nat]
    ∧ battlefield (state e') = [0%nat; 2%nat; 3%nat; 1%nat; 6%nat; 4%nat; 8%nat]
    ∧ graveyard (state e') = [] ∧ turn_counter (state e') = 4.
Proof. eexists. vm_compute. repeat split. Qed.

(** ** Fetch resolution: the shuffle *)

Lemma force_tapped_entry_tagged s target :
  has_tag "TAPPED_ENTRY" (deref (force_tapped_entry s target) target) = true.
Proof.
  unfold force_tapped_entry.
  destruct (has_tag "TAPPED_ENTRY" (deref s target)) eqn:E; [done|].
  unfold has_tag, deref, set_objects. cbn [objects].
  rewrite lookup_total_insert_eq. cbn [tags set_tags].
  apply bool_decide_eq_true. apply elem_of_app. right. apply list_elem_of_here.
Qed.

(** When a fetch finds no land to fetch, the library and the generator are
    left as they were: [random.shuffle] is not called. *)
Lemma fetch_without_target_keeps_library {Rng : Type}
    (random_shuffle : Rng → list ref → list ref * Rng)
    (e : Engine Rng) (t : gset ref) (fetcher : ref) :
  ready_fetcher (state e) t = Some fetcher →
  fetch_target (state e) = None →
  ∃ e', _resolve_fetch_lands random_shuffle e t = Ok (true, e')
        ∧ library (state e') = library (state e) ∧ rng e' = rng e
        ∧ graveyard (state e') = graveyard (state e) ++ [fetcher].
Proof.
  intros Hf Ht.
  destruct (resolve_fetch_cases random_shuffle e t)
    as [[Hn _]|(f & bf' & Hf' & _ & _ & _ & [[_ ->]|(target & ? & Ht' & _)])];
    simpl in *; [congruence| |congruence].
  rewrite Hf in Hf'. injection Hf' as <-. eexists. split; [done|]. done.
Qed.

(** When it finds one, the library without the fetched land is shuffled. *)
Lemma fetch_with_target_shuffles {Rng : Type}
    (random_shuffle : Rng → list ref → list ref * Rng)
    (e : Engine Rng) (t : gset ref) (fetcher target : ref) :
  ready_fetcher (state e) t = Some fetcher →
  fetch_target (state e) = Some target →
  ∃ e' lib',
    _resolve_fetch_lands random_shuffle e t = Ok (true, e')
    ∧ removes_first (state e) target (library (state e)) lib'
    ∧ library (state e') = (random_shuffle (rng e) lib').1
    ∧ rng e' = (random_shuffle (rng e) lib').2
    ∧ graveyard (state e') = graveyard (state e) ++ [fetcher]
    ∧ has_tag "TAPPED_ENTRY" (deref (state e') target) = true.
Proof.
  intros Hf Ht.
  destruct (resolve_fetch_cases random_shuffle e t)
    as [[Hn _]|(f & bf' & Hf' & _ & _ & _ & [[Hn _]|(tg & lib' & Ht' & Hrm & ->)])];
    simpl in *; [congruence..|].
  rewrite Hf in Hf'. injection Hf' as <-. rewrite Ht in Ht'. injection Ht' as <-.
  eexists _, lib'. split; [done|]. split; [done|]. simpl.
  destruct (after_fetch_zones (state e) fetcher bf' target lib') as (_ & _ & _ & Hg).
  repeat split; [done|].
  change (deref (set_library ?s _) target) with (deref s target).
  unfold after_fetch. apply force_tapped_entry_tagged.
Qed.

(** C2, at a library without basic lands.  The Wilds is sacrificed and the
    call returns [True], but the library keeps its order and the shuffling
    generator is not used, where a shuffle (here: a reversal that counts its
    calls) would have given another order and another generator state. *)
Theorem fetch_without_target_skips_shuffle :
  ready_fetcher (state wilds_without_basics) ∅ = Some 0%nat
  ∧ fetch_target (state wilds_without_basics) = None
  ∧ _resolve_fetch_lands reversing_shuffle wilds_without_basics ∅
    = Ok (true,
          mkEngine (mkState (objects (state wilds_without_basics))
                            [1%nat; 2%nat; 3%nat] [] [] [0%nat] ∅ 1 None [] None) 0%nat)
  ∧ reversing_shuffle 0%nat [1%nat; 2%nat; 3%nat] = ([3%nat; 2%nat; 1%nat], 1%nat).
Proof. repeat split; vm_compute; reflexivity. Qed.

(** The sibling branch: with a Forest in the library, the Forest enters the
    battlefield force-tagged, and the rest of the library is shuffled. *)
Example fetch_with_target_example :
  ∃ e', _resolve_fetch_lands reversing_shuffle wilds_with_basics ∅ = Ok (true, e')
        ∧ library (state e') = [3%nat; 1%nat] ∧ rng e' = 1%nat
        ∧ battlefield (state e') = [2%nat] ∧ graveyard (state e') = [0%nat]
        ∧ cards_played_this_turn (state e') = [2%nat]
        ∧ tags (deref (state e') 2%nat) = ["MANA_ROCK"; "RAMP"; "LAND"; "TAPPED_ENTRY"].
Proof. eexists. vm_compute. repeat split. Qed.

(** ** Pool entries, and casts of cards that are not in hand *)

(** Casting the Bears for one green and one generic out of three colourless
    mana succeeds and leaves the green entry of the pool at -1. *)
Lemma cast_leaves_negative_entry :
  map_Forall (λ _ v, 0 ≤ v) (mana_pool bears_in_hand)
  ∧ ∃ s', run_ops [CastSpell 0%nat bears_cost] bears_in_hand = [s']
          ∧ mana_pool s' !! "G" = Some (-1)
          ∧ mana_pool s' !! "colorless" = Some 2.
Proof.
  split.
  - apply map_Forall_singleton. lia.
  - eexists. vm_compute. repeat split.
Qed.

Lemma mana_total_never_negative_witness :
  Forall (λ s', 0 ≤ get_total_mana s')
         (run_ops [CastSpell 0%nat bears_cost; AddMana {[ "colorless" := 1 ]};
                   DrawCard; ClearManaPool] bears_in_hand).
Proof.
  apply mana_total_never_negative.
  - apply map_Forall_singleton. lia.
  - repeat constructor. apply map_Forall_singleton. lia.
Defined.

(** The Bears are not in hand and cannot be paid for: the call returns
    [False] and raises nothing. *)
Lemma unaffordable_cast_not_always_fatal :
  can_afford empty_handed bears_cost = false
  ∧ cast_spell empty_handed 0%nat bears_cost = Ok (false, empty_handed).
Proof. split; vm_compute; reflexivity. Qed.

(** A cast adventure card goes to the graveyard, although its type line
    names a permanent type. *)
Example adventure_card_goes_to_graveyard :
  let s := mkState {[ 0%nat := bonecrusher_giant ]} [] [0%nat] [] []
                   {[ "colorless" := 3 ]} 1 None [] None in
  Str.contains "Creature" (type_line bonecrusher_giant) = true
  ∧ ∃ s', cast_spell s 0%nat (mana_cost bonecrusher_giant) = Ok (true, s')
          ∧ graveyard s' = [0%nat] ∧ battlefield s' = [].
Proof. split; [vm_compute; reflexivity|]. eexists. vm_compute. repeat split. Qed.

(** ** The scenarios of the unit tests *)

(** [test_play_land_already_played]: the second land of a turn is refused. *)
Example second_land_refused :
  let s := mkState {[ 0%nat := forest; 1%nat := island ]} [] [0%nat; 1%nat] [] []
                   ∅ 1 None [] None in
  ∃ s', play_land s 0%nat = Ok (true, s')
        ∧ hand s' = [1%nat] ∧ battlefield s' = [0%nat]
        ∧ play_land s' 1%nat = Ok (false, s').
Proof. eexists. vm_compute. repeat split. Qed.

(** [test_cast_spell]: two mana in the pool, a cost of one. *)
Example cast_for_one :
  let s := mkState {[ 0%nat := grizzly_bears ]} [] [0%nat] [] []
                   {[ "colorless" := 2 ]} 1 None [] None in
  ∃ s', cast_spell s 0%nat {[ "colorless" := 1 ]} = Ok (true, s')
        ∧ hand s' = [] ∧ battlefield s' = [0%nat]
        ∧ mana_pool s' !! "colorless" = Some 1.
Proof. eexists. vm_compute. repeat split. Qed.

(** The call of [test_cast_spell_insufficient_mana], a cost of five against
    a pool of two, raises. *)
Example cast_for_five_raises :
  let s := mkState {[ 0%nat := grizzly_bears ]} [] [0%nat] [] []
                   {[ "colorless" := 2 ]} 1 None [] None in
  cast_spell s 0%nat {[ "colorless" := 5 ]} = Raised "ValueError: Cannot afford spell".
Proof. vm_compute. reflexivity. Qed.

(** A mana rock cast in one pass is tapped in the next and pays for a second
    cast of the same turn: Forest on the battlefield, two Sol Rings in hand.
    The loop makes four passes. *)
Example rock_pays_same_turn :
  let e := mkEngine (mkState {[ 0%nat := forest; 1%nat := sol_ring; 2%nat := sol_ring ]}
                             [] [1%nat; 2%nat] [0%nat] [] ∅ 1 None [] None) 0%nat in
  ∃ e' t', main_loop reversing_shuffle 10 e ∅ = Ok (Some (4%nat, e', t'))
           ∧ hand (state e') = [] ∧ battlefield (state e') = [0%nat; 1%nat; 2%nat]
           ∧ get_total_mana (state e') = 1.
Proof. eexists _, _. vm_compute. repeat split. Qed.

(** * Further properties of the engine *)

Lemma gain_lookup (pool mana : gmap string Z) (color : string) :
  gain pool mana !! color
  = match mana !! color with
    | Some amount => Some (dict_get0 pool color + amount)
    | None => pool !! color
    end.
Proof.
  unfold gain. revert color.
  apply (map_fold_weak_ind
           (λ r m, ∀ color, r !! color = match m !! color with
                                         | Some amount => Some (dict_get0 pool color + amount)
                                         | None => pool !! color
                                         end)).
  - intros color. by rewrite lookup_empty.
  - intros i x m r Hi IH color.
    destruct (decide (color = i)) as [->|Hne].
    + rewrite !lookup_insert_eq. unfold dict_get0. rewrite IH, Hi. done.
    + rewrite !lookup_insert_ne by done. apply IH.
Qed.

Theorem add_mana_spec (s : GameState) (mana : gmap string Z) :
  let s' := add_mana s mana in
  get_total_mana s' = get_total_mana s + dict_sum mana
  ∧ (∀ color,
       mana_pool s' !! color
       = match mana !! color with
         | Some amount => Some (dict_get0 (mana_pool s) color + amount)
         | None => mana_pool s !! color
         end)
  ∧ s' = set_mana_pool s (mana_pool s').
Proof.
  intros s'. split; [|split].
  - apply gain_sum.
  - intros color. apply gain_lookup.
  - done.
Qed.

Lemma same_turn_refl s : same_turn s s.
Proof. repeat split. exists []. by rewrite app_nil_r. Qed.

Lemma same_turn_trans s1 s2 s3 : same_turn s1 s2 → same_turn s2 s3 → same_turn s1 s3.
Proof.
  intros (H1 & H2 & H3 & l & H4) (H1' & H2' & H3' & l' & H4').
  repeat split; try congruence. exists (l ++ l'). rewrite H4', H4. by rewrite app_assoc.
Qed.

Lemma sweep_same_turn s t b s' t' b' : sweep s t b s' t' b' → same_turn s s'.
Proof.
  intros [Hs _ _ _]. rewrite Hs. repeat split. exists []. by rewrite app_nil_r.
Qed.

Lemma after_cast_same_turn s card cost hand' : same_turn s (after_cast s card cost hand').
Proof.
  unfold after_cast. destruct (instant_or_sorcery _); repeat split; simpl.
  - exists []. by rewrite app_nil_r.
  - by exists [card].
Qed.

Lemma force_tapped_entry_same_turn s target : same_turn s (force_tapped_entry s target).
Proof.
  unfold force_tapped_entry. destruct (has_tag _ _); [apply same_turn_refl|].
  repeat split. exists []. by rewrite app_nil_r.
Qed.

Lemma after_fetch_same_turn s fetcher bf' target lib' :
  same_turn s (after_fetch s fetcher bf' target lib').
Proof.
  unfold after_fetch. cbv zeta.
  eapply same_turn_trans; [|apply force_tapped_entry_same_turn].
  repeat split. by exists [target].
Qed.

Section turn_facts.
Context {Rng : Type}.
Variable random_seed : Rng → Rng.
Variable random_shuffle : Rng → list ref → list ref * Rng.
Hypothesis random_shuffle_perm : ∀ g l, (random_shuffle g l).1 ≡ₚ l.

Lemma resolve_fetch_same_turn (e e' : Engine Rng) t b :
  _resolve_fetch_lands random_shuffle e t = Ok (b, e') → same_turn (state e) (state e').
Proof.
  destruct (resolve_fetch_cases random_shuffle e t)
    as [[_ ->]|(fetcher & bf' & _ & _ & _ & _ & [[_ ->]|(target & lib' & _ & _ & ->)])].
  - intros [= <- <-]. apply same_turn_refl.
  - intros [= <- <-]. simpl. repeat split. exists []. by rewrite app_nil_r.
  - intros [= <- <-]. simpl.
    eapply same_turn_trans; [apply after_fetch_same_turn|].
    repeat split. exists []. by rewrite app_nil_r.
Qed.

Lemma loop_pass_same_turn (e e' : Engine Rng) t t' again :
  loop_pass random_shuffle e t = Ok (again, e', t') → same_turn (state e) (state e').
Proof.
  unfold loop_pass.
  destruct (mana_sweep (state e) t) as (s1 & t1 & b1 & -> & Hsw).
  pose proof (sweep_same_turn _ _ _ _ _ _ Hsw) as H1.
  destruct (cast_step_cases s1) as [[_ ->]|(spell & l1 & l2 & _ & _ & _ & ->)]; simpl.
  - rewrite andb_true_r. destruct b1; simpl.
    + by intros [= <- <- <-].
    + destruct (_resolve_fetch_lands _ _ _) as [[f e3]|] eqn:E; simpl; [|done].
      intros [= <- <- <-]. apply resolve_fetch_same_turn in E. simpl in E.
      by eapply same_turn_trans.
  - replace (negb b1 && false) with false by by destruct b1.
    intros [= <- <- <-]. simpl.
    eapply same_turn_trans; [exact H1 | apply after_cast_same_turn].
Qed.

Lemma main_loop_same_turn fuel : ∀ (e e' : Engine Rng) t t' n,
  main_loop random_shuffle fuel e t = Ok (Some (n, e', t')) →
  same_turn (state e) (state e').
Proof.
  induction fuel as [|fuel IH]; intros e e' t t' n H; [done|].
  rewrite main_loop_S in H.
  destruct (loop_pass random_shuffle e t) as [[[again e1] t1]|] eqn:Hpass; [|done].
  apply loop_pass_same_turn in Hpass.
  rewrite bind_Ok in H. destruct again.
  - destruct (main_loop random_shuffle fuel e1 t1) as [[[[n2 e2] t2]|]|] eqn:Hrest;
      simpl in H; try done.
    injection H as <- <- <-. apply IH in Hrest. by eapply same_turn_trans.
  - by injection H as <- <- <-.
Qed.

Lemma land_drop_turn s s' :
  land_drop s = Ok s' → turn_counter s' = turn_counter s ∧ commander s' = commander s.
Proof.
  unfold land_drop. destruct (filter _ _) as [|land m]; [by intros [= <-]|].
  destruct (land_played_this_turn s); [by intros [= <-]|].
  destruct (play_land_cases s land) as [(_ & _ & _ & h & _ & ->)|[_ ->]]; simpl.
  - by intros [= <-].
  - by intros [= <-].
Qed.

Lemma step_end_of_turn (e : Engine Rng) :
  ∃ e', step random_shuffle e = Ok (Some e')
        ∧ mana_pool (state e') = ∅
        ∧ land_played_this_turn (state e') = None
        ∧ cards_played_this_turn (state e') = []
        ∧ turn_counter (state e') = turn_counter (state e) + 1
        ∧ commander (state e') = commander (state e).
Proof.
  destruct (step_ok random_shuffle random_shuffle_perm e) as (e' & Hstep & _).
  exists e'. split; [done|].
  revert Hstep. unfold step, _main_phase_heuristic. cbv zeta. cbn [state rng].
  destruct (land_drop (draw_card (state e)).2) as [s1|] eqn:Hdrop; [|done].
  rewrite bind_Ok.
  destruct (main_loop random_shuffle (S (pass_budget s1 ∅)) (mkEngine s1 (rng e)) ∅)
    as [[[[n2 e2] t2]|]|] eqn:Hloop; rewrite ?bind_Ok; try done.
  intros [= <-]. simpl.
  apply main_loop_same_turn in Hloop as (Htc & _ & Hc & _). simpl in Htc, Hc.
  apply land_drop_turn in Hdrop as [Htc1 Hc1].
  repeat split; try done.
  - rewrite Htc, Htc1. unfold draw_card. by destruct (library (state e)).
  - rewrite Hc, Hc1. unfold draw_card. by destruct (library (state e)).
Qed.

End turn_facts.

(** ** [start_game] *)

Lemma draw_opening_spec n : ∀ s,
  draw_opening n s
  = set_hand (set_library s (drop n (library s))) (hand s ++ take n (library s)).
Proof.
  induction n as [|n IH]; intros s; simpl.
  - rewrite drop_0, app_nil_r. by destruct s.
  - rewrite IH. unfold draw_card. destruct (library s) as [|c rest] eqn:E; simpl.
    + rewrite E. simpl. rewrite drop_nil, take_nil. done.
    + by rewrite <- app_assoc.
Qed.

Section start_facts.
Context {Rng : Type}.
Variable random_seed : Rng → Rng.
Variable random_shuffle : Rng → list ref → list ref * Rng.
Hypothesis random_shuffle_perm : ∀ g l, (random_shuffle g l).1 ≡ₚ l.

Lemma start_game_deal (e : Engine Rng) deck given :
  let s0 := state e in
  let c := choose_commander s0 deck given in
  let s1 := state (start_game random_seed random_shuffle e deck given) in
  ∃ shuffled,
    shuffled ≡ₚ deck_library s0 deck c
    ∧ s1 = mkState (objects s0) (drop 7 shuffled) (hand s0 ++ take 7 shuffled)
                   (battlefield s0) (graveyard s0) (mana_pool s0) 1
                   (land_played_this_turn s0) (cards_played_this_turn s0) c.
Proof.
  intros s0 c. unfold start_game. cbv zeta. fold s0. fold c.
  set (lib := deck_library s0 deck c).
  change (library (set_library (set_commander s0 c) lib)) with lib.
  pose proof (random_shuffle_perm (random_seed (rng e)) lib) as H1.
  destruct (random_shuffle (random_seed (rng e)) lib) as [l1 g1]. cbn [fst] in H1.
  pose proof (random_shuffle_perm g1 l1) as H2.
  destruct (random_shuffle g1 l1) as [l2 g2]. cbn [fst state] in *.
  exists l2. split; [by rewrite H2, H1|].
  rewrite draw_opening_spec. done.
Qed.

End start_facts.

Lemma find_commander_first s deck r :
  find_commander s deck = Some r →
  ∃ l1 l2, deck = l1 ++ r :: l2
    ∧ Str.contains "Legendary" (type_line (deref s r)) = true
    ∧ Str.contains "Creature" (type_line (deref s r)) = true
    ∧ Forall (λ x, Str.contains "Legendary" (type_line (deref s x))
                   && Str.contains "Creature" (type_line (deref s x)) = false) l1.
Proof.
  unfold find_commander. intros H.
  destruct (filter _ deck) as [|x m] eqn:E; [done|]. injection H as ->.
  apply (filter_head_split
           (λ card, Str.contains "Legendary" (type_line (deref s card))
                    && Str.contains "Creature" (type_line (deref s card)))) in E
    as (l1 & l2 & -> & Hr & Hl1).
  apply andb_true_iff in Hr as [? ?]. by exists l1, l2.
Qed.

Lemma find_commander_none s deck :
  find_commander s deck = None →
  Forall (λ x, Str.contains "Legendary" (type_line (deref s x))
               && Str.contains "Creature" (type_line (deref s x)) = false) deck.
Proof.
  unfold find_commander. intros H.
  destruct (filter _ deck) as [|x m] eqn:E; [|done].
  apply Forall_forall. intros x Hx.
  destruct (_ && _) eqn:Hb; [|done].
  assert (x ∈ filter (λ card, Str.contains "Legendary" (type_line (deref s card))
                        && Str.contains "Creature" (type_line (deref s card))) deck) as Hin.
  { apply list_elem_of_filter. split; [by apply Is_true_true | done]. }
  rewrite E in Hin. by apply elem_of_nil in Hin.
Qed.

(** ** Games without fetch tags: library order, land drops *)

Lemma battlefield_lands_ext s s' :
  objects s' = objects s → battlefield s' = battlefield s →
  battlefield_lands s' = battlefield_lands s.
Proof. unfold battlefield_lands, deref. by intros -> ->. Qed.

Section quiet_facts.
Context {Rng : Type}.
Variable random_shuffle : Rng → list ref → list ref * Rng.
Hypothesis random_shuffle_perm : ∀ g l, (random_shuffle g l).1 ≡ₚ l.

Lemma loop_pass_quiet (e e' : Engine Rng) t t' again :
  no_fetch_tags (state e) →
  loop_pass random_shuffle e t = Ok (again, e', t') →
  library (state e') = library (state e)
  ∧ battlefield_lands (state e') = battlefield_lands (state e).
Proof.
  intros Hno. unfold loop_pass.
  destruct (mana_sweep (state e) t) as (s1 & t1 & b1 & -> & Hsw).
  destruct (sweep_zones _ _ _ _ _ _ Hsw) as (Ho & Hl & Hh & Hb & Hg).
  destruct (cast_step_cases s1) as [[_ ->]|(spell & l1 & l2 & Hch & _ & _ & ->)]; simpl.
  - rewrite andb_true_r. destruct b1; simpl.
    + intros [= <- <- <-]. simpl. split; [done|]. by apply battlefield_lands_ext.
    + destruct (sweep_quiet _ _ _ _ _ _ Hsw eq_refl) as (_ & -> & ->).
      replace (mkEngine (state e) (rng e)) with e by by destruct e.
      rewrite (resolve_no_fetch random_shuffle e t Hno). simpl. by intros [= <- <- <-].
  - replace (negb b1 && false) with false by by destruct b1.
    intros [= <- <- <-]. simpl.
    apply choose_spell_Some in Hch as (_ & _ & _ & Hc & _).
    apply andb_true_iff in Hc as [Hc _]. apply negb_true_iff in Hc.
    unfold after_cast, battlefield_lands, deref.
    destruct (instant_or_sorcery _); simpl; rewrite Hl, Hb, Ho; (split; [done|]).
    + done.
    + rewrite filter_app. rewrite (filter_none (λ c, is_land (objects (state e) !!! c)) [spell]).
      * by rewrite app_nil_r.
      * constructor; [|constructor]. unfold deref in Hc. by rewrite Ho in Hc.
Qed.

Lemma main_loop_quiet fuel : ∀ (e e' : Engine Rng) t t' n,
  no_fetch_tags (state e) →
  main_loop random_shuffle fuel e t = Ok (Some (n, e', t')) →
  library (state e') = library (state e)
  ∧ battlefield_lands (state e') = battlefield_lands (state e).
Proof.
  induction fuel as [|fuel IH]; intros e e' t t' n Hno H; [done|].
  rewrite main_loop_S in H.
  destruct (loop_pass random_shuffle e t) as [[[again e1] t1]|] eqn:Hpass; [|done].
  destruct (loop_pass_refs random_shuffle e e1 t t1 again Hno Hpass) as [Ho1 Hr1].
  destruct (loop_pass_quiet e e1 t t1 again Hno Hpass) as [Hl1 Hb1].
  rewrite bind_Ok in H. destruct again.
  - destruct (main_loop random_shuffle fuel e1 t1) as [[[[n2 e2] t2]|]|] eqn:Hrest;
      simpl in H; try done.
    injection H as <- <- <-.
    destruct (IH e1 e2 t1 t2 n2) as [Hl2 Hb2]; [|done|].
    { by apply (no_fetch_tags_perm (state e)). }
    split; congruence.
  - by injection H as <- <- <-.
Qed.

Lemma land_drop_lands s s' :
  land_drop s = Ok s' →
  library s' = library s
  ∧ (length (battlefield_lands s') ≤ length (battlefield_lands s) + 1)%nat.
Proof.
  unfold land_drop. destruct (filter _ _) as [|land m]; [intros [= <-]; split; [done|lia]|].
  destruct (land_played_this_turn s); [intros [= <-]; split; [done|lia]|].
  destruct (play_land_cases s land) as [(_ & _ & _ & h & _ & ->)|[_ ->]]; simpl.
  - intros [= <-]. split; [done|]. unfold battlefield_lands, deref. simpl.
    rewrite filter_app, length_app.
    pose proof (length_filter (λ c, is_land (objects s !!! c)) [land]). simpl in *. lia.
  - intros [= <-]. split; [done|lia].
Qed.

Lemma step_quiet (e : Engine Rng) :
  no_fetch_tags (state e) →
  ∃ e', step random_shuffle e = Ok (Some e')
        ∧ objects (state e') = objects (state e)
        ∧ zone_refs (state e') ≡ₚ zone_refs (state e)
        ∧ library (state e') = drop 1 (library (state e))
        ∧ (length (battlefield_lands (state e'))
           ≤ length (battlefield_lands (state e)) + 1)%nat.
Proof.
  intros Hno.
  destruct (step_ok random_shuffle random_shuffle_perm e) as (e' & Hstep & _).
  exists e'. split; [done|].
  destruct (step_refs random_shuffle e e' Hno Hstep) as [Ho Hr].
  split; [done|]. split; [done|].
  revert Hstep. unfold step, _main_phase_heuristic. cbv zeta. cbn [state rng].
  destruct (draw_card_refs (state e)) as [Hod Hrd].
  destruct (land_drop (draw_card (state e)).2) as [s1|] eqn:Hdrop; [|done].
  destruct (land_drop_refs (draw_card (state e)).2) as (s1' & Hdrop' & Ho1 & Hr1).
  rewrite Hdrop in Hdrop'. injection Hdrop' as <-.
  apply land_drop_lands in Hdrop as [Hl1 Hb1].
  rewrite bind_Ok.
  destruct (main_loop random_shuffle (S (pass_budget s1 ∅)) (mkEngine s1 (rng e)) ∅)
    as [[[[n2 e2] t2]|]|] eqn:Hloop; rewrite ?bind_Ok; try done.
  assert (no_fetch_tags (state (mkEngine s1 (rng e)))) as Hno1.
  { apply (no_fetch_tags_perm (state e)); simpl;
      [congruence | by rewrite Hr1, Hrd | done]. }
  destruct (main_loop_quiet _ _ _ _ _ _ Hno1 Hloop) as [Hl2 Hb2]. simpl in Hl2, Hb2.
  intros [= <-]. simpl.
  change (battlefield_lands (set_turn_counter _ _)) with (battlefield_lands (state e2)).
  rewrite Hl2, Hl1, Hb2. split.
  - unfold draw_card. destruct (library (state e)) eqn:E; simpl; [by rewrite E | done].
  - assert (battlefield_lands (draw_card (state e)).2 = battlefield_lands (state e)) as <-;
      [|done].
    unfold draw_card. by destruct (library (state e)).
Qed.

Lemma run_turns_quiet n : ∀ e : Engine Rng,
  no_fetch_tags (state e) →
  ∃ e', run_turns random_shuffle n e = Ok (Some e')
        ∧ objects (state e') = objects (state e)
        ∧ zone_refs (state e') ≡ₚ zone_refs (state e)
        ∧ library (state e') = drop n (library (state e))
        ∧ (length (battlefield_lands (state e'))
           ≤ length (battlefield_lands (state e)) + n)%nat.
Proof.
  induction n as [|n IH]; intros e Hno; simpl.
  - exists e. rewrite drop_0. repeat split; [done | lia].
  - destruct (step_quiet e Hno) as (e1 & -> & Ho1 & Hr1 & Hl1 & Hb1). simpl.
    destruct (IH e1) as (e2 & -> & Ho2 & Hr2 & Hl2 & Hb2).
    { by apply (no_fetch_tags_perm (state e)). }
    exists e2. split; [done|]. split; [congruence|]. split; [by rewrite Hr2|].
    split; [|lia]. rewrite Hl2, Hl1, drop_drop. f_equal.
Qed.

End quiet_facts.

(** ** The land of the turn in the land sweep *)


Lemma play_land_records s card s' :
  play_land s card = Ok (true, s') →
  land_played_this_turn s' = Some card ∧ card ∈ cards_played_this_turn s'.
Proof.
  destruct (play_land_cases s card) as [(_ & _ & _ & h & _ & ->)|[_ ->]]; [|done].
  intros [= <-]. simpl. split; [done|]. set_solver.
Qed.


(** ** Classified lands entering the battlefield *)

Module EntersTapped.
Import Re Tags.

Lemma CardTag_cases x :
  x ∈ CardTag →
  x ≠ "COND_FASTLAND" ∧ Str.startswith "COND_COUNT_3_" x = false.
Proof.
  unfold CardTag. intros H.
  repeat (apply elem_of_cons in H as [-> | H]; [by split|]).
  by apply elem_of_nil in H.
Qed.

Lemma before_land_pass_CardTag n t o x : x ∈ before_land_pass n t o → x ∈ CardTag.
Proof.
  unfold before_land_pass, text_tags, type_tags, static_tags.
  assert (∀ y, y ∈ CardTag ↔ bool_decide (y ∈ CardTag) = true) as Hdec
    by (intros y; by rewrite bool_decide_eq_true).
  assert (∀ y, y ∈ (match STATIC_CARD_TAGS !! n with
                    | Some l => (∅ : gset string) ∪ list_to_set l
                    | None => ∅
                    end) → y ∈ CardTag) as Hstatic.
  { intros y. destruct (STATIC_CARD_TAGS !! n) as [l|] eqn:E; [|set_solver].
    intros [?|Hy%elem_of_list_to_set]%elem_of_union; [set_solver|].
    pose proof (TagFacts.static_table_known n l E) as Hl.
    rewrite Forall_forall in Hl. auto. }
  rewrite !LandRules.elem_of_add_if.
  destruct (found false re_mana _);
    rewrite ?elem_of_union, ?elem_of_singleton, ?LandRules.elem_of_add_if;
    intros H; repeat (destruct H as [H|H]); try (by apply Hstatic);
    (match type of H with
     | _ ∧ _ => destruct H as [_ ->]
     | _ => rewrite H
     end); apply Hdec; vm_compute; reflexivity.
Qed.




End EntersTapped.

(** ** The mana sweep: one mana per source *)

Lemma one_each_refl s t : one_each s t s t.
Proof. repeat split; auto. - by destruct s. - lia. Qed.

Lemma one_each_trans s t s1 t1 s2 t2 :
  one_each s t s1 t1 → one_each s1 t1 s2 t2 → one_each s t s2 t2.
Proof.
  intros (Hs1 & Hm1 & Hn1 & Hk1 & Hb1) (Hs2 & Hm2 & Hn2 & Hk2 & Hb2).
  repeat split.
  - rewrite Hs2, Hs1. done.
  - set_solver.
  - lia.
  - intros color Hc. by rewrite Hk2, Hk1.
  - intros r Hr. destruct (Hb2 r Hr) as [?|Hin]; [auto|].
    right. rewrite Hs1 in Hin. exact Hin.
Qed.

Lemma one_each_tap s t r :
  r ∈ battlefield s → r ∉ t → one_each s t (add_mana s COLORLESS_ONE) (t ∪ {[r]}).
Proof.
  intros Hin Hnt. repeat split.
  - set_solver.
  - unfold get_total_mana, add_mana. simpl. rewrite gain_sum.
    rewrite size_union by set_solver. rewrite size_singleton.
    unfold COLORLESS_ONE, dict_sum. rewrite map_fold_singleton. lia.
  - intros color Hc. unfold add_mana. simpl. rewrite gain_lookup.
    unfold COLORLESS_ONE. by rewrite lookup_singleton_ne.
  - intros x [?| ->%elem_of_singleton]%elem_of_union; auto.
Qed.

Lemma foldl_tap_lands_one_each (l : list ref) : ∀ (s : GameState) (t : gset ref) (b : bool),
  NoDup l → Forall (λ r, r ∈ battlefield s ∧ r ∉ t) l →
  ∃ s' t' b',
    foldl (λ '(s, tapped, _) (land : ref),
             (add_mana s COLORLESS_ONE, tapped ∪ {[land]}, true))
          (s, t, b) l = (s', t', b')
    ∧ one_each s t s' t'.
Proof.
  induction l as [|r l IH]; intros s t b Hnd Hall; cbn [foldl].
  - eexists _, _, _. split; [done | apply one_each_refl].
  - apply NoDup_cons in Hnd as [Hr Hnd]. apply Forall_cons in Hall as [[Hin Hnt] Hall].
    destruct (IH (add_mana s COLORLESS_ONE) (t ∪ {[r]}) true Hnd) as (s' & t' & b' & -> & H).
    { eapply Forall_impl; [apply Forall_and; split; [exact Hall|]|].
      - apply Forall_forall. intros x Hx. exact (λ E : x = r, Hr (eq_ind x (λ y, y ∈ l) Hx r E)).
      - intros x [[? ?] ?]. simpl. split; [done | set_solver]. }
    eexists _, _, _. split; [done|].
    eapply one_each_trans; [by apply one_each_tap | exact H].
Qed.

Lemma foldl_tap_artifact_one_each l : ∀ s t b,
  Forall (λ r, r ∈ battlefield s) l →
  ∃ s' t' b', foldl tap_artifact (s, t, b) l = (s', t', b') ∧ one_each s t s' t'.
Proof.
  induction l as [|r l IH]; intros s t b Hall; cbn [foldl].
  - eexists _, _, _. split; [done | apply one_each_refl].
  - apply Forall_cons in Hall as [Hr Hl].
    assert (∃ s1 t1 b1, tap_artifact (s, t, b) r = (s1, t1, b1) ∧ one_each s t s1 t1)
      as (s1 & t1 & b1 & -> & H1).
    { unfold tap_artifact. destruct (bool_decide (r ∈ t)) eqn:Ht.
      { eexists _, _, _. split; [done | apply one_each_refl]. }
      apply bool_decide_eq_false in Ht.
      destruct (_ && _).
      { eexists _, _, _. split; [done | apply one_each_refl]. }
      eexists _, _, _. split; [done | by apply one_each_tap]. }
    destruct (IH s1 t1 b1) as (s2 & t2 & b2 & -> & H2).
    { destruct H1 as [-> _]. done. }
    eexists _, _, _. split; [done|]. by eapply one_each_trans.
Qed.

Lemma mana_sweep_one_each s t :
  NoDup (battlefield s) →
  ∃ s' t' b', tap_artifacts (tap_lands s t) = (s', t', b') ∧ one_each s t s' t'.
Proof.
  intros Hnd. unfold tap_lands.
  set (U := filter _ (filter _ (battlefield s))).
  destruct (foldl_tap_lands_one_each U s t false) as (s1 & t1 & b1 & -> & H1).
  { unfold U. by do 2 apply NoDup_filter. }
  { apply Forall_forall. intros r Hr. unfold U in Hr.
    apply list_elem_of_filter in Hr as [Hel Hr].
    apply list_elem_of_filter in Hr as [_ Hr]. split; [done|].
    unfold land_untapped in Hel.
    destruct (bool_decide (r ∈ t)) eqn:E; [done|]. by apply bool_decide_eq_false in E. }
  unfold tap_artifacts. cbn [fst].
  destruct (foldl_tap_artifact_one_each
              (filter (λ c, has_tag "MANA_ROCK" (deref s1 c) && has_tag "ARTIFACT" (deref s1 c))
                      (battlefield s1)) s1 t1 b1) as (s2 & t2 & b2 & -> & H2).
  { apply Forall_forall. intros r Hr. by apply list_elem_of_filter in Hr as [_ ?]. }
  eexists _, _, _. split; [done|]. by eapply one_each_trans.
Qed.

(** ** The counters of a simulation *)

Section sim_facts.
Context {Rng : Type}.
Variable random_seed : Rng → Rng.
Variable random_shuffle : Rng → list ref → list ref * Rng.
Hypothesis random_shuffle_perm : ∀ g l, (random_shuffle g l).1 ≡ₚ l.

(** The counters never influence the game. *)
Lemma run_turns_mc_engine n : ∀ x : Sim Rng,
  ∃ x', run_turns_mc random_shuffle n x = Ok (Some x')
        ∧ run_turns random_shuffle n (engine x) = Ok (Some (engine x')).
Proof.
  induction n as [|n IH]; intros x; simpl.
  - by exists x.
  - unfold step_mc.
    destruct (step_ok random_shuffle random_shuffle_perm (engine x)) as (e1 & -> & _).
    rewrite !bind_Ok.
    destruct (IH (mkSim e1 (update_stats (state e1) (_mc_stats x)))) as (x' & -> & Hr).
    exists x'. split; [done|]. exact Hr.
Qed.

Lemma update_stats_ok s s' st :
  counters_ok s st → turn_counter s' = turn_counter s + 1 →
  counters_ok s' (update_stats s' st).
Proof.
  intros (Htc & Hle & Hz & Hsome & Hnone) Hnext. unfold update_stats.
  set (st1 := if (turn_counter s' =? 5)%Z then _ else st).
  assert (hand_empty_turn st1 = hand_empty_turn st) as Hhet
    by (unfold st1; by destruct (turn_counter s' =? 5)%Z).
  assert (0 ≤ lands_turn_4 st1 ≤ mana_turn_4 st1) as Hle1.
  { unfold st1. destruct (turn_counter s' =? 5)%Z; simpl; lia. }
  assert (turn_counter s' < 5 → mana_turn_4 st1 = 0 ∧ lands_turn_4 st1 = 0) as Hz1.
  { unfold st1. destruct (Z.eqb_spec (turn_counter s') 5); [lia|].
    intros. apply Hz. lia. }
  clearbody st1. rewrite Hhet.
  destruct (hand s') as [|c h] eqn:Hh; destruct (hand_empty_turn st) as [t1|] eqn:He;
    unfold counters_ok; simpl; rewrite ?Hhet, ?He;
    (split; [lia|]); (split; [done|]); (split; [done|]); split; try done.
  - intros t [= <-]. specialize (Hsome t1 eq_refl). lia.
  - intros t [= <-]. lia.
  - intros t [= <-]. specialize (Hsome t1 eq_refl). lia.
  - intros _ _. by rewrite Hh.
Qed.

Lemma run_turns_mc_ok n : ∀ x : Sim Rng,
  counters_ok (state (engine x)) (_mc_stats x) →
  ∃ x', run_turns_mc random_shuffle n x = Ok (Some x')
        ∧ counters_ok (state (engine x')) (_mc_stats x')
        ∧ turn_counter (state (engine x')) = turn_counter (state (engine x)) + Z.of_nat n.
Proof.
  induction n as [|n IH]; intros x Hok; simpl.
  - exists x. split; [done|]. split; [done|]. lia.
  - unfold step_mc.
    destruct (step_end_of_turn random_shuffle random_shuffle_perm (engine x))
      as (e1 & -> & _ & _ & _ & Htc & _).
    rewrite !bind_Ok.
    destruct (IH (mkSim e1 (update_stats (state e1) (_mc_stats x)))) as (x' & -> & Hok' & Htc').
    { simpl. by eapply update_stats_ok. }
    exists x'. split; [done|]. split; [done|]. simpl in Htc'. lia.
Qed.

End sim_facts.


Section clock_facts.
Context {Rng : Type}.
Variable random_shuffle : Rng → list ref → list ref * Rng.
Hypothesis random_shuffle_perm : ∀ g l, (random_shuffle g l).1 ≡ₚ l.

Lemma run_turns_clock n : ∀ e : Engine Rng,
  ∃ e', run_turns random_shuffle n e = Ok (Some e')
        ∧ turn_counter (state e') = turn_counter (state e) + Z.of_nat n
        ∧ commander (state e') = commander (state e)
        ∧ (mana_pool (state e) = ∅ ∨ (0 < n)%nat → mana_pool (state e') = ∅).
Proof.
  induction n as [|n IH]; intros e; simpl.
  - exists e. split; [done|]. split; [lia|]. split; [done|]. intros [?|?]; [done|lia].
  - destruct (step_end_of_turn random_shuffle random_shuffle_perm e)
      as (e1 & -> & Hp & _ & _ & Htc & Hc).
    simpl. destruct (IH e1) as (e2 & -> & Htc2 & Hc2 & Hp2).
    exists e2. split; [done|]. split; [lia|]. split; [congruence|]. intros _. auto.
Qed.

End clock_facts.

(** ** The engine, from the deal to the report *)

(** X1.  [add_mana] raises the total of the pool by the total of the mana added:
    each colour of the argument gets its old amount ([0] when absent) plus the
    amount added, every other colour keeps its entry, and no other field of
    the state changes. *)
Theorem add_mana_adds (s : GameState) (mana : gmap string Z) :
  let s' := add_mana s mana in
  get_total_mana s' = get_total_mana s + dict_sum mana
  ∧ (∀ color,
       mana_pool s' !! color
       = match mana !! color with
         | Some amount => Some (dict_get0 (mana_pool s) color + amount)
         | None => mana_pool s !! color
         end)
  ∧ s' = set_mana_pool s (mana_pool s').
Proof.
  intros s'. split; [|split].
  - apply gain_sum.
  - intros color. apply gain_lookup.
  - done.
Qed.

(** X2.  With a shuffle that permutes its list, [step] completes from every
    engine state, without raising; the state it leaves has an empty mana
    pool, no land of the turn, an empty entered-this-turn list, the turn
    counter advanced by one and the commander it had. *)
Theorem turn_ends_clean {Rng : Type}
    (random_shuffle : Rng → list ref → list ref * Rng) (e : Engine Rng) :
  (∀ g l, (random_shuffle g l).1 ≡ₚ l) →
  ∃ e', step random_shuffle e = Ok (Some e')
        ∧ mana_pool (state e') = ∅
        ∧ land_played_this_turn (state e') = None
        ∧ cards_played_this_turn (state e') = []
        ∧ turn_counter (state e') = turn_counter (state e) + 1
        ∧ commander (state e') = commander (state e).
Proof. intros Hperm. by apply step_end_of_turn. Qed.

Lemma turn_ends_clean_witness :
  ∃ e', step reversing_shuffle crypt_in_hand = Ok (Some e')
        ∧ mana_pool (state e') = ∅
        ∧ land_played_this_turn (state e') = None
        ∧ cards_played_this_turn (state e') = []
        ∧ turn_counter (state e') = turn_counter (state crypt_in_hand) + 1
        ∧ commander (state e') = commander (state crypt_in_hand).
Proof.
  pose proof (turn_ends_clean reversing_shuffle crypt_in_hand) as Hthm.
  apply Hthm.
  intros g l. apply reversing_shuffle_perm.
Defined.

(** X3.  [start_game] shuffles the dealt deck, appends its first seven cards
    (fewer if the deck is shorter) to the hand the state already had and
    leaves the rest as the library; the turn counter is set to [1]; the
    battlefield, the graveyard, the mana pool, the land of the turn and the
    entered-this-turn list are not reset. *)
Theorem start_game_deals_seven {Rng : Type}
    (random_seed : Rng → Rng) (random_shuffle : Rng → list ref → list ref * Rng)
    (e : Engine Rng) (deck : list ref) (given : option ref) :
  (∀ g l, (random_shuffle g l).1 ≡ₚ l) →
  let s0 := state e in
  let c := choose_commander s0 deck given in
  let dealt := deck_library s0 deck c in
  let s1 := state (start_game random_seed random_shuffle e deck given) in
  ∃ shuffled,
    shuffled ≡ₚ dealt
    ∧ s1 = mkState (objects s0) (drop 7 shuffled) (hand s0 ++ take 7 shuffled)
                   (battlefield s0) (graveyard s0) (mana_pool s0) 1
                   (land_played_this_turn s0) (cards_played_this_turn s0) c
    ∧ length (hand s1) = (length (hand s0) + length dealt `min` 7)%nat
    ∧ length (library s1) = (length dealt - 7)%nat.
Proof.
  intros Hperm s0 c dealt s1.
  destruct (start_game_deal random_seed random_shuffle Hperm e deck given)
    as (shuffled & Hsh & Hs1).
  exists shuffled. split; [done|]. split; [done|].
  unfold s1. rewrite Hs1. simpl.
  rewrite length_app, length_take, length_drop, (Permutation_length Hsh).
  fold s0 c dealt. lia.
Qed.

Lemma start_game_deals_seven_witness :
  let s0 := init_state small_deck_objects in
  let s1 := state (start_game (λ g, g) reversing_shuffle (mkEngine s0 0%nat) small_deck None) in
  ∃ shuffled,
    shuffled ≡ₚ deck_library s0 small_deck (choose_commander s0 small_deck None)
    ∧ s1 = mkState (objects s0) (drop 7 shuffled) (hand s0 ++ take 7 shuffled)
                   (battlefield s0) (graveyard s0) (mana_pool s0) 1
                   (land_played_this_turn s0) (cards_played_this_turn s0)
                   (choose_commander s0 small_deck None)
    ∧ length (hand s1)
      = (length (hand s0)
         + length (deck_library s0 small_deck (choose_commander s0 small_deck None)) `min` 7)%nat
    ∧ length (library s1)
      = (length (deck_library s0 small_deck (choose_commander s0 small_deck None)) - 7)%nat.
Proof.
  pose proof (start_game_deals_seven (λ g, g) reversing_shuffle
           (mkEngine (init_state small_deck_objects) 0%nat) small_deck None) as Hthm.
  apply Hthm.
  intros g l. apply reversing_shuffle_perm.
Defined.

(** X4.  In [start_game], a commander passed by the caller is used as given;
    without one, the commander is the first card of the deck whose type line
    contains both Legendary and Creature, or none when the deck has no such
    card.  The library dealt is the deck without every card equal to the
    commander (all copies go), and the whole deck when there is no
    commander. *)
Theorem commander_is_set_aside (s : GameState) (deck : list ref) (given : option ref) :
  let c := choose_commander s deck given in
  let dealt := deck_library s deck c in
  (∀ g, given = Some g → c = Some g)
  ∧ (given = None →
     match c with
     | Some r =>
         ∃ l1 l2, deck = l1 ++ r :: l2
           ∧ Str.contains "Legendary" (type_line (deref s r)) = true
           ∧ Str.contains "Creature" (type_line (deref s r)) = true
           ∧ Forall (λ x, Str.contains "Legendary" (type_line (deref s x))
                          && Str.contains "Creature" (type_line (deref s x)) = false) l1
     | None =>
         Forall (λ x, Str.contains "Legendary" (type_line (deref s x))
                      && Str.contains "Creature" (type_line (deref s x)) = false) deck
     end)
  ∧ match c with
    | Some r =>
        dealt = filter (λ x, negb (card_eqb s x r)) deck
        ∧ Forall (λ x, deref s x ≠ deref s r) dealt
    | None => dealt = deck
    end.
Proof.
  intros c dealt. split; [|split].
  - intros g ->. done.
  - intros ->. unfold c. simpl.
    destruct (find_commander s deck) as [r|] eqn:E.
    + by apply find_commander_first.
    + by apply find_commander_none.
  - unfold dealt, deck_library. destruct c as [r|]; [|done]. split; [done|].
    apply Forall_forall. intros x Hx.
    apply list_elem_of_filter in Hx as [Hx _].
    apply Is_true_true in Hx. apply negb_true_iff in Hx.
    intros Heq. apply card_eqb_true in Heq. congruence.
Qed.

Lemma start_game_no_fetch {Rng : Type}
    (random_seed : Rng → Rng) (random_shuffle : Rng → list ref → list ref * Rng)
    (objs : gmap ref Card) (g : Rng) (deck : list ref) (given : option ref) :
  (∀ g l, (random_shuffle g l).1 ≡ₚ l) →
  Forall (λ r, has_tag "FETCH_LAND" (deref (init_state objs) r) = false) deck →
  no_fetch_tags (state (start_game random_seed random_shuffle
                          (mkEngine (init_state objs) g) deck given)).
Proof.
  intros Hperm Hdeck.
  pose proof (start_game_refs random_seed random_shuffle Hperm objs g deck given) as H.
  cbv zeta in H. destruct H as [Ho Hr].
  unfold no_fetch_tags. rewrite Hr. apply Forall_forall. intros r Hin.
  unfold deref. rewrite Ho.
  apply (proj1 (Forall_forall _ _) Hdeck r).
  unfold deck_library in Hin. destruct (choose_commander _ _ _); [|done].
  by apply list_elem_of_filter in Hin as [_ ?].
Qed.

(** X5.  In a game none of whose cards carries the FETCH_LAND tag, [n] turns
    complete, and the library after them is the library before them without
    its first [n] cards, in the same order; no card object is modified. *)
Theorem library_order_is_fixed {Rng : Type}
    (random_shuffle : Rng → list ref → list ref * Rng) (e : Engine Rng) (n : nat) :
  (∀ g l, (random_shuffle g l).1 ≡ₚ l) →
  no_fetch_tags (state e) →
  ∃ e', run_turns random_shuffle n e = Ok (Some e')
        ∧ library (state e') = drop n (library (state e))
        ∧ objects (state e') = objects (state e).
Proof.
  intros Hperm Hno.
  destruct (run_turns_quiet random_shuffle Hperm n e Hno) as (e' & Hrun & Ho & _ & Hl & _).
  by exists e'.
Qed.

Lemma small_game_no_fetch : no_fetch_tags (state small_game).
Proof.
  apply start_game_no_fetch; [intros g l; apply reversing_shuffle_perm|].
  vm_compute. repeat constructor.
Defined.

Lemma library_order_is_fixed_witness :
  ∃ e', run_turns reversing_shuffle 2 small_game = Ok (Some e')
        ∧ library (state e') = drop 2 (library (state small_game))
        ∧ objects (state e') = objects (state small_game).
Proof.
  pose proof (library_order_is_fixed reversing_shuffle small_game 2) as Hthm.
  apply Hthm.
  - intros g l. apply reversing_shuffle_perm.
  - apply small_game_no_fetch.
Defined.

(** X6.  In a game none of whose cards carries the FETCH_LAND tag, the number
    of lands on the battlefield grows by at most one per turn: after [n]
    turns it is at most the number before plus [n]. *)
Theorem one_land_per_turn {Rng : Type}
    (random_shuffle : Rng → list ref → list ref * Rng) (e : Engine Rng) (n : nat) :
  (∀ g l, (random_shuffle g l).1 ≡ₚ l) →
  no_fetch_tags (state e) →
  ∃ e', run_turns random_shuffle n e = Ok (Some e')
        ∧ (length (battlefield_lands (state e'))
           ≤ length (battlefield_lands (state e)) + n)%nat.
Proof.
  intros Hperm Hno.
  destruct (run_turns_quiet random_shuffle Hperm n e Hno) as (e' & Hrun & _ & _ & _ & Hb).
  by exists e'.
Qed.

Lemma one_land_per_turn_witness :
  ∃ e', run_turns reversing_shuffle 2 small_game = Ok (Some e')
        ∧ (length (battlefield_lands (state e'))
           ≤ length (battlefield_lands (state small_game)) + 2)%nat.
Proof.
  pose proof (one_land_per_turn reversing_shuffle small_game 2) as Hthm.
  apply Hthm.
  - intros g l. apply reversing_shuffle_perm.
  - apply small_game_no_fetch.
Defined.







(** X10.  One pass of the land sweep followed by the artifact sweep, on a
    battlefield of distinct card objects, adds exactly one colourless mana
    for each object it newly records as tapped: the total of the pool grows
    by the number of new entries of the tapped set, only the colorless entry
    of the pool changes, the tapped set only grows, by objects of the
    battlefield, and nothing but the pool changes in the state. *)
Theorem sources_tap_once (s : GameState) (t : gset ref) :
  NoDup (battlefield s) →
  ∃ s' t' b,
    tap_artifacts (tap_lands s t) = (s', t', b)
    ∧ s' = set_mana_pool s (mana_pool s')
    ∧ t ⊆ t'
    ∧ get_total_mana s' - get_total_mana s = Z.of_nat (size t') - Z.of_nat (size t)
    ∧ (∀ color, color ≠ "colorless" → mana_pool s' !! color = mana_pool s !! color)
    ∧ (∀ r, r ∈ t' → r ∈ t ∨ r ∈ battlefield s).
Proof.
  intros Hnd. destruct (mana_sweep_one_each s t Hnd) as (s' & t' & b & H & Hone).
  exists s', t', b. split; [done|]. exact Hone.
Qed.

Lemma sources_tap_once_witness :
  ∃ s' t' b,
    tap_artifacts (tap_lands coast_played ∅) = (s', t', b)
    ∧ s' = set_mana_pool coast_played (mana_pool s')
    ∧ ∅ ⊆ t'
    ∧ get_total_mana s' - get_total_mana coast_played
      = Z.of_nat (size t') - Z.of_nat (size (∅ : gset ref))
    ∧ (∀ color, color ≠ "colorless" → mana_pool s' !! color = mana_pool coast_played !! color)
    ∧ (∀ r, r ∈ t' → r ∈ (∅ : gset ref) ∨ r ∈ battlefield coast_played).
Proof.
  pose proof (sources_tap_once coast_played ∅) as Hthm.
  apply Hthm.
  vm_compute. repeat constructor; set_solver.
Defined.

(** X11.  [run_simulation] on an engine at turn [1] with new counters completes,
    and the counters it returns have: [final_turn] the number of turns run;
    [final_lands] the lands on the battlefield at the end; [0 <=
    lands_turn_4 <= mana_turn_4], both [0] when fewer than four turns are
    run; [hand_empty_turn], when set, a turn between [1] and the number of
    turns, and when not set after at least one turn, a hand that is not
    empty at the end. *)
Theorem simulation_report {Rng : Type}
    (random_shuffle : Rng → list ref → list ref * Rng) (e : Engine Rng) (turns : nat) :
  (∀ g l, (random_shuffle g l).1 ≡ₚ l) →
  turn_counter (state e) = 1 →
  ∃ x', run_simulation random_shuffle turns (mkSim e new_stats) = Ok (Some x')
    ∧ run_turns random_shuffle turns e = Ok (Some (engine x'))
    ∧ final_turn (_mc_stats x') = Z.of_nat turns
    ∧ final_lands (_mc_stats x')
      = Z.of_nat (length (battlefield_lands (state (engine x'))))
    ∧ 0 ≤ lands_turn_4 (_mc_stats x') ≤ mana_turn_4 (_mc_stats x')
    ∧ ((turns < 4)%nat → mana_turn_4 (_mc_stats x') = 0 ∧ lands_turn_4 (_mc_stats x') = 0)
    ∧ (∀ t, hand_empty_turn (_mc_stats x') = Some t → 1 ≤ t ≤ Z.of_nat turns)
    ∧ (hand_empty_turn (_mc_stats x') = None → (0 < turns)%nat →
       hand (state (engine x')) ≠ []).
Proof.
  intros Hperm Htc. unfold run_simulation.
  destruct (run_turns_mc_ok random_shuffle Hperm turns (mkSim e new_stats))
    as (x1 & Hrun & (_ & Hle & Hz & Hsome & Hnone) & Htc1).
  { unfold counters_ok. simpl. rewrite Htc. repeat split; try done; lia. }
  destruct (run_turns_mc_engine random_shuffle Hperm turns (mkSim e new_stats))
    as (x1' & Hrun' & Heng).
  rewrite Hrun in Hrun'. injection Hrun' as <-.
  rewrite Hrun, bind_Ok. eexists. split; [done|]. simpl in *.
  split; [done|]. split; [lia|]. split; [done|]. split; [done|].
  split; [intros; apply Hz; lia|]. split.
  - intros t Ht. specialize (Hsome t Ht). lia.
  - intros Hn Hpos. apply Hnone; [done | lia].
Qed.

Lemma simulation_report_witness :
  ∃ x', run_simulation reversing_shuffle 5 (mkSim small_game new_stats) = Ok (Some x')
    ∧ run_turns reversing_shuffle 5 small_game = Ok (Some (engine x'))
    ∧ final_turn (_mc_stats x') = Z.of_nat 5
    ∧ final_lands (_mc_stats x')
      = Z.of_nat (length (battlefield_lands (state (engine x'))))
    ∧ 0 ≤ lands_turn_4 (_mc_stats x') ≤ mana_turn_4 (_mc_stats x')
    ∧ ((5 < 4)%nat → mana_turn_4 (_mc_stats x') = 0 ∧ lands_turn_4 (_mc_stats x') = 0)
    ∧ (∀ t, hand_empty_turn (_mc_stats x') = Some t → 1 ≤ t ≤ Z.of_nat 5)
    ∧ (hand_empty_turn (_mc_stats x') = None → (0 < 5)%nat →
       hand (state (engine x')) ≠ []).
Proof.
  pose proof (simulation_report reversing_shuffle small_game 5) as Hthm.
  apply Hthm.
  - intros g l. apply reversing_shuffle_perm.
  - vm_compute. reflexivity.
Defined.

Example small_simulation :
  ∃ x', run_simulation reversing_shuffle 5 (mkSim small_game new_stats) = Ok (Some x')
        ∧ _mc_stats x' = mkStats 8 4 (Some 5) 5 5.
Proof. eexists. split; vm_compute; reflexivity. Qed.

(** X12.  [get_summary] after [start_game] on a fresh state and [n] turns
    reports the turn [n + 1] and no mana available; the hand, battlefield
    and library sizes, with the size of the graveyard (which the summary
    omits), add up to the size of the dealt deck; for a deck without
    FETCH_LAND tags the library size is the dealt size less [7] less [n]
    (not below [0]) and the lands on the battlefield are at most [n]. *)
Theorem summary_after_turns {Rng : Type}
    (random_seed : Rng → Rng) (random_shuffle : Rng → list ref → list ref * Rng)
    (objs : gmap ref Card) (g : Rng) (deck : list ref) (given : option ref) (n : nat) :
  (∀ g l, (random_shuffle g l).1 ≡ₚ l) →
  let s0 := init_state objs in
  let dealt := deck_library s0 deck (choose_commander s0 deck given) in
  ∃ e',
    run_turns random_shuffle n
      (start_game random_seed random_shuffle (mkEngine s0 g) deck given) = Ok (Some e')
    ∧ turn (get_summary (state e')) = 1 + Z.of_nat n
    ∧ mana_available (get_summary (state e')) = 0
    ∧ hand_size (get_summary (state e')) + battlefield_size (get_summary (state e'))
      + library_size (get_summary (state e')) + Z.of_nat (length (graveyard (state e')))
      = Z.of_nat (length dealt)
    ∧ (Forall (λ r, has_tag "FETCH_LAND" (deref s0 r) = false) deck →
       library_size (get_summary (state e')) = Z.of_nat (length dealt - 7 - n)
       ∧ lands_on_battlefield (get_summary (state e')) ≤ Z.of_nat n).
Proof.
  intros Hperm s0 dealt.
  set (e1 := start_game random_seed random_shuffle (mkEngine s0 g) deck given).
  destruct (start_game_deal random_seed random_shuffle Hperm (mkEngine s0 g) deck given)
    as (shuffled & Hsh & Hs1).
  cbn [state] in Hsh, Hs1. fold s0 in Hsh, Hs1. fold dealt in Hsh. fold e1 in Hs1.
  destruct (run_turns_clock random_shuffle Hperm n e1) as (e' & Hrun & Htc & _ & Hpool).
  destruct (run_turns_ok random_shuffle Hperm n e1) as (e'' & Hrun' & Hcards).
  rewrite Hrun in Hrun'. injection Hrun' as <-.
  exists e'. split; [done|]. simpl.
  split; [rewrite Htc, Hs1; simpl; lia|].
  split.
  { unfold get_total_mana. rewrite Hpool; [done|]. left. by rewrite Hs1. }
  split.
  { apply Permutation_length in Hcards. rewrite !zone_cards_length in Hcards.
    unfold zone_size in Hcards. rewrite Hs1 in Hcards. unfold s0 in Hcards.
    cbn [library hand battlefield graveyard init_state] in Hcards.
    rewrite length_app, length_take, length_drop, (Permutation_length Hsh) in Hcards.
    cbn [length] in Hcards. lia. }
  intros Hdeck.
  assert (no_fetch_tags (state e1)) as Hno by by apply start_game_no_fetch.
  destruct (run_turns_quiet random_shuffle Hperm n e1 Hno) as (e'' & Hrun' & _ & _ & Hl & Hb).
  rewrite Hrun in Hrun'. injection Hrun' as <-.
  split.
  - rewrite Hl, Hs1. cbn [library]. rewrite !length_drop, (Permutation_length Hsh). done.
  - rewrite Hs1 in Hb. unfold battlefield_lands in Hb at 2. unfold s0 in Hb.
    cbn [battlefield init_state] in Hb. rewrite filter_nil in Hb.
    cbn [length] in Hb. lia.
Qed.

Lemma summary_after_turns_witness :
  let s0 := init_state small_deck_objects in
  let dealt := deck_library s0 small_deck (choose_commander s0 small_deck None) in
  ∃ e',
    run_turns reversing_shuffle 2
      (start_game (λ g, g) reversing_shuffle (mkEngine s0 0%nat) small_deck None)
    = Ok (Some e')
    ∧ turn (get_summary (state e')) = 1 + Z.of_nat 2
    ∧ mana_available (get_summary (state e')) = 0
    ∧ hand_size (get_summary (state e')) + battlefield_size (get_summary (state e'))
      + library_size (get_summary (state e')) + Z.of_nat (length (graveyard (state e')))
      = Z.of_nat (length dealt)
    ∧ library_size (get_summary (state e')) = Z.of_nat (length dealt - 7 - 2)
    ∧ lands_on_battlefield (get_summary (state e')) ≤ Z.of_nat 2.
Proof.
  intros s0 dealt.
  pose proof (summary_after_turns (λ g, g) reversing_shuffle small_deck_objects 0%nat
                small_deck None 2) as Hthm.
  destruct Hthm as (e' & Hrun & Ht & Hm & Hz & Hq).
  { intros g l. apply reversing_shuffle_perm. }
  exists e'. split; [exact Hrun|]. split; [exact Ht|]. split; [exact Hm|].
  split; [exact Hz|]. apply Hq. vm_compute. repeat constructor.
Defined.

(** * Further properties of the classifier *)

Module TagRules.
Import Re Tags LandRules LandTag EntersTapped.

Lemma elem_of_static_tags n x :
  x ∈ static_tags n ∅ ↔ x ∈ static_entry n.
Proof.
  unfold static_tags, static_entry.
  destruct (STATIC_CARD_TAGS !! n); simpl; set_solver.
Qed.

Lemma not_conditional_CardTag x : x ∈ CardTag → ¬ conditional x.
Proof. intros [H1 H2]%CardTag_cases [?|?]; congruence. Qed.

Lemma conditional_count_tag m : conditional (cond_count_tag m).
Proof. right. unfold cond_count_tag, Str.startswith. by destruct (Str.drop_last _). Qed.

(** The land pass only adds conditional tags and only removes TAPPED_ENTRY. *)
Lemma land_tags_elem t o tags x :
  x ∈ land_tags t o tags → x ∈ tags ∨ conditional x.
Proof.
  unfold land_tags. repeat case_match; auto.
  intros [?|[->|[m ->]]]%land_exceptions_elem; auto.
  - right. by left.
  - right. apply conditional_count_tag.
Qed.

Lemma land_tags_keeps t o tags x :
  x ≠ TAPPED_ENTRY → x ∈ tags → x ∈ land_tags t o tags.
Proof.
  intros Hne Hin. unfold land_tags. repeat case_match; auto.
  by apply land_exceptions_keeps.
Qed.

Lemma land_tags_nonland t o tags :
  Str.contains "Land" t = false → land_tags t o tags = tags.
Proof. intros H. unfold land_tags. by rewrite H. Qed.

(** Membership in the result, for a tag that is neither conditional nor
    TAPPED_ENTRY. *)
Lemma assign_tags_plain n t o x :
  x ∈ CardTag → x ≠ TAPPED_ENTRY →
  x ∈ assign_tags n t o ↔ x ∈ before_land_pass n t o.
Proof.
  intros Hx Hne. unfold assign_tags, tag_set. rewrite elem_of_elements.
  fold (before_land_pass n t o). split.
  - intros [?|Hc]%land_tags_elem; [done|]. by apply not_conditional_CardTag in Hc.
  - by apply land_tags_keeps.
Qed.

Lemma text_tags_mono o tags x : x ∈ tags → x ∈ text_tags o tags.
Proof.
  intros H. unfold text_tags. rewrite !elem_of_add_if.
  destruct (found false re_mana _); rewrite ?elem_of_union, ?elem_of_add_if; tauto.
Qed.

Lemma type_tags_mono t tags x : x ∈ tags → x ∈ type_tags t tags.
Proof. intros H. unfold type_tags. rewrite !elem_of_add_if. tauto. Qed.

Lemma elem_of_type_tags t tags x :
  x ∈ type_tags t tags
  ↔ x ∈ tags ∨ ∃ word, (word, x) ∈ type_words ∧ Str.contains word t = true.
Proof.
  unfold type_tags, type_words. rewrite !elem_of_add_if. split.
  - intros H. repeat (destruct H as [H|[Hc ->]]; [|right; eexists; split; [|exact Hc]; set_solver]).
    by left.
  - intros [H|(word & Hw & Hc)]; [tauto|].
    repeat (apply elem_of_cons in Hw as [[= -> ->]|Hw]; [tauto|]).
    by apply elem_of_nil in Hw.
Qed.

(** The text rules add no type tag. *)
Lemma text_tags_type_tag o tags word x :
  (word, x) ∈ type_words → x ∈ text_tags o tags ↔ x ∈ tags.
Proof.
  intros Hw. split; [|apply text_tags_mono].
  unfold text_tags. rewrite !elem_of_add_if.
  unfold type_words in Hw.
  repeat (apply elem_of_cons in Hw as [[= -> ->]|Hw];
          [destruct (found false re_mana _);
           rewrite ?elem_of_union, ?elem_of_singleton, ?elem_of_add_if;
           unfold LAND, ARTIFACT, CREATURE, ENCHANTMENT, INSTANT, SORCERY, PLANESWALKER,
             TAPPED_ENTRY, TUTOR, COUNTERSPELL, BOARD_WIPE, REMOVAL, DRAW, RAMP, MANA_ROCK;
           naive_solver|]).
  by apply elem_of_nil in Hw.
Qed.

Lemma type_words_CardTag word x :
  (word, x) ∈ type_words → x ∈ CardTag ∧ x ≠ TAPPED_ENTRY.
Proof.
  unfold type_words. intros Hw.
  repeat (apply elem_of_cons in Hw as [[= -> ->]|Hw];
          [split; [apply (bool_decide_unpack (_ ∈ CardTag)); vm_compute; exact I | done]|]).
  by apply elem_of_nil in Hw.
Qed.

Lemma type_words_word w1 w2 x :
  (w1, x) ∈ type_words → (w2, x) ∈ type_words → w1 = w2.
Proof.
  assert (Forall (λ p, Forall (λ q, p.2 = q.2 → p.1 = q.1) type_words) type_words) as H.
  { apply (bool_decide_unpack _). vm_compute. exact I. }
  intros H1 H2. rewrite Forall_forall in H. specialize (H _ H1).
  rewrite Forall_forall in H. by apply (H _ H2).
Qed.

Lemma type_tag_iff n t o word x :
  (word, x) ∈ type_words →
  x ∈ assign_tags n t o ↔ Str.contains word t = true ∨ x ∈ static_entry n.
Proof.
  intros Hw. destruct (type_words_CardTag word x Hw) as [Hx Hne].
  rewrite (assign_tags_plain n t o x Hx Hne). unfold before_land_pass.
  rewrite (text_tags_type_tag o _ word x Hw), elem_of_type_tags, elem_of_static_tags.
  split.
  - intros [?|(w' & Hw' & Hc)]; [by right|]. left.
    by rewrite (type_words_word word w' x Hw Hw').
  - intros [?|?]; [right; by exists word | by left].
Qed.

(** In the static table every mana rock is listed as ramp. *)
Lemma static_rocks_are_ramp :
  map_Forall (λ _ l, MANA_ROCK ∈ l → RAMP ∈ l) STATIC_CARD_TAGS.
Proof.
  apply (bool_decide_unpack (map_Forall (λ _ l, MANA_ROCK ∈ l → RAMP ∈ l)
                                        STATIC_CARD_TAGS)).
  vm_compute. exact I.
Qed.

Lemma text_tags_rock o tags :
  MANA_ROCK ∈ text_tags o tags → MANA_ROCK ∈ tags ∨ RAMP ∈ text_tags o tags.
Proof.
  unfold text_tags. rewrite !elem_of_add_if.
  destruct (found false re_mana _);
    rewrite ?elem_of_union, ?elem_of_singleton, ?elem_of_add_if;
    unfold TAPPED_ENTRY, TUTOR, COUNTERSPELL, BOARD_WIPE, REMOVAL, DRAW, RAMP, MANA_ROCK;
    naive_solver.
Qed.

Lemma rock_is_ramp n t o : MANA_ROCK ∈ assign_tags n t o → RAMP ∈ assign_tags n t o.
Proof.
  assert (MANA_ROCK ∈ CardTag ∧ RAMP ∈ CardTag) as [Hm Hr].
  { split; apply (bool_decide_unpack (_ ∈ CardTag)); vm_compute; exact I. }
  rewrite (assign_tags_plain n t o MANA_ROCK Hm) by done.
  rewrite (assign_tags_plain n t o RAMP Hr) by done.
  unfold before_land_pass.
  intros [H|H]%text_tags_rock; [|done].
  apply text_tags_mono, type_tags_mono.
  apply elem_of_type_tags in H as [H|(word & Hw & _)].
  - apply elem_of_static_tags. apply elem_of_static_tags in H.
    unfold static_entry in *. destruct (STATIC_CARD_TAGS !! n) as [l|] eqn:E; simpl in *.
    + by apply (static_rocks_are_ramp n l E).
    + by apply elem_of_nil in H.
  - exfalso.
    assert (Forall (λ p, p.2 ≠ MANA_ROCK) type_words) as Hall
      by (apply (bool_decide_unpack _); vm_compute; exact I).
    rewrite Forall_forall in Hall. by apply (Hall _ Hw).
Qed.

(** Conditional tags. *)
Lemma conditional_tags n t o x :
  x ∈ assign_tags n t o → conditional x →
  Str.contains "Land" t = true
  ∧ TAPPED_ENTRY ∈ assign_tags n t o
  ∧ x ∈ "COND_FASTLAND" :: count_tags
  ∧ ∀ y, y ∈ assign_tags n t o → conditional y → y = x.
Proof.
  unfold assign_tags, tag_set. fold (before_land_pass n t o).
  setoid_rewrite elem_of_elements.
  intros Hx Hc.
  assert (∀ y, y ∈ before_land_pass n t o → ¬ conditional y) as Hplain
    by (intros y Hy%before_land_pass_CardTag; by apply not_conditional_CardTag).
  unfold land_tags in *.
  destruct (Str.contains "Land" t); [|by apply Hplain in Hx].
  destruct (bool_decide _) eqn:Ht; [|by apply Hplain in Hx].
  apply bool_decide_eq_true in Ht. split; [done|].
  assert (¬ conditional TAPPED_ENTRY) as Hnt by (intros [?|?]; done).
  unfold land_exceptions in *.
  destruct (found false re_two_basics _);
    [apply elem_of_difference in Hx as [Hx _]; by apply Hplain in Hx|].
  destruct (found false re_check _);
    [apply elem_of_difference in Hx as [Hx _]; by apply Hplain in Hx|].
  destruct (found false re_pay _);
    [apply elem_of_difference in Hx as [Hx _]; by apply Hplain in Hx|].
  destruct (found false re_fastland _).
  { apply elem_of_union in Hx as [Hx| ->%elem_of_singleton]; [by apply Hplain in Hx|].
    split; [set_solver|]. split; [set_solver|].
    intros y [Hy| ->%elem_of_singleton]%elem_of_union Hcy; [by apply Hplain in Hy | done]. }
  destruct (search false re_count _) as [m|] eqn:Hm.
  { apply elem_of_union in Hx as [Hx| ->%elem_of_singleton]; [by apply Hplain in Hx|].
    split; [set_solver|]. split.
    - apply elem_of_cons. right. by eapply ReFacts.cond_count_tag_values.
    - intros y [Hy| ->%elem_of_singleton]%elem_of_union Hcy; [by apply Hplain in Hy | done]. }
  destruct (found false re_opponent _); [by apply Hplain in Hx|].
  destruct (found false re_three_lands _);
    [apply elem_of_difference in Hx as [Hx _]; by apply Hplain in Hx|].
  by apply Hplain in Hx.
Qed.

(** What the static table lists is kept. *)
Lemma static_kept n t o x :
  x ∈ static_entry n →
  x ≠ TAPPED_ENTRY ∨ Str.contains "Land" t = false →
  x ∈ assign_tags n t o.
Proof.
  intros Hx Hcase. unfold assign_tags, tag_set. rewrite elem_of_elements.
  assert (x ∈ text_tags o (type_tags t (static_tags n ∅))) as Hpre
    by by apply text_tags_mono, type_tags_mono, elem_of_static_tags.
  destruct Hcase as [Hne|Hnl].
  - by apply land_tags_keeps.
  - by rewrite land_tags_nonland.
Qed.

(** A card without rules text. *)
Lemma text_tags_empty tags : text_tags "" tags = tags.
Proof.
  unfold text_tags. change (Str.lower "") with "".
  replace (found false re_mana "") with false by (vm_compute; reflexivity).
  replace (found false re_draw "") with false by (vm_compute; reflexivity).
  replace (found false re_wipe "") with false by (vm_compute; reflexivity).
  replace (found true re_tutor "") with false by (vm_compute; reflexivity).
  replace (found true re_tapped "") with false by (vm_compute; reflexivity).
  done.
Qed.

Lemma land_exceptions_empty tags : land_exceptions "" tags = tags.
Proof.
  unfold land_exceptions.
  replace (found false re_two_basics "") with false by (vm_compute; reflexivity).
  replace (found false re_check "") with false by (vm_compute; reflexivity).
  replace (found false re_pay "") with false by (vm_compute; reflexivity).
  replace (found false re_fastland "") with false by (vm_compute; reflexivity).
  replace (search false re_count "") with (@None (gmap nat string))
    by (vm_compute; reflexivity).
  replace (found false re_opponent "") with false by (vm_compute; reflexivity).
  replace (found false re_three_lands "") with false by (vm_compute; reflexivity).
  done.
Qed.

Lemma tag_set_empty_text n t : tag_set n t "" = type_tags t (static_tags n ∅).
Proof.
  unfold tag_set. rewrite text_tags_empty. unfold land_tags.
  change (Str.lower "") with "". rewrite land_exceptions_empty.
  by repeat case_match.
Qed.

End TagRules.

(** ** Strings *)

Module StrFacts.

Lemma contains_eq needle hay :
  Str.contains needle hay
  = String.prefix needle hay
    || match hay with
       | EmptyString => false
       | String _ hay' => Str.contains needle hay'
       end.
Proof. by destruct hay. Qed.

Lemma prefix_append (w s : string) : String.prefix w (w +:+ s) = true.
Proof.
  induction w as [|a w IH]; simpl; [by destruct s|].
  destruct (ascii_dec a a); [done|congruence].
Qed.

Lemma contains_here (w s : string) : Str.contains w (w +:+ s) = true.
Proof. rewrite contains_eq, prefix_append. done. Qed.

Lemma contains_later (w pre s : string) :
  Str.contains w s = true → Str.contains w (pre +:+ s) = true.
Proof.
  intros H. induction pre as [|a pre IH]; simpl; [done|].
  rewrite IH. apply orb_true_r.
Qed.

Lemma lower_char_idem c : Str.lower_char (Str.lower_char c) = Str.lower_char c.
Proof. destruct c as [[] [] [] [] [] [] [] []]; reflexivity. Qed.

Lemma lower_idem s : Str.lower (Str.lower s) = Str.lower s.
Proof.
  unfold Str.lower. induction s as [|c s IH]; simpl; [done|].
  by rewrite lower_char_idem, IH.
Qed.

Lemma length_lower s : String.length (Str.lower s) = String.length s.
Proof. unfold Str.lower. induction s as [|c s IH]; simpl; congruence. Qed.

End StrFacts.

(** ** The matcher and letter case *)

Module ReCase.
Import Re StrFacts.

Lemma chr_eqb_lower p x : chr_eqb true p (Str.lower_char x) = chr_eqb true p x.
Proof. unfold chr_eqb. by rewrite lower_char_idem. Qed.

Lemma is_newline_lower x : is_newline (Str.lower_char x) = is_newline x.
Proof. destruct x as [[] [] [] [] [] [] [] []]; reflexivity. Qed.

Lemma is_space_lower x : is_space (Str.lower_char x) = is_space x.
Proof. destruct x as [[] [] [] [] [] [] [] []]; reflexivity. Qed.

Lemma is_digit_lower x : is_digit (Str.lower_char x) = is_digit x.
Proof. destruct x as [[] [] [] [] [] [] [] []]; reflexivity. Qed.

Implicit Types (k : string → gmap nat string → option (gmap nat string)).

Lemma step1_lower (test : ascii → bool) s (j j' : string → option (gmap nat string)) :
  (∀ x, test (Str.lower_char x) = test x) →
  (∀ u, is_Some (j u) ↔ is_Some (j' (Str.lower u))) →
  is_Some (step1 test s j) ↔ is_Some (step1 test (Str.lower s) j').
Proof.
  intros Ht Hj. destruct s as [|x s]; simpl; [done|].
  rewrite Ht. destruct (test x); [apply Hj | done].
Qed.

Lemma is_Some_alt {A} (a b : option A) :
  is_Some (match a with Some c => Some c | None => b end) ↔ is_Some a ∨ is_Some b.
Proof.
  destruct a; split; eauto. intros [H|H]; [by apply is_Some_None in H | done].
Qed.

Lemma run_lower r : ∀ s caps caps' k k',
  same_case k k' →
  is_Some (run true r s caps k) ↔ is_Some (run true r (Str.lower s) caps' k').
Proof.
  induction r as [|p| | | |r1 IH1 r2 IH2|r1 IH1 r2 IH2|r1 IH1|i r1 IH1];
    intros s caps caps' k k' Hk; simpl.
  - apply Hk.
  - apply step1_lower; [apply chr_eqb_lower | intros u; apply Hk].
  - apply step1_lower; [intros x; by rewrite is_newline_lower | intros u; apply Hk].
  - apply step1_lower; [apply is_space_lower | intros u; apply Hk].
  - apply step1_lower; [apply is_digit_lower | intros u; apply Hk].
  - apply IH1. intros u c c'. by apply IH2.
  - rewrite !is_Some_alt. by rewrite (IH1 s caps caps' k k' Hk), (IH2 s caps caps' k k' Hk).
  - rewrite length_lower. generalize (String.length s). intros fuel.
    revert s caps caps'. induction fuel as [|fuel IHf]; intros s caps caps'.
    + apply Hk.
    + rewrite !is_Some_alt.
      match goal with
      | |- is_Some ?a ∨ is_Some ?b ↔ is_Some ?a' ∨ is_Some ?b' =>
          assert (is_Some a ↔ is_Some a') as HA;
          [|assert (is_Some b ↔ is_Some b') as HB; [apply Hk | tauto]]
      end.
      apply IH1. intros u c c'. simpl. rewrite !length_lower.
      destruct (_ <? _)%nat; [apply IHf | done].
  - apply IH1. intros u c c'. apply Hk.
Qed.

Lemma search_lower r s :
  is_Some (search true r s) ↔ is_Some (search true r (Str.lower s)).
Proof.
  induction s as [|a s IH]; cbn [search Str.lower Str.map].
  - rewrite !is_Some_alt. rewrite (run_lower r "" ∅ ∅ _ (λ _ caps, Some caps)); [done|].
    intros u c c'. split; eauto.
  - rewrite !is_Some_alt.
    rewrite (run_lower r (String a s) ∅ ∅ _ (λ _ caps, Some caps)) by (intros u c c'; split; eauto).
    fold (Str.lower s). rewrite IH. done.
Qed.

Lemma found_lower r s : found true r (Str.lower s) = found true r s.
Proof. unfold found. apply bool_decide_ext. symmetry. apply search_lower. Qed.

End ReCase.

(** ** Board wipes, and letter case in the rules text *)

Module TextRules.
Import Re Tags LandRules LandTag EntersTapped TagRules StrFacts ReCase ReFacts.

(** A successful search is a successful match on a suffix. *)
Lemma search_suffix ic r s m :
  search ic r s = Some m →
  ∃ pre s', s = pre +:+ s' ∧ run ic r s' ∅ (λ _ caps, Some caps) = Some m.
Proof.
  induction s as [|a s IH]; intros H.
  - exists "", "". split; [done|]. cbn [search] in H.
    destruct (run ic r "" ∅ _) eqn:E; [congruence | done].
  - cbn [search] in H.
    destruct (run ic r (String a s) ∅ _) eqn:E.
    + exists "", (String a s). split; [done | congruence].
    + destruct (IH H) as (pre & s' & -> & Hrun).
      by exists (String a pre), s'.
Qed.

Lemma wipe_text s :
  found false re_wipe s = true →
  Str.contains "destroy" s = true
  ∧ (Str.contains "creature" s = true ∨ Str.contains "permanent" s = true).
Proof.
  unfold found. intros [m Hm]%bool_decide_eq_true.
  apply search_suffix in Hm as (pre & s' & -> & E).
  unfold re_wipe, Cat in E. cbn [run] in E.
  apply run_Lit in E as (s1 & -> & E).
  apply run_OneOf in E as (w & s2 & Hw & -> & _); [|done].
  split.
  - apply contains_later. reflexivity.
  - apply elem_of_cons in Hw as [->|Hw].
    + left. apply contains_later. reflexivity.
    + apply list_elem_of_singleton in Hw as ->.
      right. apply contains_later. reflexivity.
Qed.

Lemma wipe_is_removal n t o :
  found false re_wipe (Str.lower o) = true →
  BOARD_WIPE ∈ assign_tags n t o ∧ REMOVAL ∈ assign_tags n t o.
Proof.
  intros H. destruct (wipe_text _ H) as [Hd Hc].
  assert (BOARD_WIPE ∈ CardTag ∧ REMOVAL ∈ CardTag) as [Hb Hr].
  { split; apply (bool_decide_unpack (_ ∈ CardTag)); vm_compute; exact I. }
  rewrite (assign_tags_plain n t o BOARD_WIPE Hb) by done.
  rewrite (assign_tags_plain n t o REMOVAL Hr) by done.
  unfold before_land_pass, text_tags. rewrite !elem_of_add_if. split.
  - pose proof (conj H (eq_refl BOARD_WIPE)). tauto.
  - assert (existsb (λ word, Str.contains word (Str.lower o))
                    ["destroy"; "exile"; "sacrifice"]
            && existsb (λ target, Str.contains target (Str.lower o))
                       ["creature"; "permanent"; "target"] = true) as Hrule.
    { apply andb_true_iff. split; cbn [existsb].
      - by rewrite Hd.
      - destruct Hc as [-> | ->]; [done|]. by rewrite orb_true_r. }
    pose proof (conj Hrule (eq_refl REMOVAL)). tauto.
Qed.

Lemma text_tags_lower o tags : text_tags (Str.lower o) tags = text_tags o tags.
Proof. unfold text_tags. by rewrite lower_idem, !found_lower. Qed.

Lemma assign_tags_lower n t o : assign_tags n t (Str.lower o) = assign_tags n t o.
Proof.
  unfold assign_tags, tag_set, land_tags. by rewrite text_tags_lower, lower_idem.
Qed.

End TextRules.

(** ** The tags of a card *)

(** X13.  Every card that [assign_tags] tags MANA_ROCK is also tagged RAMP,
    whether the tag comes from the static table or from the rules text. *)
Theorem mana_rock_is_ramp (n t o : string) :
  Tags.MANA_ROCK ∈ Tags.assign_tags n t o → Tags.RAMP ∈ Tags.assign_tags n t o.
Proof. apply TagRules.rock_is_ramp. Qed.

Lemma mana_rock_is_ramp_witness :
  Tags.RAMP ∈ Tags.assign_tags "Forest" "Basic Land - Forest" "({T}: Add {G}.)".
Proof.
  pose proof (mana_rock_is_ramp "Forest" "Basic Land - Forest" "({T}: Add {G}.)") as Hthm.
  apply Hthm. vm_compute. repeat constructor.
Defined.

(** X14.  For each of the seven type tags, [assign_tags] returns the tag exactly
    when the type line contains the type word or the static table lists the
    tag for the card name: no rule on the rules text adds or removes a type
    tag. *)
Theorem type_tags_follow_type_line (n t o word x : string) :
  (word, x) ∈ type_words →
  x ∈ Tags.assign_tags n t o ↔ Str.contains word t = true ∨ x ∈ static_entry n.
Proof. apply TagRules.type_tag_iff. Qed.

Lemma type_tags_follow_type_line_witness :
  "CREATURE" ∈ Tags.assign_tags "Grizzly Bears" "Creature - Bear" ""
  ↔ Str.contains "Creature" "Creature - Bear" = true
    ∨ "CREATURE" ∈ static_entry "Grizzly Bears".
Proof.
  pose proof (type_tags_follow_type_line "Grizzly Bears" "Creature - Bear" ""
                "Creature" "CREATURE") as Hthm.
  apply Hthm. vm_compute. repeat constructor.
Defined.

(** X15.  A conditional tag in the result of [assign_tags] only occurs on a card
    whose type line contains Land and that also carries TAPPED_ENTRY; it is
    COND_FASTLAND or one of the five tags of the count rule, and a card has
    at most one such tag. *)
Theorem conditional_tags_mark_tapped_lands (n t o x : string) :
  x ∈ Tags.assign_tags n t o → conditional x →
  Str.contains "Land" t = true
  ∧ Tags.TAPPED_ENTRY ∈ Tags.assign_tags n t o
  ∧ x ∈ "COND_FASTLAND" :: count_tags
  ∧ ∀ y, y ∈ Tags.assign_tags n t o → conditional y → y = x.
Proof. apply TagRules.conditional_tags. Qed.

Lemma conditional_tags_mark_tapped_lands_witness :
  Str.contains "Land" "Land" = true
  ∧ Tags.TAPPED_ENTRY ∈ Tags.assign_tags "Seachrome Coast" "Land" seachrome_coast_text
  ∧ "COND_FASTLAND" ∈ "COND_FASTLAND" :: count_tags
  ∧ ∀ y, y ∈ Tags.assign_tags "Seachrome Coast" "Land" seachrome_coast_text →
         conditional y → y = "COND_FASTLAND".
Proof.
  pose proof (conditional_tags_mark_tapped_lands "Seachrome Coast" "Land"
                seachrome_coast_text "COND_FASTLAND") as Hthm.
  apply Hthm.
  - vm_compute. repeat constructor.
  - by left.
Defined.

(** X16.  A card whose rules text matches the board-wipe pattern, in any letter
    case, is tagged both BOARD_WIPE and REMOVAL by [assign_tags]. *)
Theorem text_board_wipe_is_removal (n t o : string) :
  Re.found false Tags.re_wipe (Str.lower o) = true →
  Tags.BOARD_WIPE ∈ Tags.assign_tags n t o ∧ Tags.REMOVAL ∈ Tags.assign_tags n t o.
Proof. apply TextRules.wipe_is_removal. Qed.

Lemma text_board_wipe_is_removal_witness :
  Tags.BOARD_WIPE ∈ Tags.assign_tags "Day of Judgment" "Sorcery" "Destroy all creatures."
  ∧ Tags.REMOVAL ∈ Tags.assign_tags "Day of Judgment" "Sorcery" "Destroy all creatures.".
Proof.
  pose proof (text_board_wipe_is_removal "Day of Judgment" "Sorcery"
                "Destroy all creatures.") as Hthm.
  apply Hthm. vm_compute. reflexivity.
Defined.

(** X17.  On ASCII rules texts [assign_tags] does not depend on the letter case:
    two ASCII texts with the same lower-casing give the same tags, also
    through the two patterns matched on the original text with
    [re.IGNORECASE]. *)
Theorem oracle_text_case_is_ignored (n t o o' : string) :
  ascii_text o = true → ascii_text o' = true →
  Str.lower o = Str.lower o' →
  Tags.assign_tags n t o = Tags.assign_tags n t o'.
Proof.
  intros _ _ H.
  rewrite <- (TextRules.assign_tags_lower n t o), <- (TextRules.assign_tags_lower n t o').
  by rewrite H.
Qed.

Lemma oracle_text_case_is_ignored_witness :
  Tags.assign_tags "Azorius Guildgate" "Land - Gate" "This land enters tapped."
  = Tags.assign_tags "Azorius Guildgate" "Land - Gate" "THIS LAND ENTERS TAPPED.".
Proof.
  pose proof (oracle_text_case_is_ignored "Azorius Guildgate" "Land - Gate"
                "This land enters tapped." "THIS LAND ENTERS TAPPED."
                eq_refl eq_refl eq_refl) as Hthm.
  exact Hthm.
Defined.

(** X18.  Every tag that the static table lists for the card name is in the
    result of [assign_tags], except that TAPPED_ENTRY may be removed again
    when the type line contains Land. *)
Theorem static_tags_are_kept (n t o x : string) :
  x ∈ static_entry n →
  x ≠ Tags.TAPPED_ENTRY ∨ Str.contains "Land" t = false →
  x ∈ Tags.assign_tags n t o.
Proof. apply TagRules.static_kept. Qed.

Lemma static_tags_are_kept_witness :
  "MANA_ROCK" ∈ Tags.assign_tags "Sol Ring" "Artifact" "".
Proof.
  pose proof (static_tags_are_kept "Sol Ring" "Artifact" "" "MANA_ROCK") as Hthm.
  apply Hthm.
  - vm_compute. repeat constructor.
  - by left.
Defined.

(** X19.  With an empty rules text, the tags of [assign_tags] are exactly the
    static tags of the card name and the type tags of the type words found
    in the type line. *)
Theorem no_rules_text_no_text_tags (n t x : string) :
  x ∈ Tags.assign_tags n t ""
  ↔ x ∈ static_entry n ∨ ∃ word, (word, x) ∈ type_words ∧ Str.contains word t = true.
Proof.
  unfold Tags.assign_tags. rewrite elem_of_elements, TagRules.tag_set_empty_text.
  by rewrite TagRules.elem_of_type_tags, TagRules.elem_of_static_tags.
Qed.

(** * Properties of the parsers *)

Module StripFacts.
Import PyStr.

Lemma app_cons c (a b : string) : String c a +:+ b = String c (a +:+ b).
Proof. reflexivity. Qed.

Lemma app_nil (b : string) : "" +:+ b = b.
Proof. reflexivity. Qed.

Lemma app_nil_r (a : string) : a +:+ "" = a.
Proof. induction a as [|c a IH]; [done|]. by rewrite app_cons, IH. Qed.

Lemma app_assoc (a b c : string) : (a +:+ b) +:+ c = a +:+ (b +:+ c).
Proof. induction a as [|x a IH]; [done|]. by rewrite !app_cons, IH. Qed.

Lemma take_drop_while f s : take_while f s +:+ drop_while f s = s.
Proof.
  induction s as [|c s IH]; simpl; [done|].
  destruct (f c); [by rewrite app_cons, IH | done].
Qed.

Lemma all_chars_take_while f s : all_chars f (take_while f s) = true.
Proof. induction s as [|c s IH]; simpl; [done|]. destruct (f c) eqn:E; simpl; [|done]. by rewrite E. Qed.

Lemma drop_while_head f s c :
  first_char (drop_while f s) = Some c → f c = false.
Proof.
  induction s as [|x s IH]; simpl; [done|].
  destruct (f x) eqn:E; [done|]. simpl. by intros [= <-].
Qed.

Lemma drop_while_append f a b :
  all_chars f a = true → (∀ c, first_char b = Some c → f c = false) →
  drop_while f (a +:+ b) = b.
Proof.
  intros Ha Hb. induction a as [|x a IH]; simpl in *.
  - rewrite ?app_nil. destruct b as [|c b]; simpl; [done|]. by rewrite (Hb c eq_refl).
  - rewrite ?app_cons. simpl. apply andb_true_iff in Ha as [-> Ha]. by apply IH.
Qed.

Lemma take_while_append f a b :
  all_chars f a = true → (∀ c, first_char b = Some c → f c = false) →
  take_while f (a +:+ b) = a.
Proof.
  intros Ha Hb. induction a as [|x a IH]; simpl in *.
  - rewrite ?app_nil. destruct b as [|c b]; simpl; [done|]. by rewrite (Hb c eq_refl).
  - rewrite ?app_cons. simpl. apply andb_true_iff in Ha as [-> Ha]. by rewrite IH.
Qed.

Lemma lstrip_drop s : lstrip s = drop_while Re.is_space s.
Proof. induction s as [|c s IH]; simpl; [done|]. by rewrite IH. Qed.

Lemma last_char_cons c s : s ≠ "" → last_char (String c s) = last_char s.
Proof. by destruct s. Qed.

Lemma last_char_None s : last_char s = None → s = "".
Proof.
  induction s as [|c s IH]; [done|]. destruct s; [done|].
  intros H. rewrite last_char_cons in H by done. by apply IH in H.
Qed.

Lemma rstrip_empty s : rstrip s = "" ↔ all_chars Re.is_space s = true.
Proof.
  induction s as [|c s IH]; simpl; [done|].
  destruct (rstrip s) eqn:E.
  - destruct (Re.is_space c); simpl; [|split; done].
    split; [intros _; by apply IH | done].
  - split; [done|]. intros [_ H]%andb_true_iff. apply IH in H. done.
Qed.

Lemma rstrip_last s c : last_char (rstrip s) = Some c → Re.is_space c = false.
Proof.
  induction s as [|x s IH]; simpl; [done|].
  destruct (rstrip s) as [|y r] eqn:E.
  - destruct (Re.is_space x) eqn:Ex; simpl; [done|]. by intros [= <-].
  - rewrite last_char_cons by done. exact IH.
Qed.

Lemma rstrip_first s c :
  first_char s = Some c → Re.is_space c = false → first_char (rstrip s) = Some c.
Proof.
  destruct s as [|x s]; simpl; [done|]. intros [= ->] Hc.
  destruct (rstrip s); [by rewrite Hc | done].
Qed.

Lemma rstrip_id s :
  (∀ c, last_char s = Some c → Re.is_space c = false) → rstrip s = s.
Proof.
  induction s as [|x s IH]; simpl; [done|]. intros H.
  destruct s as [|y s].
  - simpl. by rewrite (H x eq_refl).
  - rewrite IH by done. done.
Qed.

Lemma strip_trimmed s : trimmed (strip s) = true.
Proof.
  unfold trimmed, strip.
  destruct (first_char (rstrip (lstrip s))) as [a|] eqn:Ea; [|done].
  destruct (last_char (rstrip (lstrip s))) as [b|] eqn:Eb; [|done].
  apply rstrip_last in Eb. rewrite Eb, andb_true_r.
  destruct (first_char (lstrip s)) as [a'|] eqn:Ea'.
  - pose proof Ea' as Ha'. rewrite lstrip_drop in Ha'. apply drop_while_head in Ha'.
    rewrite (rstrip_first _ _ Ea' Ha') in Ea. injection Ea as <-. by rewrite Ha'.
  - destruct (lstrip s); [done | done].
Qed.

Lemma strip_id s : trimmed s = true → strip s = s.
Proof.
  unfold trimmed, strip. intros H.
  destruct s as [|a s]; [done|].
  cbn [first_char] in H. destruct (last_char (String a s)) as [b|] eqn:Eb.
  - apply andb_true_iff in H as [Ha Hb]. apply negb_true_iff in Ha, Hb.
    cbn [lstrip]. rewrite Ha. apply rstrip_id. intros c Hc. congruence.
  - by apply last_char_None in Eb.
Qed.

End StripFacts.

(** ** The matcher on classes *)

Module RxFacts.
Import StripFacts.

Section run.
Context {A : Type}.
Variable whole : string.
Implicit Types (k : string → gmap nat string → option A).

Lemma run_many_det f s caps k :
  rejects f k → run whole (Many f) s caps k = k (drop_while f s) caps.
Proof.
  intros Hk. simpl. induction s as [|x s IH]; [done|].
  simpl. destruct (f x) eqn:E; [|done].
  rewrite IH. destruct (k (drop_while f s) caps) eqn:Ek; [done|].
  by apply Hk.
Qed.

Lemma run_many_greedy f s caps k a :
  k (drop_while f s) caps = Some a → run whole (Many f) s caps k = Some a.
Proof.
  intros Hk. simpl. induction s as [|x s IH]; [done|].
  simpl in *. destruct (f x) eqn:E; [|done]. by rewrite IH.
Qed.

Lemma run_some1_cons f x s caps k :
  run whole (Some1 f) (String x s) caps k
  = if f x then run whole (Many f) s caps k else None.
Proof. reflexivity. Qed.

Lemma run_some1_nil f caps k : run whole (Some1 f) "" caps k = None.
Proof. reflexivity. Qed.

Lemma run_some1_det f s caps k :
  rejects f k →
  run whole (Some1 f) s caps k
  = if String.eqb (take_while f s) "" then None else k (drop_while f s) caps.
Proof.
  intros Hk. destruct s as [|x s]; [done|].
  rewrite run_some1_cons. cbn [take_while drop_while]. destruct (f x); [|done].
  by rewrite run_many_det.
Qed.

Lemma run_some1_greedy f s caps k a :
  take_while f s ≠ "" →
  k (drop_while f s) caps = Some a → run whole (Some1 f) s caps k = Some a.
Proof.
  intros Hne Hk. destruct s as [|x s]; [done|].
  rewrite run_some1_cons. cbn [take_while drop_while] in *. destruct (f x); [|done].
  by apply run_many_greedy.
Qed.

Lemma run_some1_none f s caps k :
  take_while f s = "" → run whole (Some1 f) s caps k = None.
Proof.
  intros He. destruct s as [|x s]; [done|].
  rewrite run_some1_cons. cbn [take_while] in He. by destruct (f x).
Qed.

Lemma run_Chr c s caps k :
  run whole (Chr c) s caps k
  = match s with
    | String x s' => if Ascii.eqb c x then k s' caps else None
    | EmptyString => None
    end.
Proof. done. Qed.

End run.

Lemma take_while_nonempty f s : s ≠ "" → all_chars f s = true → take_while f s ≠ "".
Proof. destruct s as [|c s]; [done|]. simpl. intros _ [-> _]%andb_true_iff. done. Qed.

Lemma length_app (a b : string) :
  String.length (a +:+ b) = (String.length a + String.length b)%nat.
Proof. apply ReFacts.length_append. Qed.

End RxFacts.

(** ** [parse_mana_cost] *)

Module ManaCost.
Import StripFacts RxFacts PyStr.

Lemma int_from_nonneg s : ∀ acc, 0 ≤ acc → 0 ≤ int_from acc s.
Proof. induction s as [|c s IH]; intros acc H; simpl; [done|]. apply IH. lia. Qed.

Lemma symbol_weight_nonneg x : 0 ≤ symbol_weight x.
Proof.
  unfold symbol_weight. destruct (isdigit x); [|lia]. by apply int_from_nonneg.
Qed.

Lemma counts_get0 d k : counts d → 0 ≤ dict_get0 d k.
Proof.
  intros H. unfold dict_get0. destruct (d !! k) as [v|] eqn:E; simpl; [|done].
  by destruct (H k v E).
Qed.

Lemma counts_insert d k v :
  counts d → 0 ≤ v → (k ≠ "colorless" → 1 ≤ v) → counts (<[k := v]> d).
Proof. intros Hd H0 H1. by apply map_Forall_insert_2. Qed.

Lemma int_ok x : (String.length x ≤ int_max_str_digits)%nat → int x = Ok (int_from 0 x).
Proof.
  intros H. unfold int. by destruct (Nat.ltb_spec int_max_str_digits (String.length x)); [lia|].
Qed.

Lemma int_raises x :
  (int_max_str_digits < String.length x)%nat → ∃ msg, int x = Raised msg.
Proof.
  intros H. unfold int.
  destruct (Nat.ltb_spec int_max_str_digits (String.length x)); [|lia]. by eexists.
Qed.

Lemma add_symbol_cases d x :
  counts d →
  if long_number x then ∃ msg, add_symbol d x = Raised msg
  else ∃ d', add_symbol d x = Ok d'
             ∧ counts d' ∧ dict_sum d' = dict_sum d + symbol_weight x.
Proof.
  intros Hd. unfold add_symbol, symbol_weight, long_number.
  assert (∀ k, ∃ d', Ok (<[k := dict_get0 d k + 1]> d) = Ok d'
               ∧ counts d' ∧ dict_sum d' = dict_sum d + 1) as Hone.
  { intros k. pose proof (counts_get0 d k Hd). eexists. split; [done|]. split.
    - apply counts_insert; [done | lia | lia].
    - rewrite dict_sum_insert. lia. }
  destruct (isdigit x); cbn [andb].
  - destruct (Nat.ltb_spec int_max_str_digits (String.length x)) as [Hl|Hl].
    + destruct (int_raises x Hl) as [msg ->]. by exists msg.
    + rewrite (int_ok x Hl). simpl.
      pose proof (counts_get0 d "colorless" Hd).
      pose proof (int_from_nonneg x 0 ltac:(done)).
      eexists. split; [done|]. split.
      * apply counts_insert; [done | lia | done].
      * rewrite dict_sum_insert. lia.
  - repeat case_match; apply Hone.
Qed.

Lemma for_each_add_symbol l : ∀ d,
  counts d →
  match for_each add_symbol d l with
  | Ok d' =>
      Forall (λ x, long_number x = false) l
      ∧ counts d' ∧ dict_sum d' = dict_sum d + sum_weights l
  | Raised _ => Exists (λ x, long_number x = true) l
  end.
Proof.
  induction l as [|x l IH]; intros d Hd; simpl.
  - split; [done|]. split; [done | lia].
  - pose proof (add_symbol_cases d x Hd) as Hx.
    destruct (long_number x) eqn:El.
    + destruct Hx as [msg ->]. simpl. by left.
    + destruct Hx as (d1 & -> & Hc & Hs). simpl.
      specialize (IH d1 Hc). destruct (for_each add_symbol d1 l) as [d'|msg].
      * destruct IH as (Hl & Hc' & Hs'). split; [by constructor|].
        split; [done|]. rewrite Hs', Hs. lia.
      * by right.
Qed.

Lemma findall_empty r : findall r "" = [] ∨ ∃ x, findall r "" = [x].
Proof.
  unfold findall. simpl. destruct (run "" r "" ∅ _) as [[rest caps]|]; [|by left].
  right. eexists. done.
Qed.

Lemma parse_mana_cost_fold s :
  parse_mana_cost s = for_each add_symbol ∅ (findall re_mana_symbol s).
Proof.
  unfold parse_mana_cost. destruct (String.eqb_spec s "") as [->|Hne]; [|done].
  reflexivity.
Qed.

Lemma parse_totals s :
  match parse_mana_cost s with
  | Ok d =>
      Forall (λ x, long_number x = false) (findall re_mana_symbol s)
      ∧ counts d ∧ dict_sum d = sum_weights (findall re_mana_symbol s)
  | Raised _ => Exists (λ x, long_number x = true) (findall re_mana_symbol s)
  end.
Proof.
  rewrite parse_mana_cost_fold.
  pose proof (for_each_add_symbol (findall re_mana_symbol s) ∅) as H.
  destruct (for_each add_symbol ∅ (findall re_mana_symbol s)) as [d|msg].
  - destruct H as (Hl & Hc & Hs).
    { intros k v Hk. by rewrite lookup_empty in Hk. }
    split; [done|]. split; [done|]. rewrite Hs. unfold dict_sum. by rewrite map_fold_empty.
  - apply H. intros k v Hk. by rewrite lookup_empty in Hk.
Qed.

Lemma sum_weights_nonneg l : 0 ≤ sum_weights l.
Proof.
  induction l as [|x l IH]; simpl; [done|].
  pose proof (symbol_weight_nonneg x). unfold sum_weights in *. simpl. lia.
Qed.

(** Reading back a written cost. *)
Lemma run_symbol whole x rest :
  x ≠ "" → all_chars (not_chr "}") x = true →
  run whole re_mana_symbol ("{" +:+ x +:+ "}" +:+ rest) ∅ (λ rest caps, Some (rest, caps))
  = Some (rest, {[ 1%nat := x ]}).
Proof.
  intros Hne Hx. unfold re_mana_symbol, Cat.
  change (run whole (Seq (Chr "{") (Seq (Group 1 (Some1 (not_chr "}"))) (Chr "}")))
              ("{" +:+ x +:+ "}" +:+ rest) ∅ (λ rest caps, Some (rest, caps)))
    with (run whole (Some1 (not_chr "}")) (x +:+ "}" +:+ rest) ∅
            (λ s' caps',
               run whole (Chr "}") s' (<[1%nat := Re.consumed (x +:+ "}" +:+ rest) s']> caps')
                   (λ rest caps, Some (rest, caps)))).
  rewrite run_some1_det.
  - rewrite take_while_append, drop_while_append; try done.
    + destruct (String.eqb_spec x ""); [done|].
      rewrite run_Chr. change ("}" +:+ rest) with (String "}" rest).
      cbv iota beta. rewrite Ascii.eqb_refl.
      change (String "}" rest) with ("}" +:+ rest).
      rewrite ReFacts.consumed_append. done.
    + by intros c [= <-].
    + by intros c [= <-].
  - intros c u caps Hc. rewrite run_Chr. unfold not_chr in Hc.
    apply negb_true_iff in Hc. rewrite Ascii.eqb_sym. by rewrite Hc.
Qed.

Lemma findall_write_cost l : ∀ fuel whole,
  Forall (λ x, x ≠ "" ∧ all_chars (not_chr "}") x = true) l →
  (String.length (write_cost l) < fuel)%nat →
  findall_go fuel re_mana_symbol whole (write_cost l) = l.
Proof.
  induction l as [|x l IH]; intros fuel whole Hall Hfuel.
  - destruct fuel; [simpl in Hfuel; lia|]. reflexivity.
  - apply Forall_cons in Hall as [[Hne Hx] Hall].
    destruct fuel; [lia|]. cbn [write_cost] in *. cbn [findall_go].
    rewrite run_symbol by done.
    rewrite !length_app in *. cbn [String.length] in *.
    destruct (Nat.ltb_spec (String.length (write_cost l))
                (1 + (String.length x + (1 + String.length (write_cost l)))));
      [|lia].
    rewrite IH; [|done|lia]. unfold Re.group. by rewrite lookup_singleton_eq.
Qed.

End ManaCost.

(** ** Quantities *)

Module QuantityFacts.
Import StripFacts RxFacts PyStr.

Lemma all_chars_app f a b : all_chars f (a +:+ b) = all_chars f a && all_chars f b.
Proof.
  induction a as [|c a IH]; [done|]. rewrite app_cons. simpl.
  by rewrite IH, andb_assoc.
Qed.

Lemma last_char_app a b : b ≠ "" → last_char (a +:+ b) = last_char b.
Proof.
  intros Hb. induction a as [|c a IH]; [done|]. rewrite app_cons.
  rewrite last_char_cons; [done|]. destruct a, b; done.
Qed.

Lemma last_char_all f s :
  s ≠ "" → all_chars f s = true → ∃ c, last_char s = Some c ∧ f c = true.
Proof.
  induction s as [|x s IH]; [done|]. intros _ [Hx Hs]%andb_true_iff.
  destruct s as [|y s]; [by exists x|].
  rewrite last_char_cons by done. by apply IH.
Qed.

Lemma length_drop_while f s :
  (String.length (drop_while f s) ≤ String.length s)%nat.
Proof. induction s as [|c s IH]; simpl; [done|]. destruct (f c); simpl; lia. Qed.

Lemma length_skip_x s : (String.length (skip_x s) ≤ String.length s)%nat.
Proof.
  destruct s as [|c s]; [done|]. cbn [skip_x].
  destruct (Ascii.eqb "x" c); cbn [String.length]; lia.
Qed.

Lemma length_drop_while_lt f s :
  take_while f s ≠ "" → (String.length (drop_while f s) < String.length s)%nat.
Proof.
  destruct s as [|c s]; simpl; [done|]. destruct (f c); [|done].
  intros _. pose proof (length_drop_while f s). lia.
Qed.

Lemma quantity_rest_shorter s rest :
  quantity_rest s = Some rest → (String.length rest < String.length s)%nat.
Proof.
  unfold quantity_rest.
  destruct (String.eqb_spec (take_while Re.is_digit s) "") as [|Hd]; [done|].
  destruct (String.eqb_spec (take_while Re.is_space (skip_x (drop_while Re.is_digit s))) "")
    as [|Hw]; [done|].
  intros [= <-].
  pose proof (length_drop_while_lt _ _ Hd).
  pose proof (length_skip_x (drop_while Re.is_digit s)).
  pose proof (length_drop_while Re.is_space (skip_x (drop_while Re.is_digit s))). lia.
Qed.

Lemma skip_x_suffix s : ∃ mid, s = mid +:+ skip_x s.
Proof.
  destruct s as [|x r]; [by exists ""|]. cbn [skip_x].
  destruct (Ascii.eqb "x" x); [by exists (String x "") | by exists ""].
Qed.

(** What follows a quantity is a suffix of the line, and ends as it does. *)
Lemma quantity_rest_suffix s rest :
  quantity_rest s = Some rest →
  ∃ pre c, s = pre +:+ rest ∧ last_char pre = Some c ∧ Re.is_space c = true.
Proof.
  unfold quantity_rest.
  destruct (String.eqb_spec (take_while Re.is_digit s) "") as [|Hd]; [done|].
  set (r1 := drop_while Re.is_digit s).
  destruct (String.eqb_spec (take_while Re.is_space (skip_x r1)) "") as [|Hw]; [done|].
  intros [= <-].
  destruct (last_char_all Re.is_space (take_while Re.is_space (skip_x r1)) Hw
              (all_chars_take_while _ _)) as (c & Hc & Hsp).
  destruct (skip_x_suffix r1) as [mid Hmid].
  exists (take_while Re.is_digit s +:+ mid +:+ take_while Re.is_space (skip_x r1)), c.
  split; [|split; [|done]].
  - rewrite !app_assoc, take_drop_while, <- Hmid. unfold r1. by rewrite take_drop_while.
  - rewrite <- app_assoc. by rewrite last_char_app.
Qed.

Section run.
Context {A : Type}.
Variable whole : string.
Implicit Types (k : string → gmap nat string → option A).

(** [x?\s+...]: the optional [x] is taken when there is one. *)
Lemma run_opt_x R s caps k :
  run whole (Seq (Opt (Chr "x")) (Seq (Some1 Re.is_space) R)) s caps k
  = run whole (Seq (Some1 Re.is_space) R) (skip_x s) caps k.
Proof.
  destruct s as [|c s]; [done|].
  change (run whole (Seq (Opt (Chr "x")) (Seq (Some1 Re.is_space) R)) (String c s) caps k)
    with (match (if Ascii.eqb "x" c
                 then run whole (Seq (Some1 Re.is_space) R) s caps k else None) with
          | Some a => Some a
          | None => run whole (Seq (Some1 Re.is_space) R) (String c s) caps k
          end).
  cbn [skip_x]. destruct (Ascii.eqb_spec "x" c) as [<-|Hc].
  - destruct (run whole (Seq (Some1 Re.is_space) R) s caps k); [done|]. reflexivity.
  - done.
Qed.

Lemma run_opt_x_end s caps k :
  run whole (Seq (Opt (Chr "x")) (Some1 Re.is_space)) s caps k
  = run whole (Some1 Re.is_space) (skip_x s) caps k.
Proof.
  destruct s as [|c s]; [done|].
  change (run whole (Seq (Opt (Chr "x")) (Some1 Re.is_space)) (String c s) caps k)
    with (match (if Ascii.eqb "x" c
                 then run whole (Some1 Re.is_space) s caps k else None) with
          | Some a => Some a
          | None => run whole (Some1 Re.is_space) (String c s) caps k
          end).
  cbn [skip_x]. destruct (Ascii.eqb_spec "x" c) as [<-|Hc].
  - destruct (run whole (Some1 Re.is_space) s caps k); [done|]. reflexivity.
  - done.
Qed.

(** Neither [x?\s+] can start with a digit. *)
Lemma digit_not_space c : Re.is_digit c = true → Re.is_space c = false ∧ Ascii.eqb "x" c = false.
Proof. destruct c as [[] [] [] [] [] [] [] []]; (done || by vm_compute). Qed.

End run.

Lemma quantity_prefix_run s :
  run s re_quantity_prefix s ∅ (λ rest _, Some rest) = quantity_rest s.
Proof.
  unfold re_quantity_prefix, Cat, quantity_rest.
  change (run s (Seq Bos (Seq (Some1 Re.is_digit) (Seq (Opt (Chr "x")) (Some1 Re.is_space))))
              s ∅ (λ rest _, Some rest))
    with (if (String.length s =? String.length s)%nat
          then run s (Some1 Re.is_digit) s ∅
                 (λ s' caps', run s (Seq (Opt (Chr "x")) (Some1 Re.is_space)) s' caps'
                                (λ rest _, Some rest))
          else None).
  rewrite Nat.eqb_refl. rewrite run_some1_det.
  - destruct (String.eqb (take_while Re.is_digit s) ""); [done|].
    rewrite run_opt_x_end.
    destruct (String.eqb_spec (take_while Re.is_space (skip_x (drop_while Re.is_digit s))) "")
      as [He|Hne].
    + by apply run_some1_none.
    + by apply run_some1_greedy.
  - intros c u caps Hc. rewrite run_opt_x_end. cbn [skip_x].
    destruct (digit_not_space c Hc) as [Hs ->].
    rewrite run_some1_cons. by rewrite Hs.
Qed.

Lemma sub_go_bos fuel r whole : ∀ u,
  (String.length u < String.length whole)%nat →
  sub_go fuel (Seq Bos r) whole u = u.
Proof.
  induction fuel as [|fuel IH]; intros u Hu; [done|].
  cbn [sub_go].
  change (run whole (Seq Bos r) u ∅ (λ rest _, Some rest))
    with (if (String.length u =? String.length whole)%nat
          then run whole r u ∅ (λ rest _, Some rest) else None).
  destruct (Nat.eqb_spec (String.length u) (String.length whole)); [lia|].
  destruct u as [|c u]; [done|]. rewrite IH; [done|]. simpl in Hu. lia.
Qed.

Lemma sub_quantity_prefix s :
  sub re_quantity_prefix s = default s (quantity_rest s).
Proof.
  unfold sub. cbn [sub_go]. rewrite quantity_prefix_run.
  destruct (quantity_rest s) as [rest|] eqn:E; simpl.
  - pose proof (quantity_rest_shorter s rest E) as Hlt.
    destruct (Nat.ltb_spec (String.length rest) (String.length s)); [|lia].
    by apply sub_go_bos.
  - destruct s as [|c s]; [done|]. f_equal. apply sub_go_bos. simpl. lia.
Qed.

End QuantityFacts.

(** ** Decklist entries *)

Module EntryFacts.
Import StripFacts RxFacts QuantityFacts PyStr.

Lemma drop_while_all f s : all_chars f s = true → drop_while f s = "".
Proof.
  induction s as [|c s IH]; [done|]. simpl. intros [-> Hs]%andb_true_iff. by apply IH.
Qed.

Lemma consumed_all s : Re.consumed s "" = s.
Proof.
  rewrite <- (app_nil_r s) at 1. by rewrite ReFacts.consumed_append.
Qed.

Lemma consumed_drop_while f s : Re.consumed s (drop_while f s) = take_while f s.
Proof.
  rewrite <- (take_drop_while f s) at 1. by rewrite ReFacts.consumed_append.
Qed.

Lemma trimmed_rest s pre rest c :
  trimmed s = true → s = pre +:+ rest → last_char pre = Some c → Re.is_space c = true →
  rest ≠ "".
Proof.
  intros Ht -> Hc Hsp ->. rewrite app_nil_r in Ht. unfold trimmed in Ht.
  rewrite Hc in Ht. destruct pre as [|a pre']; [done|]. cbn [first_char] in Ht.
  rewrite Hsp in Ht. by rewrite andb_false_r in Ht.
Qed.

(** The quantity of an entry: the digits are read greedily, and what
    follows them is matched against the rest of the pattern. *)
Lemma entry_match_digits s :
  match_ re_entry s
  = if String.eqb (take_while Re.is_digit s) "" then None
    else run s (Seq (Opt (Chr "x"))
                  (Seq (Some1 Re.is_space) (Seq (Group 2 (Some1 not_newline)) Eos)))
             (drop_while Re.is_digit s) {[ 1%nat := take_while Re.is_digit s ]}
             (λ rest caps, Some (rest, caps)).
Proof.
  unfold match_, re_entry, Cat.
  set (R := Seq (Group 2 (Some1 not_newline)) Eos).
  change (run s (Seq Bos (Seq (Group 1 (Some1 Re.is_digit))
                        (Seq (Opt (Chr "x")) (Seq (Some1 Re.is_space) R))))
              s ∅ (λ rest caps, Some (rest, caps)))
    with (if (String.length s =? String.length s)%nat
          then run s (Some1 Re.is_digit) s ∅
                 (λ s' caps',
                    run s (Seq (Opt (Chr "x")) (Seq (Some1 Re.is_space) R)) s'
                        (<[1%nat := Re.consumed s s']> caps')
                        (λ rest caps, Some (rest, caps)))
          else None).
  rewrite Nat.eqb_refl. rewrite run_some1_det.
  2:{ intros c u caps Hc. rewrite run_opt_x. cbn [skip_x].
      destruct (digit_not_space c Hc) as [Hs ->].
      change (run s (Seq (Some1 Re.is_space) R) (String c u) ?cc ?k)
        with (run s (Some1 Re.is_space) (String c u) cc (λ s' caps', run s R s' caps' k)).
      rewrite run_some1_cons. by rewrite Hs. }
  destruct (String.eqb (take_while Re.is_digit s) ""); [done|].
  by rewrite consumed_drop_while.
Qed.

Lemma entry_match s :
  trimmed s = true → all_chars not_newline s = true →
  match_ re_entry s
  = match quantity_rest s with
    | Some rest =>
        Some ("", <[2%nat := rest]> {[ 1%nat := take_while Re.is_digit s ]})
    | None => None
    end.
Proof.
  intros Ht Hnn. rewrite entry_match_digits.
  set (R := Seq (Group 2 (Some1 not_newline)) Eos).
  pose proof (quantity_rest_suffix s) as Hsuf.
  unfold quantity_rest in *.
  destruct (String.eqb (take_while Re.is_digit s) ""); [done|].
  rewrite run_opt_x.
  set (r2 := skip_x (drop_while Re.is_digit s)) in *.
  change (run s (Seq (Some1 Re.is_space) R) r2 ?cc ?k)
    with (run s (Some1 Re.is_space) r2 cc (λ s' caps', run s R s' caps' k)).
  destruct (String.eqb_spec (take_while Re.is_space r2) "") as [He|Hne].
  { by apply run_some1_none. }
  apply run_some1_greedy; [done|].
  set (r3 := drop_while Re.is_space r2) in *.
  destruct (Hsuf r3 eq_refl) as (pre & c & Hs & Hc & Hsp).
  assert (r3 ≠ "") as Hr3 by by eapply trimmed_rest.
  assert (all_chars not_newline r3 = true) as Hnn3.
  { rewrite Hs, all_chars_app in Hnn. by apply andb_true_iff in Hnn as [_ ?]. }
  unfold R.
  change (run s (Seq (Group 2 (Some1 not_newline)) Eos) r3 ?cc ?k)
    with (run s (Some1 not_newline) r3 cc
            (λ s' caps', run s Eos s' (<[2%nat := Re.consumed r3 s']> caps') k)).
  apply run_some1_greedy.
  - by apply take_while_nonempty.
  - rewrite (drop_while_all _ _ Hnn3). cbn [run at_end]. by rewrite consumed_all.
Qed.

Lemma startswith_commander s :
  Str.startswith "# Commander:" s = true → Str.startswith "#" s = true.
Proof.
  unfold Str.startswith. destruct s as [|c s]; [done|]. cbn [String.prefix].
  destruct (ascii_dec "#" c); [|done]. intros _. by destruct s.
Qed.

Lemma lines_agree cards cmd line :
  all_chars not_newline (strip line) = true →
  Str.startswith "#" (strip line) = false →
  parse_line (cards, cmd) line
  = (quantity ← quantity_of (strip line);
     Ok (match parse_card_name line with
         | Some name => (cards ++ [(name, quantity)], cmd)
         | None => (cards, cmd)
         end)).
Proof.
  intros Hnn Hhash. unfold parse_line, parse_card_name. cbv zeta.
  destruct (Str.startswith "# Commander:" (strip line)) eqn:Hc.
  { apply startswith_commander in Hc. congruence. }
  rewrite Hhash, orb_false_r.
  destruct (String.eqb_spec (strip line) "") as [He|Hne].
  { rewrite He. reflexivity. }
  rewrite (entry_match (strip line) (strip_trimmed line) Hnn).
  rewrite sub_quantity_prefix. unfold quantity_of.
  destruct (quantity_rest (strip line)) as [rest|] eqn:E; simpl.
  - unfold Re.group.
    assert ((<[2%nat := rest]> {[ 1%nat := take_while Re.is_digit (strip line) ]}
              : gmap nat string) !! 1%nat
            = Some (take_while Re.is_digit (strip line))) as ->
      by (rewrite lookup_insert_ne by lia; apply lookup_singleton_eq).
    rewrite lookup_insert_eq. simpl.
    destruct (int (take_while Re.is_digit (strip line))) as [q|msg]; [|done]. simpl.
    by destruct (String.eqb (strip (sub re_set_code rest)) "").
  - by destruct (String.eqb (strip (sub re_set_code (strip line))) "").
Qed.

End EntryFacts.

(** ** Set codes *)

Module SetCodeFacts.
Import StripFacts RxFacts QuantityFacts EntryFacts PyStr.

Lemma at_end_space c s : at_end (String c s) = true → Re.is_space c = true ∧ s = "".
Proof.
  destruct s; simpl; [|done]. intros H. split; [|done].
  revert H. destruct c as [[] [] [] [] [] [] [] []]; by vm_compute.
Qed.

Lemma run_trailing_space whole s caps :
  run whole (Seq (Many Re.is_space) Eos) s caps (λ rest _, Some rest)
  = if all_chars Re.is_space s then Some "" else None.
Proof.
  change (run whole (Seq (Many Re.is_space) Eos) s caps (λ rest _, Some rest))
    with (run whole (Many Re.is_space) s caps
            (λ s' caps', if at_end s' then Some s' else None)).
  cbn [run]. induction s as [|x s IH]; [done|].
  cbn [all_chars]. destruct (Re.is_space x) eqn:Ex; cbn [andb].
  - rewrite IH. destruct (all_chars Re.is_space s) eqn:Es; [done|].
    destruct (at_end (String x s)) eqn:Ee; [|done].
    apply at_end_space in Ee as [_ ->]. done.
  - destruct (at_end (String x s)) eqn:Ee; [|done].
    apply at_end_space in Ee as [? _]. congruence.
Qed.

Lemma space_not_paren c : Re.is_space c = true → Ascii.eqb "(" c = false.
Proof. destruct c as [[] [] [] [] [] [] [] []]; by vm_compute. Qed.

Lemma set_code_run whole s :
  run whole re_set_code s ∅ (λ rest _, Some rest)
  = if set_code_at s then Some "" else None.
Proof.
  unfold re_set_code, Cat.
  set (R2 := Seq (Chr ")") (Seq (Many Re.is_space) Eos)).
  set (R1 := Seq (Chr "(") (Seq (Some1 (not_chr ")")) R2)).
  change (run whole (Seq (Many Re.is_space) R1) s ∅ (λ rest _, Some rest))
    with (run whole (Many Re.is_space) s ∅
            (λ s' caps', run whole R1 s' caps' (λ rest _, Some rest))).
  rewrite run_many_det.
  2:{ intros c u caps Hc. unfold R1.
      change (run whole (Seq (Chr "(") ?R) (String c u) caps ?k)
        with (if Ascii.eqb "(" c then run whole R u caps k else None).
      by rewrite (space_not_paren c Hc). }
  unfold set_code_at. destruct (drop_while Re.is_space s) as [|c v]; [done|].
  unfold R1.
  change (run whole (Seq (Chr "(") (Seq (Some1 (not_chr ")")) R2)) (String c v) ∅ ?k)
    with (if Ascii.eqb "(" c
          then run whole (Some1 (not_chr ")")) v ∅ (λ s' caps', run whole R2 s' caps' k)
          else None).
  destruct (Ascii.eqb "(" c); [|done]. cbn [andb].
  rewrite run_some1_det.
  2:{ intros c' u caps Hc. unfold R2.
      change (run whole (Seq (Chr ")") ?R) (String c' u) caps ?k)
        with (if Ascii.eqb ")" c' then run whole R u caps k else None).
      unfold not_chr in Hc. apply negb_true_iff in Hc.
      rewrite Ascii.eqb_sym. by rewrite Hc. }
  destruct (String.eqb (take_while (not_chr ")") v) ""); [done|]. cbn [negb andb].
  destruct (drop_while (not_chr ")") v) as [|c' w]; [done|].
  unfold R2.
  change (run whole (Seq (Chr ")") ?R) (String c' w) ∅ ?k)
    with (if Ascii.eqb ")" c' then run whole R w ∅ k else None).
  destruct (Ascii.eqb ")" c'); [|done]. cbn [andb].
  apply run_trailing_space.
Qed.

Lemma set_code_at_nonempty s : set_code_at s = true → s ≠ "".
Proof. by intros H ->. Qed.

Lemma sub_go_set_code fuel whole : ∀ s,
  (String.length s < fuel)%nat → sub_go fuel re_set_code whole s = cut_set_code s.
Proof.
  induction fuel as [|fuel IH]; intros s Hs; [lia|].
  cbn [sub_go]. rewrite set_code_run.
  destruct s as [|c s].
  - reflexivity.
  - cbn [cut_set_code]. destruct (set_code_at (String c s)).
    + cbn [String.length Nat.ltb Nat.leb]. destruct fuel; [simpl in Hs; lia|]. reflexivity.
    + rewrite IH; [done|]. simpl in Hs. lia.
Qed.

Lemma sub_set_code s : sub re_set_code s = cut_set_code s.
Proof. unfold sub. apply sub_go_set_code. lia. Qed.

(** A name without an opening parenthesis is kept, and a set code after it
    is cut. *)
Lemma drop_while_app_l f a b :
  drop_while f a ≠ "" → drop_while f (a +:+ b) = drop_while f a +:+ b.
Proof.
  induction a as [|c a IH]; [done|]. rewrite app_cons. simpl.
  destruct (f c); [apply IH | by rewrite app_cons].
Qed.

Lemma all_chars_drop_while f g s : all_chars g s = true → all_chars g (drop_while f s) = true.
Proof.
  induction s as [|c s IH]; [done|]. simpl. intros [Hc Hs]%andb_true_iff.
  destruct (f c); [by apply IH|]. simpl. by rewrite Hc, Hs.
Qed.

Lemma drop_while_last f s c :
  last_char s = Some c → f c = false → drop_while f s ≠ "".
Proof.
  induction s as [|x s IH]; [done|]. intros Hc Hf. simpl.
  destruct (f x) eqn:Ex; [|done].
  destruct s as [|y s]; [simpl in Hc; congruence|].
  rewrite last_char_cons in Hc by done. by apply IH.
Qed.

Lemma no_set_code_in_name nm suffix c :
  last_char nm = Some c → Re.is_space c = false →
  all_chars (not_chr "(") nm = true →
  set_code_at (nm +:+ suffix) = false.
Proof.
  intros Hc Hsp Hnp. unfold set_code_at.
  pose proof (drop_while_last Re.is_space nm c Hc Hsp) as Hne.
  rewrite drop_while_app_l by done.
  pose proof (all_chars_drop_while Re.is_space _ nm Hnp) as Hall.
  destruct (drop_while Re.is_space nm) as [|x v]; [done|].
  rewrite app_cons. simpl in Hall. apply andb_true_iff in Hall as [Hx _].
  unfold not_chr in Hx. apply negb_true_iff in Hx.
  rewrite Ascii.eqb_sym, Hx. done.
Qed.

Lemma set_code_at_code w code :
  all_chars Re.is_space w = true →
  code ≠ "" → all_chars (not_chr ")") code = true →
  set_code_at (w +:+ "(" +:+ code +:+ ")") = true.
Proof.
  intros Hw Hne Hcode. unfold set_code_at.
  rewrite drop_while_append; [|done|by intros c [= <-]].
  change ("(" +:+ code +:+ ")") with (String "(" (code +:+ ")")).
  cbv iota beta. rewrite Ascii.eqb_refl. cbn [andb].
  rewrite take_while_append, drop_while_append; try done; try (by intros c [= <-]).
  destruct (String.eqb_spec code ""); [done|]. reflexivity.
Qed.

Lemma cut_name nm suffix :
  (nm = "" ∨ ∃ c, last_char nm = Some c ∧ Re.is_space c = false) →
  all_chars (not_chr "(") nm = true →
  cut_set_code (nm +:+ suffix) = nm +:+ cut_set_code suffix.
Proof.
  induction nm as [|x nm IH]; intros Hlast Hnp; [done|].
  destruct Hlast as [?|(c & Hc & Hsp)]; [done|].
  rewrite app_cons. cbn [cut_set_code]. rewrite <- app_cons.
  rewrite (no_set_code_in_name _ suffix c Hc Hsp Hnp). rewrite !app_cons.
  f_equal. apply IH.
  - destruct nm as [|y nm]; [by left|]. right. exists c.
    by rewrite last_char_cons in Hc by done.
  - simpl in Hnp. by apply andb_true_iff in Hnp as [_ ?].
Qed.

Lemma cut_code w code :
  all_chars Re.is_space w = true →
  code ≠ "" → all_chars (not_chr ")") code = true →
  cut_set_code (w +:+ "(" +:+ code +:+ ")") = "".
Proof.
  intros Hw Hne Hcode.
  pose proof (set_code_at_code w code Hw Hne Hcode) as H.
  destruct (w +:+ "(" +:+ code +:+ ")") as [|c s]; [done|].
  cbn [cut_set_code]. by rewrite H.
Qed.

End SetCodeFacts.

(** ** Written lines, read back *)

Module WrittenLines.
Import StripFacts RxFacts QuantityFacts EntryFacts SetCodeFacts PyStr.

Lemma parse_card_name_eq line :
  parse_card_name line
  = let l := strip line in
    if String.eqb l "" then None
    else
      let r := strip (cut_set_code (default l (quantity_rest l))) in
      if String.eqb r "" then None else Some r.
Proof. unfold parse_card_name. cbv zeta. by rewrite sub_quantity_prefix, sub_set_code. Qed.

Lemma eqb_empty_false s : negb (String.eqb s "") = true → s ≠ "".
Proof. by intros H ->. Qed.

Lemma first_char_app a b : a ≠ "" → first_char (a +:+ b) = first_char a.
Proof. destruct a; [done|]. by rewrite app_cons. Qed.

Lemma app_nonempty_r a b : b ≠ "" → a +:+ b ≠ "".
Proof. destruct a; [by rewrite app_nil|]. by rewrite app_cons. Qed.

Lemma app_nonempty_l a b : a ≠ "" → a +:+ b ≠ "".
Proof. destruct a; [done|]. by rewrite app_cons. Qed.

Lemma first_char_all f s c : all_chars f s = true → first_char s = Some c → f c = true.
Proof. destruct s; [done|]. simpl. intros [? _]%andb_true_iff [= <-]. done. Qed.

Lemma space_not_digit c : Re.is_space c = true → Re.is_digit c = false ∧ Ascii.eqb "x" c = false.
Proof. destruct c as [[] [] [] [] [] [] [] []]; by vm_compute. Qed.

Lemma plain_name_parts name :
  plain_name name = true →
  name ≠ "" ∧ trimmed name = true ∧ all_chars (not_chr "(") name = true
  ∧ (∃ a, first_char name = Some a ∧ Re.is_space a = false)
  ∧ (∃ b, last_char name = Some b ∧ Re.is_space b = false).
Proof.
  unfold plain_name. intros [[Hne%eqb_empty_false Ht]%andb_true_iff Hp]%andb_true_iff.
  repeat split; try done.
  - destruct name as [|a name]; [done|]. exists a. split; [done|].
    unfold trimmed in Ht. cbn [first_char] in Ht.
    destruct (last_char (String a name)) eqn:Eb; [|by apply last_char_None in Eb].
    apply andb_true_iff in Ht as [Ha _]. by apply negb_true_iff in Ha.
  - unfold trimmed in Ht. destruct name as [|a name]; [done|]. cbn [first_char] in Ht.
    destruct (last_char (String a name)) as [b|] eqn:Eb.
    + exists b. split; [done|]. apply andb_true_iff in Ht as [_ Hb]. by apply negb_true_iff in Hb.
    + by apply last_char_None in Eb.
Qed.

(** The quantity of a written line is read, and the rest follows it. *)
Lemma quantity_written d x w rest :
  digits d = true → blanks w = true →
  (∀ c, first_char rest = Some c → Re.is_space c = false) →
  take_while Re.is_digit (write_quantity d x w +:+ rest) = d
  ∧ quantity_rest (write_quantity d x w +:+ rest) = Some rest.
Proof.
  unfold digits, blanks.
  intros [Hd%eqb_empty_false Hdd]%andb_true_iff [Hw%eqb_empty_false Hww]%andb_true_iff Hrest.
  unfold write_quantity. rewrite !app_assoc.
  set (xs := if x then "x" else "").
  assert (∀ c, first_char (xs +:+ w +:+ rest) = Some c → Re.is_digit c = false) as Hfirst.
  { intros c. destruct w as [|cw w']; [done|]. simpl in Hww.
    apply andb_true_iff in Hww as [Hcw _]. apply space_not_digit in Hcw as [? ?].
    unfold xs. destruct x.
    - change ("x" +:+ String cw w' +:+ rest) with (String "x" (String cw w' +:+ rest)).
      by intros [= <-].
    - rewrite app_nil, app_cons. by intros [= <-]. }
  assert (take_while Re.is_digit (d +:+ xs +:+ w +:+ rest) = d) as Htake
    by by apply take_while_append.
  split; [done|].
  unfold quantity_rest. rewrite Htake.
  destruct (String.eqb_spec d ""); [done|].
  rewrite drop_while_append by done.
  assert (skip_x (xs +:+ w +:+ rest) = w +:+ rest) as ->.
  { unfold xs. destruct x.
    - change ("x" +:+ w +:+ rest) with (String "x" (w +:+ rest)). reflexivity.
    - rewrite app_nil. destruct w as [|cw w']; [done|]. rewrite app_cons. cbn [skip_x].
      simpl in Hww. apply andb_true_iff in Hww as [Hcw _].
      apply space_not_digit in Hcw as [_ ->]. done. }
  rewrite take_while_append, drop_while_append by done.
  by destruct (String.eqb_spec w "").
Qed.

(** A line without a leading digit has no quantity. *)
Lemma quantity_none s :
  (∀ c, first_char s = Some c → Re.is_digit c = false) → quantity_rest s = None.
Proof.
  intros H. unfold quantity_rest. destruct s as [|c s]; [done|].
  cbn [take_while]. by rewrite (H c eq_refl).
Qed.

Lemma name_then_code name suffix :
  plain_name name = true →
  cut_set_code suffix = "" →
  strip (cut_set_code (name +:+ suffix)) = name.
Proof.
  intros (Hne & Ht & Hp & _ & Hb)%plain_name_parts Hcut.
  rewrite cut_name; [|by right|done]. rewrite Hcut, app_nil_r. by apply strip_id.
Qed.

Lemma trimmed_line s a b :
  first_char s = Some a → Re.is_space a = false →
  last_char s = Some b → Re.is_space b = false → trimmed s = true.
Proof. unfold trimmed. intros -> -> -> ->. done. Qed.

Lemma read_back l name suffix :
  plain_name name = true → cut_set_code suffix = "" →
  trimmed l = true → l ≠ "" →
  default l (quantity_rest l) = name +:+ suffix →
  parse_card_name l = Some name.
Proof.
  intros Hname Hcut Ht Hne Hq. rewrite parse_card_name_eq. cbv zeta.
  rewrite (strip_id l Ht). destruct (String.eqb_spec l ""); [done|].
  rewrite Hq, (name_then_code name suffix Hname Hcut).
  apply plain_name_parts in Hname as (Hn & _).
  by destruct (String.eqb_spec name "").
Qed.

Lemma cut_written_code w code :
  all_chars Re.is_space w = true → code_text code = true →
  cut_set_code (write_set_code w code) = "".
Proof.
  unfold code_text. intros Hw [Hc%eqb_empty_false Hcc]%andb_true_iff.
  by apply cut_code.
Qed.

Lemma last_char_code w code : last_char (write_set_code w code) = Some ")"%char.
Proof.
  unfold write_set_code.
  assert (code +:+ ")" ≠ "") by by apply app_nonempty_r.
  assert ("(" +:+ code +:+ ")" ≠ "") by by apply app_nonempty_r.
  by rewrite (last_char_app w), (last_char_app "("), (last_char_app code).
Qed.

Lemma digits_first d :
  digits d = true → ∃ a, first_char d = Some a ∧ Re.is_digit a = true.
Proof.
  unfold digits. intros [Hd%eqb_empty_false Hdd]%andb_true_iff.
  destruct d as [|a d]; [done|]. exists a. split; [done|].
  simpl in Hdd. by apply andb_true_iff in Hdd as [? _].
Qed.

Lemma written_line_shape d x w name suffix :
  digits d = true → blanks w = true → plain_name name = true →
  (suffix = "" ∨ ∃ b, last_char suffix = Some b ∧ Re.is_space b = false) →
  let l := write_quantity d x w +:+ name +:+ suffix in
  trimmed l = true ∧ l ≠ "" ∧ quantity_rest l = Some (name +:+ suffix)
  ∧ take_while Re.is_digit l = d.
Proof.
  intros Hd Hw Hname Hsuf l.
  pose proof Hname as (Hne & _ & _ & (a & Ha & Hsa) & (b & Hb & Hsb))%plain_name_parts.
  destruct (digits_first d Hd) as (a0 & Ha0 & Hda0).
  assert (d ≠ "") as Hdne by (by destruct d).
  assert (write_quantity d x w ≠ "") as Hqne by (by apply app_nonempty_l).
  destruct (quantity_written d x w (name +:+ suffix) Hd Hw) as [Htake Hrest].
  { intros c. rewrite first_char_app by done. rewrite Ha. by intros [= <-]. }
  assert (∃ b', last_char (name +:+ suffix) = Some b' ∧ Re.is_space b' = false) as (b' & Hb' & Hsb').
  { destruct Hsuf as [->|(b' & Hb' & Hsb')].
    - rewrite app_nil_r. by exists b.
    - exists b'. split; [|done]. rewrite last_char_app; [done|]. by destruct suffix. }
  repeat split; try done.
  - apply (trimmed_line l a0 b').
    + unfold l, write_quantity. rewrite !app_assoc. by rewrite first_char_app.
    + apply digit_not_space in Hda0 as [? _]. done.
    + unfold l. rewrite last_char_app; [done|]. by apply app_nonempty_l.
    + done.
  - unfold l. by apply app_nonempty_l.
Qed.

Lemma name_line_shape name suffix :
  plain_name name = true →
  (suffix = "" ∨ ∃ b, last_char suffix = Some b ∧ Re.is_space b = false) →
  trimmed (name +:+ suffix) = true ∧ name +:+ suffix ≠ "".
Proof.
  intros (Hne & _ & _ & (a & Ha & Hsa) & (b & Hb & Hsb))%plain_name_parts Hsuf.
  split; [|by apply app_nonempty_l].
  destruct Hsuf as [->|(b' & Hb' & Hsb')].
  - rewrite app_nil_r. by apply (trimmed_line name a b).
  - apply (trimmed_line _ a b'); try done.
    + by rewrite first_char_app.
    + rewrite last_char_app; [done|]. by destruct suffix.
Qed.

Lemma code_suffix w code :
  write_set_code w code = "" ∨ ∃ b, last_char (write_set_code w code) = Some b ∧ Re.is_space b = false.
Proof. right. exists ")"%char. split; [apply last_char_code | done]. Qed.

Lemma cut_empty : cut_set_code "" = "".
Proof. reflexivity. Qed.

End WrittenLines.

(** ** Pieces of a text *)

Module Pieces.
Import StripFacts RxFacts QuantityFacts EntryFacts SetCodeFacts PyStr.

Lemma end_of_refl s : end_of s s.
Proof. by exists "". Qed.

Lemma end_of_trans s1 s2 s3 : end_of s1 s2 → end_of s2 s3 → end_of s1 s3.
Proof. intros [a ->] [b ->]. exists (b +:+ a). by rewrite app_assoc. Qed.

Lemma end_of_tail c s : end_of s (String c s).
Proof. by exists (String c ""). Qed.

Lemma consumed_piece s s' s0 :
  end_of s s0 → end_of s' s → piece (Re.consumed s s') s0.
Proof.
  intros [a ->] [p ->]. rewrite ReFacts.consumed_append. by exists a, s'.
Qed.

Lemma piece_refl s : piece s s.
Proof. exists "", "". by rewrite app_nil_r. Qed.

Lemma piece_empty s : piece "" s.
Proof. by exists "", s. Qed.

Lemma piece_trans v s t : piece v s → piece s t → piece v t.
Proof.
  intros (a & b & ->) (c & d & ->). exists (c +:+ a), (b +:+ d).
  by rewrite !app_assoc.
Qed.

Lemma end_of_piece s' s : end_of s' s → piece s' s.
Proof. intros [a ->]. exists a, "". by rewrite app_nil_r. Qed.

Lemma all_chars_piece f v s : piece v s → all_chars f s = true → all_chars f v = true.
Proof.
  intros (a & b & ->). rewrite !all_chars_app.
  by intros [_ [? _]%andb_true_iff]%andb_true_iff.
Qed.

Lemma length_piece v s : piece v s → (String.length v ≤ String.length s)%nat.
Proof. intros (a & b & ->). rewrite !length_app. lia. Qed.

(** What a match hands to its continuation is an end of the text, and what
    it captures is a piece of it. *)
Section run_inv.
Context {A : Type}.
Variables (whole s0 : string) (Q : A → Prop) (G : gmap nat string → Prop).

Lemma run_inv r :
  (∀ i v caps, i ∈ groups r → piece v s0 → G caps → G (<[i := v]> caps)) →
  ∀ s caps (k : string → gmap nat string → option A),
    end_of s s0 → G caps →
    (∀ s' caps', end_of s' s → G caps' → ∀ a, k s' caps' = Some a → Q a) →
    ∀ a, run whole r s caps k = Some a → Q a.
Proof.
  induction r as [|f| | |r1 IH1 r2 IH2|r1 IH1 r2 IH2|f|i r1 IH1];
    intros Hg s caps k Hs HG Hk a Hrun; cbn [run] in Hrun.
  - by apply (Hk s caps (end_of_refl s) HG).
  - destruct s as [|x s']; [done|]. destruct (f x); [|done].
    by apply (Hk s' caps (end_of_tail x s') HG).
  - destruct (_ =? _)%nat; [|done]. by apply (Hk s caps (end_of_refl s) HG).
  - destruct (at_end s); [|done]. by apply (Hk s caps (end_of_refl s) HG).
  - apply (IH1 (λ i v c Hi, Hg i v c (proj2 (elem_of_app _ _ _) (or_introl Hi)))
               s caps (λ s' caps', run whole r2 s' caps' k) Hs HG); [|done].
    intros s' caps' Hs' HG' a'.
    apply (IH2 (λ i v c Hi, Hg i v c (proj2 (elem_of_app _ _ _) (or_intror Hi))) s' caps' k);
      [by apply (end_of_trans s' s s0) | done |].
    intros s'' caps'' Hs'' HG''. apply Hk; [|done]. by apply (end_of_trans s'' s' s).
  - destruct (run whole r1 s caps k) as [a'|] eqn:E.
    + injection Hrun as <-.
      by apply (IH1 (λ i v c Hi, Hg i v c (proj2 (elem_of_app _ _ _) (or_introl Hi))) s caps k Hs HG Hk).
    + by apply (IH2 (λ i v c Hi, Hg i v c (proj2 (elem_of_app _ _ _) (or_intror Hi))) s caps k Hs HG Hk).
  - revert Hrun. generalize (end_of_refl s). generalize s at 1 3 as u.
    induction u as [|x u IHu]; intros Hu Hrun.
    + by apply (Hk "" caps Hu HG).
    + destruct (f x).
      * match type of Hrun with
        | match ?m with _ => _ end = _ => destruct m as [a'|] eqn:E
        end.
        -- injection Hrun as <-. apply IHu; [|done].
           by apply (end_of_trans u (String x u) s (end_of_tail x u)).
        -- by apply (Hk _ caps Hu HG).
      * by apply (Hk _ caps Hu HG).
  - apply (IH1 (λ j v c Hj, Hg j v c (proj2 (elem_of_cons _ _ _) (or_intror Hj)))
               s caps (λ s' caps', k s' (<[i := Re.consumed s s']> caps')) Hs HG);
      [|done].
    intros s' caps' Hs' HG'. apply Hk; [done|].
    apply Hg; [by apply elem_of_cons; left | by apply consumed_piece | done].
Qed.

End run_inv.

(** The groups of a matched entry. *)
Lemma entry_groups s rest m :
  match_ re_entry s = Some (rest, m) →
  Re.group m 1 = take_while Re.is_digit s ∧ piece (Re.group m 2) s.
Proof.
  rewrite entry_match_digits.
  destruct (String.eqb (take_while Re.is_digit s) ""); [done|].
  intros Hrun.
  apply (run_inv s s
           (λ a, Re.group a.2 1 = take_while Re.is_digit s ∧ piece (Re.group a.2 2) s)
           (λ caps, Re.group caps 1 = take_while Re.is_digit s ∧ piece (Re.group caps 2) s)
           _) in Hrun; [done| | | |].
  - intros i v caps Hi Hv [H1 H2]. unfold Re.group in *.
    assert (i = 2%nat) as ->.
    { cbn in Hi. repeat (apply elem_of_cons in Hi as [Hi|Hi]; [done|]).
      by apply elem_of_nil in Hi. }
    rewrite lookup_insert_ne by lia. by rewrite lookup_insert_eq.
  - exists (take_while Re.is_digit s). by rewrite take_drop_while.
  - unfold Re.group. rewrite lookup_singleton_eq. split; [done|].
    rewrite lookup_singleton_ne by lia. apply piece_empty.
  - intros s' caps' _ HG a [= <-]. done.
Qed.

(** The string functions of the parsers return pieces of their argument. *)
Lemma lstrip_end s : end_of (lstrip s) s.
Proof.
  induction s as [|c s IH]; simpl; [apply end_of_refl|].
  destruct (Re.is_space c); [|apply end_of_refl].
  apply (end_of_trans _ s); [done | apply end_of_tail].
Qed.

Lemma rstrip_start s : ∃ b, s = rstrip s +:+ b.
Proof.
  induction s as [|c s [b IH]]; [by exists ""|]. cbn [rstrip].
  destruct (rstrip s) as [|c' r] eqn:E.
  - destruct (Re.is_space c); [by exists (String c s) | by exists s].
  - exists b. rewrite app_cons. by rewrite <- IH.
Qed.

Lemma strip_piece s : piece (strip s) s.
Proof.
  unfold strip. destruct (rstrip_start (lstrip s)) as [b Hb].
  destruct (lstrip_end s) as [a Ha]. exists a, b. by rewrite <- Hb.
Qed.

Lemma cut_start s : ∃ b, s = cut_set_code s +:+ b.
Proof.
  induction s as [|c s [b IH]]; cbn [cut_set_code].
  - destruct (set_code_at ""); by exists "".
  - destruct (set_code_at (String c s)); [by exists (String c s)|].
    exists b. rewrite app_cons. by rewrite <- IH.
Qed.

Lemma cut_piece s : piece (cut_set_code s) s.
Proof. destruct (cut_start s) as [b Hb]. exists "", b. by rewrite app_nil. Qed.

Lemma name_piece s : piece (strip (cut_set_code s)) s.
Proof. apply (piece_trans _ (cut_set_code s)); [apply strip_piece | apply cut_piece]. Qed.

Lemma quantity_rest_piece s rest : quantity_rest s = Some rest → piece rest s.
Proof.
  intros (pre & c & -> & _)%quantity_rest_suffix. apply end_of_piece. by exists pre.
Qed.

End Pieces.

(** ** Decklists *)

Module DecklistFacts.
Import StripFacts RxFacts ManaCost QuantityFacts EntryFacts SetCodeFacts WrittenLines Pieces PyStr.

Lemma for_each_snoc {A B} (f : A → B → result A) l x : ∀ a,
  for_each f a (l ++ [x]) = (r ← for_each f a l; f r x).
Proof.
  induction l as [|y l IH]; intros a; simpl.
  - by destruct (f a x).
  - destruct (f a y) as [a'|msg]; simpl; [apply IH | done].
Qed.

Lemma parse_decklist_snoc lines line :
  parse_decklist (lines ++ [line]) = (r ← parse_decklist lines; parse_line r line).
Proof. apply for_each_snoc. Qed.

Lemma clean_piece v line :
  ascii_text line = true → piece v line → strip v ≠ "" → clean_name (strip v).
Proof.
  intros Ha Hv Hne. split; [done|]. split; [|apply strip_trimmed].
  apply (all_chars_piece _ (strip v) line); [|done].
  apply (piece_trans _ v); [apply strip_piece | done].
Qed.

Lemma parse_card_name_clean line name :
  ascii_text line = true → parse_card_name line = Some name → clean_name name.
Proof.
  intros Ha. rewrite parse_card_name_eq. cbv zeta.
  destruct (String.eqb (strip line) ""); [done|].
  set (rest := default (strip line) (quantity_rest (strip line))).
  destruct (String.eqb_spec (strip (cut_set_code rest)) ""); [done|].
  intros [= <-]. apply (clean_piece _ line); [done| |done].
  apply (piece_trans _ rest); [apply cut_piece|].
  apply (piece_trans _ (strip line)); [|apply strip_piece].
  unfold rest. destruct (quantity_rest (strip line)) as [r|] eqn:E; simpl.
  - by apply quantity_rest_piece.
  - apply piece_refl.
Qed.

Lemma parse_line_cases cards cmd line :
  ascii_text line = true → Forall clean_entry cards →
  match parse_line (cards, cmd) line with
  | Ok (cards', _) => Forall clean_entry cards'
  | Raised _ => long_quantity line = true
  end.
Proof.
  intros Ha Hc. unfold parse_line.
  destruct (Str.startswith "# Commander:" (strip line)); [done|].
  destruct (String.eqb (strip line) "" || Str.startswith "#" (strip line)); [done|].
  assert (∀ (P : Prop) q v, 0 ≤ q → piece v (strip line) →
            match (if String.eqb (strip (sub re_set_code v)) "" then Ok (cards, cmd)
                   else Ok (cards ++ [(strip (sub re_set_code v), q)], cmd))
            with
            | Ok (cards', _) => Forall clean_entry cards'
            | Raised _ => P
            end) as Hadd.
  { intros P q v Hq Hv. rewrite sub_set_code.
    destruct (String.eqb_spec (strip (cut_set_code v)) ""); [done|].
    apply Forall_app. split; [done|]. apply Forall_singleton. split; [|done].
    apply (clean_piece _ line); [done| |done].
    apply (piece_trans _ v); [apply cut_piece|].
    apply (piece_trans _ (strip line)); [done | apply strip_piece]. }
  destruct (match_ re_entry (strip line)) as [[rest m]|] eqn:Em.
  - destruct (entry_groups _ _ _ Em) as [H1 H2]. rewrite H1.
    unfold int, long_quantity.
    destruct (Nat.ltb_spec int_max_str_digits
                (String.length (take_while Re.is_digit (strip line)))); [done|].
    simpl. apply Hadd; [|done]. by apply int_from_nonneg.
  - simpl. apply Hadd; [lia | apply piece_refl].
Qed.

Lemma for_each_parse_line lines : ∀ cards cmd,
  Forall (λ line, ascii_text line = true) lines → Forall clean_entry cards →
  match for_each parse_line (cards, cmd) lines with
  | Ok (cards', _) => Forall clean_entry cards'
  | Raised _ => Exists (λ line, long_quantity line = true) lines
  end.
Proof.
  induction lines as [|line lines IH]; intros cards cmd Ha Hc; [done|].
  apply Forall_cons in Ha as [Ha Hal]. cbn [for_each].
  pose proof (parse_line_cases cards cmd line Ha Hc) as Hline.
  destruct (parse_line (cards, cmd) line) as [[cards1 cmd1]|msg]; simpl.
  - specialize (IH cards1 cmd1 Hal Hline).
    destruct (for_each parse_line (cards1, cmd1) lines) as [[cards' cmd']|msg']; [done|].
    by right.
  - by left.
Qed.

Lemma parse_decklist_clean lines :
  Forall (λ line, ascii_text line = true) lines →
  match parse_decklist lines with
  | Ok (cards, _) => Forall clean_entry cards
  | Raised _ => Exists (λ line, long_quantity line = true) lines
  end.
Proof. intros Ha. by apply for_each_parse_line. Qed.

Lemma not_comment s a :
  first_char s = Some a → a ≠ "#"%char → Str.startswith "#" s = false.
Proof.
  destruct s as [|c s]; [done|]. intros [= ->] Ha.
  unfold Str.startswith. cbn [String.prefix]. by destruct (ascii_dec "#" a).
Qed.

Lemma digit_not_hash a : Re.is_digit a = true → a ≠ "#"%char.
Proof. by intros H ->. Qed.

Lemma written_entry_read d x w name suffix cards cmd :
  digits d = true → blanks w = true → plain_name name = true →
  cut_set_code suffix = "" →
  (suffix = "" ∨ ∃ b, last_char suffix = Some b ∧ Re.is_space b = false) →
  all_chars not_newline (write_quantity d x w +:+ name +:+ suffix) = true →
  parse_line (cards, cmd) (write_quantity d x w +:+ name +:+ suffix)
  = (quantity ← int d; Ok (cards ++ [(name, quantity)], cmd)).
Proof.
  intros Hd Hw Hname Hcut Hsuf Hnn.
  pose proof (written_line_shape d x w name suffix Hd Hw Hname Hsuf) as Hshape.
  cbv zeta in Hshape. destruct Hshape as (Ht & Hne & Hq & Htake).
  set (l := write_quantity d x w +:+ name +:+ suffix) in *.
  destruct (digits_first d Hd) as (a & Ha & Hda).
  assert (first_char l = Some a) as Hfirst.
  { unfold l, write_quantity. rewrite !app_assoc. rewrite first_char_app; [done|]. by destruct d. }
  rewrite lines_agree.
  - rewrite (read_back l name suffix Hname Hcut Ht Hne) by by rewrite Hq.
    rewrite (strip_id l Ht). unfold quantity_of. by rewrite Hq, Htake.
  - by rewrite (strip_id l Ht).
  - rewrite (strip_id l Ht). apply (not_comment l a Hfirst). by apply digit_not_hash.
Qed.

End DecklistFacts.

(** ** Costs, card names and decklists *)

(** X20.  For an ASCII cost string, [parse_mana_cost] returns a dict or raises the
    [ValueError] of [int]: it raises only if some symbol found in braces is
    made of more than 4300 digits, the limit of [int] on strings, and returns
    only if none is.  When it returns, no count is negative: every key other
    than colorless holds at least [1], colorless at least [0], and the
    counts add up to the sum over the symbols found, a symbol of digits
    counting its value and any other symbol one. *)
Theorem mana_cost_totals (mana_cost_str : string) :
  ascii_text mana_cost_str = true →
  match parse_mana_cost mana_cost_str with
  | Ok mana_dict =>
      Forall (λ x, long_number x = false) (findall re_mana_symbol mana_cost_str)
      ∧ map_Forall (λ color n, 0 ≤ n ∧ (color ≠ "colorless" → 1 ≤ n)) mana_dict
      ∧ dict_sum mana_dict = sum_weights (findall re_mana_symbol mana_cost_str)
      ∧ 0 ≤ dict_sum mana_dict
  | Raised _ =>
      Exists (λ x, long_number x = true) (findall re_mana_symbol mana_cost_str)
  end.
Proof.
  intros _. pose proof (ManaCost.parse_totals mana_cost_str) as H.
  destruct (parse_mana_cost mana_cost_str) as [d|msg]; [|exact H].
  destruct H as (Hl & Hc & Hs).
  split; [exact Hl|]. split; [exact Hc|]. split; [exact Hs|].
  rewrite Hs. apply ManaCost.sum_weights_nonneg.
Qed.

Lemma mana_cost_totals_witness :
  ascii_text "{2}{W}{U/B}{X}" = true
  ∧ ∃ mana_dict, parse_mana_cost "{2}{W}{U/B}{X}" = Ok mana_dict ∧ dict_sum mana_dict = 5.
Proof.
  pose proof (mana_cost_totals "{2}{W}{U/B}{X}" eq_refl) as Hthm.
  assert (parse_mana_cost "{2}{W}{U/B}{X}"
          = Ok {[ "colorless" := 2; "W" := 1; "U" := 1; "X" := 1 ]}) as E
    by (vm_compute; reflexivity).
  rewrite E in Hthm. destruct Hthm as (_ & _ & Hs & _).
  split; [reflexivity|]. eexists. split; [exact E|].
  rewrite Hs. vm_compute. reflexivity.
Defined.

(** X21.  A cost written as a row of symbols in braces, each symbol non-empty and
    without a closing brace, is read back symbol by symbol: the pattern of
    [parse_mana_cost] finds exactly the symbols, in order, and the outcome is
    that of the per-symbol update run over them, in order, the exception of
    [int] included when a symbol raises it. *)
Theorem written_cost_is_read_back (symbols : list string) :
  Forall (λ x, x ≠ "" ∧ all_chars (not_chr "}") x = true) symbols →
  findall re_mana_symbol (write_cost symbols) = symbols
  ∧ parse_mana_cost (write_cost symbols) = for_each add_symbol ∅ symbols.
Proof.
  intros Hall.
  assert (findall re_mana_symbol (write_cost symbols) = symbols) as Hf.
  { unfold findall. apply ManaCost.findall_write_cost; [done | lia]. }
  split; [done|]. by rewrite ManaCost.parse_mana_cost_fold, Hf.
Qed.

Lemma written_cost_is_read_back_witness :
  parse_mana_cost "{2}{W}{U/B}{X}"
  = Ok {[ "colorless" := 2; "W" := 1; "U" := 1; "X" := 1 ]}.
Proof.
  assert (Forall (λ x, x ≠ "" ∧ all_chars (not_chr "}") x = true) ["2"; "W"; "U/B"; "X"])
    as Hall by (repeat constructor; done).
  pose proof (written_cost_is_read_back ["2"; "W"; "U/B"; "X"] Hall) as Hthm.
  destruct Hthm as [_ Hthm].
  change (write_cost ["2"; "W"; "U/B"; "X"]) with "{2}{W}{U/B}{X}" in Hthm.
  rewrite Hthm. vm_compute. reflexivity.
Defined.

(** X22.  [parse_card_name] returns the card name from an ASCII line written as
    the digits of a quantity, an optional [x], whitespace, the name and,
    optionally, a set code in parentheses, provided the name is not empty,
    has no opening parenthesis and no whitespace at either end; the same
    holds without the quantity when the name does not start with a digit. *)
Theorem card_name_is_read_back (d : string) (x : bool) (w name w' code : string) :
  digits d = true → blanks w = true →
  plain_name name = true → ascii_text name = true →
  all_chars Re.is_space w' = true →
  code_text code = true → ascii_text code = true →
  parse_card_name (write_quantity d x w +:+ name +:+ write_set_code w' code) = Some name
  ∧ parse_card_name (write_quantity d x w +:+ name) = Some name
  ∧ ((∀ c, first_char name = Some c → Re.is_digit c = false) →
     parse_card_name (name +:+ write_set_code w' code) = Some name
     ∧ parse_card_name name = Some name).
Proof.
  intros Hd Hw Hname _ Hw' Hcode _.
  pose proof (WrittenLines.cut_written_code w' code Hw' Hcode) as Hcut.
  pose proof (WrittenLines.code_suffix w' code) as Hsuf.
  split; [|split].
  - pose proof (WrittenLines.written_line_shape d x w name _ Hd Hw Hname Hsuf) as H.
    cbv zeta in H. destruct H as (Ht & Hne & Hq & _).
    apply (WrittenLines.read_back _ name (write_set_code w' code)); try done.
    by rewrite Hq.
  - pose proof (WrittenLines.written_line_shape d x w name "" Hd Hw Hname (or_introl eq_refl)) as H.
    cbv zeta in H. rewrite !StripFacts.app_nil_r in H. destruct H as (Ht & Hne & Hq & _).
    apply (WrittenLines.read_back _ name ""); try done.
    by rewrite Hq, StripFacts.app_nil_r.
  - intros Hfirst.
    pose proof Hname as (Hn & _)%WrittenLines.plain_name_parts.
    split.
    + destruct (WrittenLines.name_line_shape name _ Hname Hsuf) as [Ht Hne].
      apply (WrittenLines.read_back _ name (write_set_code w' code)); try done.
      rewrite WrittenLines.quantity_none; [done|].
      intros c. rewrite WrittenLines.first_char_app by done. apply Hfirst.
    + destruct (WrittenLines.name_line_shape name "" Hname (or_introl eq_refl)) as [Ht Hne].
      rewrite StripFacts.app_nil_r in Ht, Hne.
      apply (WrittenLines.read_back _ name ""); try done.
      by rewrite WrittenLines.quantity_none, StripFacts.app_nil_r.
Qed.

Lemma card_name_is_read_back_witness :
  parse_card_name "4x  Lightning Bolt (M21)" = Some "Lightning Bolt"
  ∧ parse_card_name "4x  Lightning Bolt" = Some "Lightning Bolt".
Proof.
  pose proof (card_name_is_read_back "4" true "  " "Lightning Bolt" " " "M21"
                eq_refl eq_refl eq_refl eq_refl eq_refl eq_refl eq_refl) as Hthm.
  destruct Hthm as (H1 & H2 & _).
  split; [exact H1 | exact H2].
Defined.

(** X23.  On an ASCII line that is not a comment and whose stripped text has no
    line break, the loop body of [parse_decklist] appends an entry exactly
    when [parse_card_name] returns a name, with that name; the quantity is
    the leading number when the line starts with a quantity, and [1]
    otherwise.  When [int] raises on the leading number (more than 4300
    digits), the loop body raises the same exception. *)
Theorem parsers_agree_on_entries (cards : list (string * Z)) (commander : option string)
    (line : string) :
  ascii_text line = true →
  all_chars not_newline (PyStr.strip line) = true →
  Str.startswith "#" (PyStr.strip line) = false →
  parse_line (cards, commander) line
  = (quantity ← quantity_of (PyStr.strip line);
     Ok (match parse_card_name line with
         | Some name => (cards ++ [(name, quantity)], commander)
         | None => (cards, commander)
         end)).
Proof. intros _. apply EntryFacts.lines_agree. Qed.

Lemma parsers_agree_on_entries_witness :
  parse_line ([], None) " 10 Forest (UNF) " = Ok ([("Forest", 10)], None)
  ∧ parse_card_name " 10 Forest (UNF) " = Some "Forest".
Proof.
  pose proof (parsers_agree_on_entries [] None " 10 Forest (UNF) "
                eq_refl eq_refl eq_refl) as Hthm.
  split; [|vm_compute; reflexivity].
  rewrite Hthm. vm_compute. reflexivity.
Defined.

(** X24.  In an ASCII decklist, a line written as the digits of a quantity, an
    optional [x], whitespace, a name and, optionally, a set code, added at
    the end, adds the entry of that name and quantity to the entries that
    [parse_decklist] returns; the earlier entries and the commander are
    unchanged.  [parse_decklist] raises on the longer list when it raises on
    the earlier lines, or when [int] raises on the digits (more than 4300 of
    them). *)
Theorem decklist_entry_is_read_back (lines : list string) (d : string) (x : bool)
    (w name w' code : string) :
  forallb ascii_text lines = true →
  digits d = true → blanks w = true →
  plain_name name = true → ascii_text name = true →
  all_chars Re.is_space w' = true →
  code_text code = true → ascii_text code = true →
  all_chars not_newline (w +:+ name +:+ w' +:+ code) = true →
  parse_decklist (lines ++ [write_quantity d x w +:+ name +:+ write_set_code w' code])
  = ('(cards, commander) ← parse_decklist lines;
     quantity ← PyStr.int d;
     Ok (cards ++ [(name, quantity)], commander))
  ∧ parse_decklist (lines ++ [write_quantity d x w +:+ name])
    = ('(cards, commander) ← parse_decklist lines;
       quantity ← PyStr.int d;
       Ok (cards ++ [(name, quantity)], commander)).
Proof.
  intros _ Hd Hw Hname _ Hw' Hcode _ Hnn.
  rewrite !QuantityFacts.all_chars_app in Hnn.
  apply andb_true_iff in Hnn as [Hnw [Hnn [Hnw' Hnc]%andb_true_iff]%andb_true_iff].
  assert (all_chars not_newline d = true) as Hnd.
  { unfold digits in Hd. apply andb_true_iff in Hd as [_ Hd].
    clear -Hd. induction d as [|c d IH]; [done|]. simpl in *.
    apply andb_true_iff in Hd as [Hc Hd]. rewrite (IH Hd), andb_true_r.
    revert Hc. clear. destruct c as [[] [] [] [] [] [] [] []]; by vm_compute. }
  assert (all_chars not_newline (write_quantity d x w) = true) as Hnq.
  { unfold write_quantity. rewrite !QuantityFacts.all_chars_app, Hnd, Hnw. by destruct x. }
  rewrite !DecklistFacts.parse_decklist_snoc.
  destruct (parse_decklist lines) as [[cards cmd]|msg]; [|done].
  change (Ok (cards, cmd) ≫= λ r, parse_line r ?l) with (parse_line (cards, cmd) l).
  split.
  - apply DecklistFacts.written_entry_read; try done.
    + by apply WrittenLines.cut_written_code.
    + apply WrittenLines.code_suffix.
    + unfold write_set_code.
      rewrite !QuantityFacts.all_chars_app, Hnq, Hnn, Hnw', Hnc. reflexivity.
  - pose proof (DecklistFacts.written_entry_read d x w name "" cards cmd Hd Hw Hname
                  eq_refl (or_introl eq_refl)) as H.
    rewrite !StripFacts.app_nil_r in H. apply H.
    by rewrite !QuantityFacts.all_chars_app, Hnq, Hnn.
Qed.

Lemma decklist_entry_is_read_back_witness :
  parse_decklist ["# Commander: Atraxa"; "1 Sol Ring"; "10x Forest (UNF)"]
  = Ok ([("Sol Ring", 1); ("Forest", 10)], Some "Atraxa").
Proof.
  pose proof (decklist_entry_is_read_back ["# Commander: Atraxa"; "1 Sol Ring"]
                "10" true " " "Forest" " " "UNF"
                eq_refl eq_refl eq_refl eq_refl eq_refl eq_refl eq_refl eq_refl eq_refl)
    as Hthm.
  destruct Hthm as [Hthm _].
  change (["# Commander: Atraxa"; "1 Sol Ring"]
          ++ [write_quantity "10" true " " +:+ "Forest" +:+ write_set_code " " "UNF"])
    with ["# Commander: Atraxa"; "1 Sol Ring"; "10x Forest (UNF)"] in Hthm.
  rewrite Hthm. vm_compute. reflexivity.
Defined.

(** X25.  For an ASCII decklist, every entry that [parse_decklist] returns has a
    name that is not empty and has no whitespace at either end, and a
    quantity that is not negative (a quantity of [0] is kept); when
    [parse_decklist] raises, some line starts, once stripped, with more than
    4300 digits.  [parse_card_name], when it returns a name for an ASCII
    line, returns one that is not empty and has no whitespace at either end. *)
Theorem parsed_names_are_clean (lines : list string) :
  forallb ascii_text lines = true →
  match parse_decklist lines with
  | Ok (cards, _) => Forall clean_entry cards
  | Raised _ => Exists (λ line, long_quantity line = true) lines
  end
  ∧ ∀ line, ascii_text line = true →
            match parse_card_name line with
            | Some name => clean_name name
            | None => True
            end.
Proof.
  intros Ha.
  assert (Forall (λ line, ascii_text line = true) lines) as Hall.
  { apply Forall_forall. intros line Hin. rewrite forallb_forall in Ha.
    apply Ha. by apply list_elem_of_In. }
  split.
  - by apply DecklistFacts.parse_decklist_clean.
  - intros line Hl.
    destruct (parse_card_name line) as [name|] eqn:E; [|done].
    by apply (DecklistFacts.parse_card_name_clean line).
Qed.

Lemma parsed_names_are_clean_witness :
  forallb ascii_text ["# Commander: Atraxa"; " 1 Sol Ring "; "0 Forest (UNF)"] = true
  ∧ (∃ cards commander,
        parse_decklist ["# Commander: Atraxa"; " 1 Sol Ring "; "0 Forest (UNF)"]
        = Ok (cards, commander)
        ∧ Forall clean_entry cards)
  ∧ clean_name "Sol Ring".
Proof.
  pose proof (parsed_names_are_clean
                ["# Commander: Atraxa"; " 1 Sol Ring "; "0 Forest (UNF)"] eq_refl) as Hthm.
  assert (parse_decklist ["# Commander: Atraxa"; " 1 Sol Ring "; "0 Forest (UNF)"]
          = Ok ([("Sol Ring", 1); ("Forest", 0)], Some "Atraxa")) as E
    by (vm_compute; reflexivity).
  rewrite E in Hthm. destruct Hthm as [Hthm Hname].
  split; [reflexivity|]. split; [eexists _, _; split; [exact E | exact Hthm]|].
  exact (Hname " 1 Sol Ring " eq_refl).
Defined.

(** * Properties of decks *)

Module DeckFacts.
Import Deck.

Lemma bump_get m tag t :
  dict_get0 (bump m tag) t = dict_get0 m t + (if string_dec tag t then 1 else 0).
Proof.
  unfold bump, dict_get0. destruct (string_dec tag t) as [->|Hne].
  - by rewrite lookup_insert_eq.
  - rewrite lookup_insert_ne by done. lia.
Qed.

Lemma bump_positive m tag : positive m → positive (bump m tag).
Proof.
  intros Hm k v. unfold bump. destruct (decide (tag = k)) as [->|Hne].
  - rewrite lookup_insert_eq. intros [= <-]. unfold dict_get0.
    destruct (m !! k) as [v|] eqn:E; simpl; [|lia]. specialize (Hm k v E). simpl in Hm. lia.
  - rewrite lookup_insert_ne by done. apply Hm.
Qed.

Lemma tally_get l : ∀ m t,
  dict_get0 (foldl bump m l) t = dict_get0 m t + Z.of_nat (count_occ string_dec l t).
Proof.
  induction l as [|tag l IH]; intros m t; simpl; [lia|].
  rewrite IH, bump_get. destruct (string_dec tag t); lia.
Qed.

Lemma tally_positive l : ∀ m, positive m → positive (foldl bump m l).
Proof. induction l as [|tag l IH]; intros m Hm; simpl; [done|]. apply IH. by apply bump_positive. Qed.

Lemma distribution_get l : ∀ m t,
  dict_get0 (foldl (λ tc card, foldl bump tc (tags card)) m l) t
  = dict_get0 m t + Z.of_nat (tag_occurrences t l).
Proof.
  induction l as [|c l IH]; intros m t; simpl; [lia|].
  rewrite IH, tally_get. lia.
Qed.

Lemma distribution_positive l : ∀ m,
  positive m → positive (foldl (λ tc card, foldl bump tc (tags card)) m l).
Proof.
  induction l as [|c l IH]; intros m Hm; simpl; [done|]. apply IH. by apply tally_positive.
Qed.

Lemma count_occ_NoDup (l : list string) t :
  NoDup l → count_occ string_dec l t = if bool_decide (t ∈ l) then 1%nat else 0%nat.
Proof.
  induction 1 as [|x l Hx Hl IH]; simpl; [done|].
  destruct (string_dec x t) as [->|Hne].
  - rewrite bool_decide_eq_true_2 by left.
    rewrite IH, bool_decide_eq_false_2; done.
  - rewrite IH. destruct (decide (t ∈ l)) as [Hin|Hin].
    + rewrite !bool_decide_eq_true_2; [done | by right | done].
    + rewrite !bool_decide_eq_false_2; [done | | done].
      intros [?|?]%elem_of_cons; [congruence | done].
Qed.

Lemma tag_occurrences_NoDup t l :
  Forall (λ card, NoDup (tags card)) l →
  tag_occurrences t l = length (cards_with_tag t l).
Proof.
  unfold cards_with_tag.
  induction 1 as [|c l Hc Hl IH]; simpl; [done|].
  rewrite filter_cons, IH, (count_occ_NoDup _ t Hc). unfold has_tag.
  destruct (bool_decide (t ∈ tags c)) eqn:E.
  - rewrite decide_True by done. done.
  - rewrite decide_False by done. done.
Qed.

Lemma tag_occurrences_zero t l :
  tag_occurrences t l = 0%nat ↔ ∀ card, card ∈ l → t ∉ tags card.
Proof.
  induction l as [|c l IH]; simpl.
  - split; [|done]. intros _ card Hc. by apply elem_of_nil in Hc.
  - split.
    + intros H card [->|Hin]%elem_of_cons.
      * intros Hin%list_elem_of_In. apply (count_occ_In string_dec) in Hin. lia.
      * apply IH; [lia | done].
    + intros H. assert (count_occ string_dec (tags c) t = 0%nat) as ->.
      { apply count_occ_not_In. intros Hin%list_elem_of_In. by apply (H c); [left|]. }
      apply IH. intros card Hc. apply H. by right.
Qed.

Lemma land_count_length l : ∀ acc,
  foldl (λ acc card, if is_land card then acc + 1 else acc) acc l
  = acc + Z.of_nat (length (filter (λ card, is_land card = true) l)).
Proof.
  induction l as [|c l IH]; intros acc; simpl; [lia|].
  rewrite IH, filter_cons. destruct (is_land c) eqn:E.
  - rewrite decide_True by done. simpl. lia.
  - rewrite decide_False by done. lia.
Qed.

Lemma validate_ok v v' : validate_deck_size v = Ok v' → v' = v ∧ length v = 99%nat.
Proof.
  unfold validate_deck_size. destruct (Nat.eqb_spec (length v) 99); simpl; [|done].
  by intros [= <-].
Qed.

Lemma validate_raises v : length v ≠ 99%nat → ∃ msg, validate_deck_size v = Raised msg.
Proof.
  intros H. unfold validate_deck_size. destruct (Nat.eqb_spec (length v) 99); [done|].
  simpl. by eexists.
Qed.

End DeckFacts.

(** ** The tag distribution of a deck *)

(** X26.  [get_tag_distribution] maps each tag to the number of times it is
    listed on the cards of [all_cards], and leaves out exactly the tags that
    no card carries; when no card lists a tag twice, the count is the number
    of cards that carry the tag.  A card list that [validate_deck_size]
    accepts has 99 cards, so [all_cards] has 100, [land_count] is between
    [0] and [100] and no such count exceeds [100]; any other length makes
    [validate_deck_size] raise. *)
Theorem tag_distribution_counts (d : Deck.Deck) (tag : string) :
  let dist := Deck.get_tag_distribution d in
  dict_get0 dist tag = Z.of_nat (tag_occurrences tag (Deck.all_cards d))
  ∧ (dist !! tag = None ↔ ∀ card, card ∈ Deck.all_cards d → has_tag tag card = false)
  ∧ (Forall (λ card, NoDup (tags card)) (Deck.all_cards d) →
     dict_get0 dist tag = Z.of_nat (length (cards_with_tag tag (Deck.all_cards d))))
  ∧ (Deck.validate_deck_size (Deck.cards d) = Ok (Deck.cards d) →
     length (Deck.all_cards d) = 100%nat
     ∧ 0 ≤ Deck.land_count d ≤ 100
     ∧ (Forall (λ card, NoDup (tags card)) (Deck.all_cards d) → dict_get0 dist tag ≤ 100))
  ∧ (length (Deck.cards d) ≠ 99%nat →
     ∃ msg, Deck.validate_deck_size (Deck.cards d) = Raised msg).
Proof.
  intros dist.
  assert (dict_get0 dist tag = Z.of_nat (tag_occurrences tag (Deck.all_cards d))) as Hget.
  { unfold dist, Deck.get_tag_distribution.
    pose proof (DeckFacts.distribution_get (Deck.all_cards d) ∅ tag) as H.
    unfold bump in H. rewrite H. unfold dict_get0. rewrite lookup_empty. simpl. lia. }
  assert (positive dist) as Hpos.
  { unfold dist, Deck.get_tag_distribution.
    apply (DeckFacts.distribution_positive (Deck.all_cards d) ∅).
    intros k v Hk. by rewrite lookup_empty in Hk. }
  assert (Forall (λ card, NoDup (tags card)) (Deck.all_cards d) →
          dict_get0 dist tag = Z.of_nat (length (cards_with_tag tag (Deck.all_cards d))))
    as Hcards.
  { intros Hnd. by rewrite Hget, (DeckFacts.tag_occurrences_NoDup _ _ Hnd). }
  split; [done|]. split; [|split; [done|split]].
  - assert (dist !! tag = None ↔ tag_occurrences tag (Deck.all_cards d) = 0%nat) as ->.
    { split.
      - intros Hn. assert (dict_get0 dist tag = 0) as H0
          by (unfold dict_get0; by rewrite Hn).
        lia.
      - intros Hz. rewrite Hz in Hget. destruct (dist !! tag) as [v|] eqn:E; [|done].
        specialize (Hpos tag v E). simpl in Hpos.
        assert (dict_get0 dist tag = v) as Hv by (unfold dict_get0; by rewrite E).
        lia. }
    rewrite DeckFacts.tag_occurrences_zero. unfold has_tag.
    split; intros H card Hc; specialize (H card Hc).
    + by apply bool_decide_eq_false_2.
    + by apply bool_decide_eq_false_1 in H.
  - intros [_ Hlen]%DeckFacts.validate_ok.
    assert (length (Deck.all_cards d) = 100%nat) as Hall
      by (unfold Deck.all_cards; rewrite length_cons, Hlen; done).
    split; [done|]. split.
    + unfold Deck.land_count. rewrite DeckFacts.land_count_length.
      pose proof (length_filter (λ card, is_land card = true) (Deck.all_cards d)) as Hle.
      lia.
    + intros Hnd. rewrite (Hcards Hnd).
      pose proof (length_filter (λ card, has_tag tag card = true) (Deck.all_cards d)) as Hle.
      unfold cards_with_tag. lia.
  - apply DeckFacts.validate_raises.
Qed.

Lemma tag_distribution_counts_witness :
  let d := Deck.mkDeck grizzly_bears (replicate 99 forest) in
  dict_get0 (Deck.get_tag_distribution d) "LAND"
  = Z.of_nat (length (cards_with_tag "LAND" (Deck.all_cards d)))
  ∧ length (Deck.all_cards d) = 100%nat
  ∧ 0 ≤ Deck.land_count d ≤ 100
  ∧ dict_get0 (Deck.get_tag_distribution d) "LAND" ≤ 100.
Proof.
  intros d.
  assert (Forall (λ card, NoDup (tags card)) (Deck.all_cards d)) as Hnd.
  { apply Forall_cons. split; [vm_compute; repeat constructor; set_solver|].
    apply Forall_replicate. vm_compute. repeat constructor; set_solver. }
  pose proof (tag_distribution_counts d "LAND") as Hthm.
  cbv zeta in Hthm. destruct Hthm as (_ & _ & Hcards & Hvalid & _).
  destruct (Hvalid eq_refl) as (Hlen & Hland & Hle).
  split; [by apply Hcards|]. split; [done|]. split; [done|]. by apply Hle.
Defined.
